(** * bnk-tools: the soundbank patcher and the event parser

    A shallow embedding of [SoundBankPatcher.py] (class [WwiseSoundbank]) and
    [events_parser.py] (class [BankParser]), with the properties of the
    specification stated on it.

    Conventions.
    - A Python [bytes] value is a [list byte]; a file opened for reading is a
      buffer with a position ([Stream]).
    - Python integers are unbounded: [N] for the unsigned values the code
      handles, [Z] for the signed ones.  Positions and lengths used with
      slicing are [nat].
    - A call either returns or raises: [result A] is [Ok a] or [Raise e],
      where [e] names the Python exception.
    - A dict keyed by integers is a [gmap N _], a set of integers a [gset N]. *)

From Stdlib Require Import ZArith NArith Lia String Ascii.
From Stdlib.Strings Require Byte.
From stdpp Require Import base option list gmap sets strings pretty.

Local Open Scope N_scope.

Abbreviation byte := Init.Byte.byte.
Abbreviation bytes := (list Init.Byte.byte).

#[global] Instance byte_eq_decision : EqDecision byte := Byte.byte_eq_dec.

(** The source compares positions with [>]. *)
#[global] Instance nat_gt_decision : RelDecision gt :=
  λ a b, decide (b < a)%nat.

(** ** Exceptions and the error monad *)

Inductive Exn : Type :=
  | StructError          (* struct.error: short buffer or value out of range *)
  | IndexError           (* bytes index out of range *)
  | ValueError
  | AttributeError       (* attribute read before it was ever assigned *)
  | TypeError
  | KeyError
  | FileNotFoundError
  | PermissionError      (* an OSError raised by open() on an unreadable path *)
  | RecursionError       (* maximum recursion depth exceeded *)
  | LoopBudget.          (* not a Python exception: the bound of a modelled
                            [while] loop ran out; shown unreachable below *)

#[global] Instance Exn_eq_decision : EqDecision Exn.
Proof. solve_decision. Defined.

Inductive result (A : Type) : Type :=
  | Ok (a : A)
  | Raise (e : Exn).
Arguments Ok {A} a.
Arguments Raise {A} e.

Definition to_option {A} (r : result A) : option A :=
  match r with Ok a => Some a | Raise _ => None end.

Definition bind {A B} (r : result A) (k : A → result B) : result B :=
  match r with
  | Ok a => k a
  | Raise e => Raise e
  end.

Notation "'let!' p ':=' r 'in' k" := (bind r (λ p, k))
  (at level 10, p pattern, r at level 200, k at level 200,
   format "'let!'  p  :=  r  'in'  '/' k").

(** ** Fixed-width integers ([struct]) *)

Inductive Endian := Little | Big.      (* the '<' and '>' format prefixes *)

Definition in_order (en : Endian) (bs : bytes) : bytes :=
  match en with Little => bs | Big => rev bs end.

Definition byte_of_N (n : N) : byte :=
  default Byte.x00 (Byte.of_N (n mod 256)).

(** Value of a little-endian digit string. *)
Fixpoint le_value (bs : bytes) : N :=
  match bs with
  | [] => 0
  | b :: bs' => Byte.to_N b + 256 * le_value bs'
  end.

(** The [n] little-endian base-256 digits of [v]. *)
Fixpoint le_digits (n : nat) (v : N) : bytes :=
  match n with
  | O => []
  | S n' => byte_of_N v :: le_digits n' (v / 256)
  end.

(** [struct.unpack(endian + 'I', bs)[0]] *)
Definition unpack_u32 (en : Endian) (bs : bytes) : result N :=
  if decide (length bs = 4%nat) then Ok (le_value (in_order en bs))
  else Raise StructError.

(** [struct.pack(endian + 'I', v)] *)
Definition pack_u32 (en : Endian) (v : N) : result bytes :=
  if decide (v < 2 ^ 32) then Ok (in_order en (le_digits 4 v))
  else Raise StructError.

(** [struct.unpack(endian + 'III', bs)] *)
Definition unpack_u32x3 (en : Endian) (bs : bytes) : result (N * N * N) :=
  if decide (length bs = 12%nat) then
    let! a := unpack_u32 en (take 4 bs) in
    let! b := unpack_u32 en (take 4 (drop 4 bs)) in
    let! c := unpack_u32 en (take 4 (drop 8 bs)) in
    Ok (a, b, c)
  else Raise StructError.

(** [struct.pack(endian + 'III', a, b, c)] *)
Definition pack_u32x3 (en : Endian) (a b c : N) : result bytes :=
  let! x := pack_u32 en a in
  let! y := pack_u32 en b in
  let! z := pack_u32 en c in
  Ok (x ++ y ++ z).

(** [data[i:j]] for [0 <= i]: never raises, clips at the end. *)
Definition slice (data : bytes) (i j : nat) : bytes :=
  take (j - i) (drop i data).

(** [struct.unpack_from('<I', data, pos)[0]] and its narrower and signed
    relatives; all raise [struct.error] when the buffer is too short. *)
Definition unpack_from_u32 (data : bytes) (pos : nat) : result N :=
  if decide (pos + 4 ≤ length data)%nat
  then Ok (le_value (slice data pos (pos + 4)))
  else Raise StructError.

Definition unpack_from_u16 (data : bytes) (pos : nat) : result N :=
  if decide (pos + 2 ≤ length data)%nat
  then Ok (le_value (slice data pos (pos + 2)))
  else Raise StructError.

Definition to_signed (bits : N) (v : N) : Z :=
  if decide (v < 2 ^ (bits - 1)) then Z.of_N v
  else (Z.of_N v - 2 ^ Z.of_N bits)%Z.

Definition unpack_from_i16 (data : bytes) (pos : nat) : result Z :=
  let! v := unpack_from_u16 data pos in Ok (to_signed 16 v).

Definition unpack_from_i32 (data : bytes) (pos : nat) : result Z :=
  let! v := unpack_from_u32 data pos in Ok (to_signed 32 v).

(** [data[pos]] on a bytes object. *)
Definition byte_at (data : bytes) (pos : nat) : result N :=
  match data !! pos with
  | Some b => Ok (Byte.to_N b)
  | None => Raise IndexError
  end.

(** ** Text *)

(** [bs.decode('ascii', errors='ignore')]: bytes above 127 are dropped. *)
Fixpoint decode_ascii_ignore (bs : bytes) : string :=
  match bs with
  | [] => EmptyString
  | b :: bs' =>
      if decide (Byte.to_N b < 128)
      then String (ascii_of_byte b) (decode_ascii_ignore bs')
      else decode_ascii_ignore bs'
  end.

(** [s.encode('ascii')] for the tags the code writes, all of them ASCII. *)
Definition encode_ascii (s : string) : bytes := String.list_byte_of_string s.

(** ** Files opened for reading *)

Record Stream := { buf : bytes; pos : nat }.

(** [stream.read(n)] *)
Definition read (n : nat) (s : Stream) : bytes * Stream :=
  let got := take n (drop (pos s) (buf s)) in
  (got, {| buf := buf s; pos := pos s + length got |}).

(** [stream.read()] *)
Definition read_all (s : Stream) : bytes * Stream :=
  let got := drop (pos s) (buf s) in
  (got, {| buf := buf s; pos := pos s + length got |}).

(** [stream.seek(n, 1)], for the offsets the code uses (never before 0). *)
Definition seek_cur (n : Z) (s : Stream) : Stream :=
  {| buf := buf s; pos := Z.to_nat (Z.of_nat (pos s) + n) |}.

(** [stream.seek(n)] *)
Definition seek_set (n : nat) (s : Stream) : Stream :=
  {| buf := buf s; pos := n |}.

(** [stream.tell()] *)
Definition tell (s : Stream) : nat := pos s.

(** [for x in xs: body], without [break], threading the state the body
    updates. *)
Fixpoint for_each {A S : Type} (xs : list A) (body : A → S → result S) (s : S)
  : result S :=
  match xs with
  | [] => Ok s
  | x :: xs' => let! s' := body x s in for_each xs' body s'
  end.

(** ** The file system the patcher reads replacements from

    A path names a regular file with its content, or something that exists
    and can be [stat]ed but not opened for reading (no permission, a
    directory). *)

Inductive File :=
  | Regular (content : bytes)
  | Unreadable (st_size : N).

Abbreviation Path := string.
Abbreviation FileSystem := (gmap string File).

(** [path.exists()] *)
Definition exists_ (fs : FileSystem) (p : Path) : bool :=
  bool_decide (is_Some (fs !! p)).

(** [path.stat().st_size] *)
Definition stat_size (fs : FileSystem) (p : Path) : result N :=
  match fs !! p with
  | None => Raise FileNotFoundError
  | Some (Regular c) => Ok (N.of_nat (length c))
  | Some (Unreadable n) => Ok n
  end.

(** [with open(path, 'rb') as f: f.read()] *)
Definition read_file (fs : FileSystem) (p : Path) : result bytes :=
  match fs !! p with
  | None => Raise FileNotFoundError
  | Some (Regular c) => Ok c
  | Some (Unreadable _) => Raise PermissionError
  end.

(** * SoundBankPatcher.py *)

Module AudioEntry.
Record t := {
  id : N;
  offset : N;
  size : N;
  data : option bytes;                 (* None until preloaded *)
  replacement_path : option Path
}.

Definition set_data (d : bytes) (e : t) : t :=
  {| id := id e; offset := offset e; size := size e;
     data := Some d; replacement_path := replacement_path e |}.

Definition set_replacement_path (p : Path) (e : t) : t :=
  {| id := id e; offset := offset e; size := size e;
     data := data e; replacement_path := Some p |}.

(** The [final_size] property.  A [Path] object is always truthy, so the
    test is on the attribute being set. *)
Definition final_size (fs : FileSystem) (e : t) : result N :=
  match replacement_path e with
  | Some p => stat_size fs p
  | None => Ok (size e)
  end.
End AudioEntry.

Module SoundbankSection.
Record t := { magic : string; data : bytes }.

Definition serialize (self : t) (en : Endian) : result bytes :=
  let header := encode_ascii (magic self) in
  let! length_ := pack_u32 en (N.of_nat (length (data self))) in
  Ok (header ++ length_ ++ data self).
End SoundbankSection.

(** The dict [get_statistics] returns, one field per key. *)
Module Statistics.
Record t := {
  total_audio_files : nat;
  replacements_queued : nat;
  original_data_size : N;
  new_data_size : N;
  size_change : Z
}.
End Statistics.

Module WwiseSoundbank.
Record t := {
  endian : Endian;
  sections : gmap string SoundbankSection.t;
  audio_entries : list AudioEntry.t;
  _data_offset : option nat;           (* unset until a DATA chunk is met *)
  _data_size : option N;
  _trailing_data : bytes
}.

Definition set_section (m : string) (d : bytes) (self : t) : t :=
  {| endian := endian self;
     sections := <[m := {| SoundbankSection.magic := m;
                           SoundbankSection.data := d |}]> (sections self);
     audio_entries := audio_entries self;
     _data_offset := _data_offset self; _data_size := _data_size self;
     _trailing_data := _trailing_data self |}.

Definition set_data_chunk (off : nat) (sz : N) (self : t) : t :=
  {| endian := endian self; sections := sections self;
     audio_entries := audio_entries self;
     _data_offset := Some off; _data_size := Some sz;
     _trailing_data := _trailing_data self |}.

Definition set_trailing (d : bytes) (self : t) : t :=
  {| endian := endian self; sections := sections self;
     audio_entries := audio_entries self;
     _data_offset := _data_offset self; _data_size := _data_size self;
     _trailing_data := d |}.

Definition set_audio_entries (es : list AudioEntry.t) (self : t) : t :=
  {| endian := endian self; sections := sections self;
     audio_entries := es;
     _data_offset := _data_offset self; _data_size := _data_size self;
     _trailing_data := _trailing_data self |}.

(** The [while True] loop of [_parse_sections].  Every round that goes on
    has read eight bytes, so [budget] rounds with [budget] beyond the
    buffer length always suffice ([_parse_sections_loop_budget]). *)
Fixpoint _parse_sections_loop (budget : nat) (self : t) (stream : Stream)
  : result (t * Stream) :=
  match budget with
  | O => Raise LoopBudget
  | S budget' =>
      let '(magic_bytes, stream) := read 4 stream in
      if decide (length magic_bytes < 4)%nat then Ok (self, stream)
      else
        let magic := decode_ascii_ignore magic_bytes in
        if decide (magic ∉ ["BKHD"; "DIDX"; "DATA"]) then
          Ok (self, seek_cur (-4) stream)
        else
          let '(size_bytes, stream) := read 4 stream in
          let! size := unpack_u32 (endian self) size_bytes in
          if decide (magic = "DATA") then
            let self := set_data_chunk (tell stream) size self in
            Ok (self, seek_cur (Z.of_N size) stream)
          else
            let '(data, stream) := read (N.to_nat size) stream in
            _parse_sections_loop budget' (set_section magic data self) stream
  end.

Definition _parse_sections (self : t) (stream : Stream) : result (t * Stream) :=
  let! (self, stream) :=
    _parse_sections_loop (S (length (buf stream))) self stream in
  let '(rest, stream) := read_all stream in
  Ok (set_trailing rest self, stream).

Definition _extract_audio_catalog (self : t) : result t :=
  match sections self !! "DIDX" with
  | None => Raise ValueError
  | Some sec =>
      let didx_data := SoundbankSection.data sec in
      let entry_count := (length didx_data / 12)%nat in
      for_each (seq 0 entry_count)
        (λ i self,
           let offset := (i * 12)%nat in
           let! (audio_id, file_offset, file_size) :=
             unpack_u32x3 (endian self) (slice didx_data offset (offset + 12)) in
           let entry := {| AudioEntry.id := audio_id;
                           AudioEntry.offset := file_offset;
                           AudioEntry.size := file_size;
                           AudioEntry.data := None;
                           AudioEntry.replacement_path := None |} in
           Ok (set_audio_entries (audio_entries self ++ [entry]) self))
        self
  end.

(** [for entry in self.audio_entries: ...] of [_preload_audio_data]; the
    entries are updated in place. *)
Fixpoint _preload_entries (data_offset : option nat) (es : list AudioEntry.t)
    (stream : Stream) : result (list AudioEntry.t * Stream) :=
  match es with
  | [] => Ok ([], stream)
  | entry :: es' =>
      match data_offset with
      | None => Raise AttributeError
      | Some off =>
          let stream := seek_set (off + N.to_nat (AudioEntry.offset entry)) stream in
          let '(d, stream) := read (N.to_nat (AudioEntry.size entry)) stream in
          let! (es'', stream) := _preload_entries data_offset es' stream in
          Ok (AudioEntry.set_data d entry :: es'', stream)
      end
  end.

Definition _preload_audio_data (self : t) (stream : Stream) : result (t * Stream) :=
  let! (es, stream) :=
    _preload_entries (_data_offset self) (audio_entries self) stream in
  Ok (set_audio_entries es self, stream).

(** [WwiseSoundbank(file_path, endian)], for a bank file whose content is
    [file]: [__init__] followed by [_load_soundbank]. *)
Definition load (file : bytes) (en : Endian) : result t :=
  let self := {| endian := en; sections := ∅; audio_entries := [];
                 _data_offset := None; _data_size := None;
                 _trailing_data := [] |} in
  let stream := {| buf := file; pos := 0 |} in
  let! (self, stream) := _parse_sections self stream in
  let! self := _extract_audio_catalog self in
  let! (self, stream) := _preload_audio_data self stream in
  Ok self.

(** [find_audio_entry]: the first entry with that ID, here with its place
    in the list, as the caller goes on to update it there. *)
Definition find_audio_entry_at (self : t) (audio_id : N)
  : option (nat * AudioEntry.t) :=
  list_find (λ entry, AudioEntry.id entry = audio_id) (audio_entries self).

Definition find_audio_entry (self : t) (audio_id : N) : option AudioEntry.t :=
  snd <$> find_audio_entry_at self audio_id.

(** An [AudioEntry] is a plain dataclass instance and so always truthy:
    [not entry] holds exactly for [None]. *)
Definition replace_audio (fs : FileSystem) (self : t) (audio_id : N)
    (replacement_file : Path) : result t :=
  match find_audio_entry_at self audio_id with
  | None => Raise KeyError
  | Some (i, entry) =>
      if exists_ fs replacement_file then
        Ok (set_audio_entries
              (<[i := AudioEntry.set_replacement_path replacement_file entry]>
                 (audio_entries self)) self)
      else Raise FileNotFoundError
  end.

(** [get_audio_catalog]: a dict built in index order, a later entry with
    the same ID overwriting the earlier one. *)
Definition get_audio_catalog (self : t) : gmap N N :=
  foldl (λ m entry, <[AudioEntry.id entry := AudioEntry.size entry]> m) ∅
    (audio_entries self).

Fixpoint _rebuild_loop (fs : FileSystem) (en : Endian) (es : list AudioEntry.t)
    (didx_data : bytes) (current_offset : N) : result bytes :=
  match es with
  | [] => Ok didx_data
  | entry :: es' =>
      let! fsz := AudioEntry.final_size fs entry in
      let! rec := pack_u32x3 en (AudioEntry.id entry) current_offset fsz in
      let! fsz' := AudioEntry.final_size fs entry in
      _rebuild_loop fs en es' (didx_data ++ rec) (current_offset + fsz')
  end.

Definition _rebuild_audio_index (fs : FileSystem) (self : t) : result bytes :=
  _rebuild_loop fs (endian self) (audio_entries self) [] 0.

Fixpoint _serialize_loop (fs : FileSystem) (es : list AudioEntry.t)
    (audio_stream : bytes) : result bytes :=
  match es with
  | [] => Ok audio_stream
  | entry :: es' =>
      let! chunk :=
        match AudioEntry.replacement_path entry with
        | Some p => read_file fs p
        | None =>
            match AudioEntry.data entry with
            | Some d => Ok d
            | None => Raise TypeError
            end
        end in
      _serialize_loop fs es' (audio_stream ++ chunk)
  end.

Definition _serialize_audio_data (fs : FileSystem) (self : t) : result bytes :=
  _serialize_loop fs (audio_entries self) [].

(** [save(output_path)].  The first component is what the output file
    holds when the call returns or raises: it is opened with ['wb'], each
    [f.write] appends, and the [with] block closes it on every exit.  The
    output path is taken to be writable and none of the replacement
    paths. *)
Definition save (fs : FileSystem) (self : t) : bytes * result unit :=
  let en := endian self in
  let f := [] in
  match
    match sections self !! "BKHD" with
    | Some sec => SoundbankSection.serialize sec en
    | None => Ok []
    end
  with
  | Raise e => (f, Raise e)
  | Ok bkhd =>
      let f := f ++ bkhd in
      match
        let! updated_didx := _rebuild_audio_index fs self in
        SoundbankSection.serialize
          {| SoundbankSection.magic := "DIDX";
             SoundbankSection.data := updated_didx |} en
      with
      | Raise e => (f, Raise e)
      | Ok didx =>
          let f := f ++ didx in
          match
            let! audio_data := _serialize_audio_data fs self in
            SoundbankSection.serialize
              {| SoundbankSection.magic := "DATA";
                 SoundbankSection.data := audio_data |} en
          with
          | Raise e => (f, Raise e)
          | Ok dat =>
              let f := f ++ dat in
              (f ++ _trailing_data self, Ok tt)
          end
      end
  end.

(** [export_audio(audio_id, output_path)].  The first component is what the
    output file holds when the call returns or raises, [None] when it was
    never opened.  [f.write(None)] raises [TypeError], the file being
    open and empty by then. *)
Definition export_audio (self : t) (audio_id : N)
  : option bytes * result unit :=
  match find_audio_entry self audio_id with
  | None => (None, Raise KeyError)
  | Some entry =>
      match AudioEntry.data entry with
      | Some d => (Some d, Ok tt)
      | None => (Some [], Raise TypeError)
      end
  end.

(** [sum(entry.final_size for entry in self.audio_entries)]: the sizes are
    asked for in index order, the first failure ending the sum. *)
Definition sum_final_sizes (fs : FileSystem) (es : list AudioEntry.t)
  : result N :=
  for_each es
    (λ entry total, let! fsz := AudioEntry.final_size fs entry in
                    Ok (total + fsz))
    0.

(** [get_statistics()] *)
Definition get_statistics (fs : FileSystem) (self : t) : result Statistics.t :=
  let replacements :=
    length (filter (λ entry, is_Some (AudioEntry.replacement_path entry))
              (audio_entries self)) in
  let original_size :=
    foldl (λ total entry, total + AudioEntry.size entry) 0
      (audio_entries self) in
  let! new_size := sum_final_sizes fs (audio_entries self) in
  Ok {| Statistics.total_audio_files := length (audio_entries self);
        Statistics.replacements_queued := replacements;
        Statistics.original_data_size := original_size;
        Statistics.new_data_size := new_size;
        Statistics.size_change := (Z.of_N new_size - Z.of_N original_size)%Z |}.

(** The loop of [export_all_audio(output_dir)] over the files of the
    directory, by name: each entry is written to [f"{entry.id}.wem"], a
    file of that name being overwritten. *)
Fixpoint _export_all_loop (es : list AudioEntry.t) (dir : gmap string bytes)
  : gmap string bytes * result unit :=
  match es with
  | [] => (dir, Ok tt)
  | entry :: es' =>
      let output_path := pretty (AudioEntry.id entry) +:+ ".wem" in
      match AudioEntry.data entry with
      | Some d => _export_all_loop es' (<[output_path := d]> dir)
      | None => (<[output_path := []]> dir, Raise TypeError)
      end
  end.

(** [export_all_audio(output_dir)], for a directory that [mkdir] leaves
    with the files [dir]. *)
Definition export_all_audio (self : t) (dir : gmap string bytes)
  : gmap string bytes * result unit :=
  _export_all_loop (audio_entries self) dir.
End WwiseSoundbank.

(** The items of [replacements] whose file is not there; the source keeps
    a message for each. *)
Definition missing_files (fs : FileSystem) (replacements : list (N * Path))
  : list (N * Path) :=
  filter (λ r, exists_ fs r.2 = false) replacements.

(** The loop that queues the replacements: a file that is not there is
    skipped, and whatever [replace_audio] raises is caught.  The state is
    the bank with [successful_replacements]. *)
Fixpoint _patch_loop (fs : FileSystem) (replacements : list (N * Path))
    (soundbank : WwiseSoundbank.t) (successful_replacements : nat)
  : WwiseSoundbank.t * nat :=
  match replacements with
  | [] => (soundbank, successful_replacements)
  | (audio_id, replacement_path) :: rest =>
      if exists_ fs replacement_path then
        match WwiseSoundbank.replace_audio fs soundbank audio_id
                replacement_path with
        | Ok soundbank' =>
            _patch_loop fs rest soundbank' (S successful_replacements)
        | Raise _ => _patch_loop fs rest soundbank successful_replacements
        end
      else _patch_loop fs rest soundbank successful_replacements
  end.

(** [patch_soundbank(bnk_file, config_file, output_file, wem_directory,
    big_endian=...)], from the point where [load_replacements] has returned
    the dict [replacements], given by its items in insertion order (IDs
    that are not negative).  [response] is what
    [input("Continue anyway? (y/N): ").lower()] evaluates to when it is
    asked for.  What is printed is left out.  The first component is what
    the output file holds afterwards, [None] when it was never opened; the
    output path is taken to be writable and none of the files read. *)
Definition patch_soundbank (fs : FileSystem) (bnk_file : Path)
    (replacements : list (N * Path)) (response : string) (big_endian : bool)
  : option bytes * result unit :=
  if decide (missing_files fs replacements ≠ [] ∧ response ≠ "y")
  then (None, Ok tt)
  else
    match
      let! file := read_file fs bnk_file in
      let! soundbank :=
        WwiseSoundbank.load file (if big_endian then Big else Little) in
      let '(soundbank, successful_replacements) :=
        _patch_loop fs replacements soundbank 0 in
      let! stats := WwiseSoundbank.get_statistics fs soundbank in
      Ok soundbank
    with
    | Raise e => (None, Raise e)
    | Ok soundbank =>
        let '(out, r) := WwiseSoundbank.save fs soundbank in (Some out, r)
    end.

(** * events_parser.py *)

(** [[f(i) for i in range(n)]] *)
Fixpoint collect {A : Type} (n : nat) (f : nat → result A) : result (list A) :=
  match n with
  | O => Ok []
  | S n' =>
      let! xs := collect n' f in
      let! x := f n' in
      Ok (xs ++ [x])
  end.

Module Event.
Record t := { id : N; actions : list N; audio_file_ids : list N }.

Definition set_audio_file_ids (l : list N) (e : t) : t :=
  {| id := id e; actions := actions e; audio_file_ids := l |}.
End Event.

Module Action.
Record t := { action_id : N; target_id : option N; action_type : option N }.
End Action.

Module Sound.
Record t := { sound_id : N; source_id : option N }.
End Sound.

Module PlaylistItem.               (* the dict {"id": ..., "weight": ...} *)
Record t := { id : N; weight : Z }.
End PlaylistItem.

Module Container.
(** A transition time is read with ['<i'] or with ['<f']; a float is kept
    as the 32 bits it was decoded from. *)
Inductive time_value := IntTime (v : Z) | FloatBits (bits : N).

Record flags_t := {
  _bIsUsingWeight : N;
  bResetPlayListAtEachPlay : N;
  bIsRestartBackward : N;
  bIsContinuous : N;
  bIsGlobal : N
}.

Record t := {
  id : N;
  children : list N;
  playlist : list PlaylistItem.t;
  loop_count : option Z;
  transition_time : option time_value;
  transition_mods : option (time_value * time_value);
  avoid_repeat_count : option N;
  mode : option N;
  flags : option flags_t
}.
End Container.

Module BankParser.
Record t := {
  events : list Event.t;
  actions : gmap N Action.t;
  sounds : gmap N Sound.t;
  containers : gmap N Container.t;
  audio_files : gset N;
  version : N;
  event_audio_map : gmap string (list N)
}.

(** [BankParser(filename)] *)
Definition init : t :=
  {| events := []; actions := ∅; sounds := ∅; containers := ∅;
     audio_files := ∅; version := 0; event_audio_map := ∅ |}.

Definition set_version (v : N) (self : t) : t :=
  {| events := events self; actions := actions self; sounds := sounds self;
     containers := containers self; audio_files := audio_files self;
     version := v; event_audio_map := event_audio_map self |}.

Definition add_event (e : Event.t) (self : t) : t :=
  {| events := events self ++ [e]; actions := actions self;
     sounds := sounds self; containers := containers self;
     audio_files := audio_files self; version := version self;
     event_audio_map := event_audio_map self |}.

Definition add_action (a : Action.t) (self : t) : t :=
  {| events := events self;
     actions := <[Action.action_id a := a]> (actions self);
     sounds := sounds self; containers := containers self;
     audio_files := audio_files self; version := version self;
     event_audio_map := event_audio_map self |}.

Definition add_sound (s : Sound.t) (self : t) : t :=
  {| events := events self; actions := actions self;
     sounds := <[Sound.sound_id s := s]> (sounds self);
     containers := containers self;
     audio_files := audio_files self; version := version self;
     event_audio_map := event_audio_map self |}.

Definition add_container (c : Container.t) (self : t) : t :=
  {| events := events self; actions := actions self; sounds := sounds self;
     containers := <[Container.id c := c]> (containers self);
     audio_files := audio_files self; version := version self;
     event_audio_map := event_audio_map self |}.

Definition add_audio_file (file_id : N) (self : t) : t :=
  {| events := events self; actions := actions self; sounds := sounds self;
     containers := containers self;
     audio_files := {[file_id]} ∪ audio_files self; version := version self;
     event_audio_map := event_audio_map self |}.

Definition set_events (es : list Event.t) (self : t) : t :=
  {| events := es; actions := actions self; sounds := sounds self;
     containers := containers self; audio_files := audio_files self;
     version := version self; event_audio_map := event_audio_map self |}.

Definition set_event_audio (k : string) (l : list N) (self : t) : t :=
  {| events := events self; actions := actions self; sounds := sounds self;
     containers := containers self; audio_files := audio_files self;
     version := version self;
     event_audio_map := <[k := l]> (event_audio_map self) |}.

(** [for _ in range(num_files)] of [_parse_didx], with its [break]. *)
Fixpoint _parse_didx_loop (n : nat) (self : t) (data : bytes)
    (pos end_pos : nat) : result t :=
  match n with
  | O => Ok self
  | S n' =>
      if decide (pos + 12 > end_pos)%nat then Ok self
      else
        let! file_id := unpack_from_u32 data pos in
        _parse_didx_loop n' (add_audio_file file_id self) data (pos + 12) end_pos
  end.

Definition _parse_didx (self : t) (data : bytes) (pos : nat) (size : N)
  : result (t * nat) :=
  let end_pos := (pos + N.to_nat size)%nat in
  let num_files := size / 12 in
  let! self := _parse_didx_loop (N.to_nat num_files) self data pos end_pos in
  Ok (self, end_pos).

(** Returns [(chunk_id, chunk_size, pos)], the tag being [None] at the end
    of the buffer. *)
Definition _read_chunk_header (data : bytes) (pos : nat)
  : result (option bytes * N * nat) :=
  if decide (pos + 8 > length data)%nat then Ok (None, 0, length data)
  else
    let chunk_id := slice data pos (pos + 4) in
    let! chunk_size := unpack_from_u32 data (pos + 4) in
    Ok (Some chunk_id, chunk_size, (pos + 8)%nat).

Definition _parse_bkhd (self : t) (data : bytes) (pos : nat)
  : result (t * nat) :=
  let pos := if decide (slice data pos (pos + 4) = encode_ascii "AKBK")
             then (pos + 12)%nat else pos in
  if decide (slice data pos (pos + 4) ≠ encode_ascii "BKHD")
  then Raise ValueError
  else
    let! chunk_size := unpack_from_u32 data (pos + 4) in
    let! v := unpack_from_u32 data (pos + 8) in
    Ok (set_version v self, (pos + 8 + N.to_nat chunk_size)%nat).

(** Returns [(obj_type, obj_size, position of the record payload)]. *)
Definition _read_object_header (self : t) (data : bytes) (pos : nat)
  : result (N * N * nat) :=
  if decide (version self ≤ 48) then
    let! obj_type := unpack_from_u32 data pos in
    let! obj_size := unpack_from_u32 data (pos + 4) in
    Ok (obj_type, obj_size, (pos + 8)%nat)
  else
    let! obj_type := byte_at data pos in
    let! obj_size := unpack_from_u32 data (pos + 1) in
    Ok (obj_type, obj_size, (pos + 5)%nat).

(** The [while True] loop of [_read_varint], walking the bytes from
    [data[pos]] on; it ends at the first byte without the high bit, or
    with [IndexError] at the end of the buffer. *)
Fixpoint _read_varint_loop (rest : bytes) (value : N) (bytes_read : nat)
  : result (N * nat) :=
  match rest with
  | [] => Raise IndexError
  | b :: rest' =>
      let byte := Byte.to_N b in
      let bytes_read := S bytes_read in
      let value := N.lor (N.shiftl value 7) (N.land byte 0x7F) in
      if decide (N.land byte 0x80 = 0) then Ok (value, bytes_read)
      else _read_varint_loop rest' value bytes_read
  end.

Definition _read_varint (data : bytes) (pos : nat) : result (N * nat) :=
  _read_varint_loop (drop pos data) 0 0%nat.

(** [size] is a parameter of the method; its body never reads it. *)
Definition _parse_event (self : t) (data : bytes) (pos : nat) (size : N)
  : result Event.t :=
  let! event_id := unpack_from_u32 data pos in
  let current_pos := (pos + 4)%nat in
  let! (action_count, current_pos) :=
    if decide (version self ≤ 122) then
      let! action_count := unpack_from_u32 data current_pos in
      Ok (action_count, (current_pos + 4)%nat)
    else
      let! (action_count, bytes_read) := _read_varint data current_pos in
      Ok (action_count, (current_pos + bytes_read)%nat) in
  let! actions :=
    collect (N.to_nat action_count)
      (λ i, unpack_from_u32 data (current_pos + i * 4)) in
  Ok {| Event.id := event_id; Event.actions := actions;
        Event.audio_file_ids := [] |}.

Definition _parse_action (self : t) (data : bytes) (pos : nat) (size : N)
  : result (option Action.t) :=
  if decide (pos + 4 > length data)%nat then Ok None
  else
    let! action_id := unpack_from_u32 data pos in
    let current_pos := (pos + 4)%nat in
    let! (action_type, current_pos) :=
      if decide (current_pos + 2 ≤ pos + N.to_nat size)%nat then
        let! ty := unpack_from_u16 data current_pos in
        Ok (Some ty, (current_pos + 2)%nat)
      else Ok (None, current_pos) in
    let! (target_id, current_pos) :=
      if decide (current_pos + 4 ≤ pos + N.to_nat size)%nat then
        let! tg := unpack_from_u32 data current_pos in
        Ok (Some tg, (current_pos + 4)%nat)
      else Ok (None, current_pos) in
    Ok (Some {| Action.action_id := action_id; Action.target_id := target_id;
                Action.action_type := action_type |}).

Definition _parse_sound (self : t) (data : bytes) (pos : nat) (size : N)
  : result (option Sound.t) :=
  if decide (pos + 4 > length data)%nat then Ok None
  else
    let! sound_id := unpack_from_u32 data pos in
    let current_pos := (pos + 4)%nat in
    if decide (current_pos + 8 > pos + N.to_nat size)%nat then
      Ok (Some {| Sound.sound_id := sound_id; Sound.source_id := None |})
    else
      let current_pos := (current_pos + 4)%nat in
      let current_pos := (current_pos + 1)%nat in
      if decide (current_pos + 4 > pos + N.to_nat size)%nat then
        Ok (Some {| Sound.sound_id := sound_id; Sound.source_id := None |})
      else
        let! source_id := unpack_from_u32 data current_pos in
        Ok (Some {| Sound.sound_id := sound_id;
                    Sound.source_id := Some source_id |}).

Definition _parse_node_base_params (data : bytes) (pos end_pos : nat) : nat :=
  pos.

Definition _parse_loop_counts (self : t) (data : bytes) (pos end_pos : nat)
  : result (nat * option Z) :=
  if decide (pos + 2 > end_pos)%nat then Ok (pos, None)
  else
    let! loop_count := unpack_from_i16 data pos in
    let pos := (pos + 2)%nat in
    if decide (version self ≤ 72) then Ok (pos, Some loop_count)
    else if decide (pos + 4 > end_pos)%nat then Ok (pos, Some loop_count)
    else Ok ((pos + 4)%nat, Some loop_count).

Definition _parse_transition_times (self : t) (data : bytes) (pos end_pos : nat)
  : result (nat * option Container.time_value
                * option (Container.time_value * Container.time_value)) :=
  if decide (version self ≤ 38) then
    if decide (pos + 12 > end_pos)%nat then Ok (pos, None, None)
    else
      let! transition_time := unpack_from_i32 data pos in
      let pos := (pos + 4)%nat in
      let! trans_mod_min := unpack_from_i32 data pos in
      let pos := (pos + 4)%nat in
      let! trans_mod_max := unpack_from_i32 data pos in
      let pos := (pos + 4)%nat in
      Ok (pos, Some (Container.IntTime transition_time),
          Some (Container.IntTime trans_mod_min,
                Container.IntTime trans_mod_max))
  else
    if decide (pos + 12 > end_pos)%nat then Ok (pos, None, None)
    else
      let! transition_time := unpack_from_u32 data pos in
      let pos := (pos + 4)%nat in
      let! trans_mod_min := unpack_from_u32 data pos in
      let pos := (pos + 4)%nat in
      let! trans_mod_max := unpack_from_u32 data pos in
      let pos := (pos + 4)%nat in
      Ok (pos, Some (Container.FloatBits transition_time),
          Some (Container.FloatBits trans_mod_min,
                Container.FloatBits trans_mod_max)).

Definition _parse_avoid_repeat_count (data : bytes) (pos end_pos : nat)
  : result (nat * option N) :=
  if decide (pos + 2 > end_pos)%nat then Ok (pos, None)
  else
    let! count := unpack_from_u16 data pos in
    Ok ((pos + 2)%nat, Some count).

(** Returns the position and the values under ["mode"] and ["flags"]. *)
Definition _parse_modes_and_flags (self : t) (data : bytes) (pos end_pos : nat)
  : result (nat * (option N * option Container.flags_t)) :=
  if decide (pos + 3 > end_pos)%nat then Ok (pos, (None, None))
  else
    let! transition_mode := byte_at data pos in
    let pos := (pos + 1)%nat in
    let! random_mode := byte_at data pos in
    let pos := (pos + 1)%nat in
    let! mode := byte_at data pos in
    let pos := (pos + 1)%nat in
    if decide (version self ≤ 89) then
      if decide (pos + 5 ≤ end_pos)%nat then
        let! f0 := byte_at data pos in
        let! f1 := byte_at data (pos + 1) in
        let! f2 := byte_at data (pos + 2) in
        let! f3 := byte_at data (pos + 3) in
        let! f4 := byte_at data (pos + 4) in
        Ok ((pos + 5)%nat,
            (Some mode,
             Some {| Container._bIsUsingWeight := f0;
                     Container.bResetPlayListAtEachPlay := f1;
                     Container.bIsRestartBackward := f2;
                     Container.bIsContinuous := f3;
                     Container.bIsGlobal := f4 |}))
      else Ok (pos, (Some mode, None))
    else
      if decide (pos + 1 > end_pos)%nat then Ok (pos, (Some mode, None))
      else
        let! bitvector := byte_at data pos in
        let pos := (pos + 1)%nat in
        let bit k := N.land (N.shiftr bitvector k) 1 in
        Ok (pos,
            (Some mode,
             Some {| Container._bIsUsingWeight := bit 0;
                     Container.bResetPlayListAtEachPlay := bit 1;
                     Container.bIsRestartBackward := bit 2;
                     Container.bIsContinuous := bit 3;
                     Container.bIsGlobal := bit 4 |})).

Fixpoint _parse_children_loop (n : nat) (data : bytes) (pos end_pos : nat)
    (children : list N) : result (list N) :=
  match n with
  | O => Ok children
  | S n' =>
      if decide (pos + 4 > end_pos)%nat then Ok children
      else
        let! child_id := unpack_from_u32 data pos in
        _parse_children_loop n' data (pos + 4) end_pos (children ++ [child_id])
  end.

Definition _parse_children (data : bytes) (pos end_pos : nat)
  : result (list N) :=
  if decide (pos + 4 > end_pos)%nat then Ok []
  else
    let! num_children := unpack_from_u32 data pos in
    _parse_children_loop (N.to_nat num_children) data (pos + 4) end_pos [].

Fixpoint _parse_playlist_loop (n : nat) (self : t) (data : bytes)
    (pos end_pos : nat) (playlist_items : list PlaylistItem.t)
  : result (list PlaylistItem.t) :=
  match n with
  | O => Ok playlist_items
  | S n' =>
      if decide (pos + 4 > end_pos)%nat then Ok playlist_items
      else
        let! item_id := unpack_from_u32 data pos in
        let pos := (pos + 4)%nat in
        if decide (version self ≤ 56) then
          if decide (pos + 1 > end_pos)%nat then Ok playlist_items
          else
            let! weight := byte_at data pos in
            _parse_playlist_loop n' self data (pos + 1) end_pos
              (playlist_items ++
                 [{| PlaylistItem.id := item_id;
                     PlaylistItem.weight := Z.of_N weight |}])
        else
          if decide (pos + 4 > end_pos)%nat then Ok playlist_items
          else
            let! weight := unpack_from_i32 data pos in
            _parse_playlist_loop n' self data (pos + 4) end_pos
              (playlist_items ++
                 [{| PlaylistItem.id := item_id;
                     PlaylistItem.weight := weight |}])
  end.

Definition _parse_playlist (self : t) (data : bytes) (pos end_pos : nat)
  : result (list PlaylistItem.t) :=
  if decide (version self ≤ 38) then
    if decide (pos + 4 > end_pos)%nat then Ok []
    else
      let! playlist_count := unpack_from_u32 data pos in
      _parse_playlist_loop (N.to_nat playlist_count) self data (pos + 4)
        end_pos []
  else
    if decide (pos + 2 > end_pos)%nat then Ok []
    else
      let! playlist_count := unpack_from_u16 data pos in
      _parse_playlist_loop (N.to_nat playlist_count) self data (pos + 2)
        end_pos [].

(** The [print] of the position reached is left out. *)
Definition _parse_container (self : t) (data : bytes) (pos : nat) (size : N)
  : result (option Container.t) :=
  if decide (pos + 4 > length data)%nat then Ok None
  else
    let end_pos := (pos + N.to_nat size)%nat in
    let! container_id := unpack_from_u32 data pos in
    let current_pos := (pos + 4)%nat in
    let current_pos := _parse_node_base_params data current_pos end_pos in
    let! (current_pos, loop_count) :=
      _parse_loop_counts self data current_pos end_pos in
    let! (current_pos, transition_time, transition_mods) :=
      _parse_transition_times self data current_pos end_pos in
    let! (current_pos, avoid_repeat_count) :=
      _parse_avoid_repeat_count data current_pos end_pos in
    let! (current_pos, mode_flags) :=
      _parse_modes_and_flags self data current_pos end_pos in
    let current_pos :=
      if decide (84 < size) then (current_pos + N.to_nat (size - 84))%nat
      else current_pos in
    let! children := _parse_children data current_pos end_pos in
    let current_pos := (current_pos + (8 + 4 * length children))%nat in
    let! playlist := _parse_playlist self data current_pos end_pos in
    Ok (Some {| Container.id := container_id;
                Container.children := children;
                Container.playlist := playlist;
                Container.loop_count := loop_count;
                Container.transition_time := transition_time;
                Container.transition_mods := transition_mods;
                Container.avoid_repeat_count := avoid_repeat_count;
                Container.mode := mode_flags.1;
                Container.flags := mode_flags.2 |}).

(** One object record of [_parse_hirc]: the dispatch on its type. *)
Definition _parse_object (self : t) (data : bytes) (obj_type : N)
    (current_obj_data_pos : nat) (obj_data_size : N) : result t :=
  if decide (obj_type = 0x04) then
    let! event := _parse_event self data current_obj_data_pos obj_data_size in
    Ok (add_event event self)
  else if decide (obj_type = 0x03) then
    let! action := _parse_action self data current_obj_data_pos obj_data_size in
    Ok (from_option (λ a, add_action a self) self action)
  else if decide (obj_type = 0x02) then
    let! sound := _parse_sound self data current_obj_data_pos obj_data_size in
    Ok (from_option (λ s, add_sound s self) self sound)
  else if decide (obj_type = 0x05) then
    let! container :=
      _parse_container self data current_obj_data_pos obj_data_size in
    Ok (from_option (λ c, add_container c self) self container)
  else Ok self.

(** [for _ in range(num_objects)] of [_parse_hirc], with its [break]. *)
Fixpoint _parse_hirc_loop (n : nat) (self : t) (data : bytes)
    (pos end_pos : nat) : result t :=
  match n with
  | O => Ok self
  | S n' =>
      let! (obj_type, obj_data_size, current_obj_data_pos) :=
        _read_object_header self data pos in
      let! self :=
        _parse_object self data obj_type current_obj_data_pos obj_data_size in
      let pos := (current_obj_data_pos + N.to_nat obj_data_size)%nat in
      if decide (pos > end_pos)%nat then Ok self
      else _parse_hirc_loop n' self data pos end_pos
  end.

Definition _parse_hirc (self : t) (data : bytes) (pos : nat) (size : N)
  : result (t * nat) :=
  let end_pos := (pos + N.to_nat size)%nat in
  let! num_objects := unpack_from_u32 data pos in
  let pos := (pos + 4)%nat in
  let! self := _parse_hirc_loop (N.to_nat num_objects) self data pos end_pos in
  Ok (self, end_pos).

(** The [while pos < len(data)] loop of [parse].  Every round moves [pos]
    forward by eight bytes at least, or to the end of the buffer. *)
Fixpoint parse_loop (budget : nat) (self : t) (data : bytes) (pos : nat)
  : result t :=
  if decide (pos < length data)%nat then
    match budget with
    | O => Raise LoopBudget
    | S budget' =>
        let! (chunk_id, chunk_size, pos) := _read_chunk_header data pos in
        if decide (chunk_id = Some (encode_ascii "HIRC")) then
          let! (self, pos) := _parse_hirc self data pos chunk_size in
          parse_loop budget' self data pos
        else if decide (chunk_id = Some (encode_ascii "DIDX")) then
          let! (self, pos) := _parse_didx self data pos chunk_size in
          parse_loop budget' self data pos
        else
          parse_loop budget' self data (pos + N.to_nat chunk_size)
    end
  else Ok self.

(** [parse()], for a bank file whose content is [data]. *)
Definition parse (self : t) (data : bytes) : result t :=
  let! (self, pos) := _parse_bkhd self data 0 in
  parse_loop (length data) self data pos.

(** [source_id in self.audio_files] is false for [None]. *)
Definition _link_sound_to_audio (self : t) (sound_id : N) (audio_set : gset N)
  : gset N :=
  match sounds self !! sound_id with
  | Some s =>
      match Sound.source_id s with
      | Some source_id =>
          if decide (source_id ∈ audio_files self)
          then audio_set ∪ {[source_id]} else audio_set
      | None => audio_set
      end
  | None => audio_set
  end.

(** The IDs a container is expanded into: its playlist, or its children
    when the playlist is empty. *)
Definition playlist_children (c : Container.t) : list N :=
  let playlist_children := PlaylistItem.id <$> Container.playlist c in
  if decide (playlist_children = []) then Container.children c
  else playlist_children.

(** [_link_recursive] calls itself with no record of the containers it is
    already in.  [depth] is the number of nested calls the interpreter
    still allows; beyond it Python raises [RecursionError]. *)
Fixpoint _link_recursive (depth : nat) (self : t) (obj_id : N)
    (audio_set : gset N) : result (gset N) :=
  match depth with
  | O => Raise RecursionError
  | S depth' =>
      if decide (is_Some (sounds self !! obj_id)) then
        Ok (_link_sound_to_audio self obj_id audio_set)
      else
        match containers self !! obj_id with
        | Some c =>
            for_each (playlist_children c)
              (λ child_id audio_set,
                 _link_recursive depth' self child_id audio_set)
              audio_set
        | None => Ok audio_set
        end
  end.

Definition _link_container_children (depth : nat) (self : t)
    (container_id : N) (linked_audio_ids : gset N) : result (gset N) :=
  match containers self !! container_id with
  | None => Raise KeyError
  | Some c =>
      for_each (playlist_children c)
        (λ child_id audio_set, _link_recursive depth self child_id audio_set)
        linked_audio_ids
  end.

Definition _process_event_reference (depth : nat) (self : t) (target_id : N)
    (linked_audio_ids : gset N) : result (gset N) :=
  match actions self !! target_id with
  | Some action =>
      match Action.target_id action with
      | Some target =>
          if decide (Action.action_type action = Some 1027) then
            if decide (is_Some (containers self !! target)) then
              _link_container_children depth self target linked_audio_ids
            else if decide (is_Some (sounds self !! target)) then
              Ok (_link_sound_to_audio self target linked_audio_ids)
            else Ok linked_audio_ids
          else Ok linked_audio_ids
      | None => Ok linked_audio_ids
      end
  | None =>
      if decide (is_Some (containers self !! target_id)) then
        _link_container_children depth self target_id linked_audio_ids
      else
        Ok (_link_sound_to_audio self target_id linked_audio_ids)
  end.

(** [str(event.id)] *)
Definition str (n : N) : string := pretty n.

(** One round of the loop of [link_audio_to_events], for the event at
    place [i].  [list(linked_audio_ids)] lists the set in the order of
    CPython's hash table, which follows from the IDs and from the order
    they were added in.  [elements] lists the same IDs, each once, in an
    order of its own: the theorems on [link_audio_to_events] speak of the
    members of [audio_file_ids], not of their order.  The event and the map
    are assigned to at the end of the round, so that a round that raises
    leaves the object as it found it. *)
Definition link_event (depth : nat) (i : nat) (self : t) : result t :=
  match events self !! i with
  | None => Ok self
  | Some event =>
      let! linked_audio_ids :=
        for_each (Event.actions event)
          (λ target_id s, _process_event_reference depth self target_id s)
          ∅ in
      let ids := elements linked_audio_ids in
      let self :=
        set_events (<[i := Event.set_audio_file_ids ids event]> (events self))
          self in
      Ok (set_event_audio (str (Event.id event)) ids self)
  end.

(** [link_audio_to_events()], as a call that returns the object or raises.
    What the object holds when the call has raised is not in this value;
    [link_audio_to_events_in_place] has it. *)
Definition link_audio_to_events (depth : nat) (self : t) : result t :=
  for_each (seq 0 (length (events self))) (link_event depth) self.

(** The rounds of the loop on the object itself: the state it is in when
    the loop ends, and how it ends.  An exception stops the loop in the
    middle: the events of the rounds before keep what was assigned to them
    and their entries of the map, the event of the round that raised and
    the events behind it are untouched. *)
Fixpoint link_rounds (depth : nat) (rounds : list nat) (self : t)
  : t * result unit :=
  match rounds with
  | [] => (self, Ok ())
  | i :: rounds' =>
      match link_event depth i self with
      | Ok self' => link_rounds depth rounds' self'
      | Raise e => (self, Raise e)
      end
  end.

(** [link_audio_to_events()], with the object as the call leaves it. *)
Definition link_audio_to_events_in_place (depth : nat) (self : t)
  : t * result unit :=
  link_rounds depth (seq 0 (length (events self))) self.
End BankParser.

(** * Notions the properties are stated with *)

(** The index entry held by a 12-byte record: three u32 in a row. *)
Definition decode_entry (en : Endian) (rec : bytes) : AudioEntry.t :=
  {| AudioEntry.id := le_value (in_order en (take 4 rec));
     AudioEntry.offset := le_value (in_order en (take 4 (drop 4 rec)));
     AudioEntry.size := le_value (in_order en (take 4 (drop 8 rec)));
     AudioEntry.data := None;
     AudioEntry.replacement_path := None |}.

(** The [i]-th 12-byte record of a DIDX payload. *)
Definition didx_entry (en : Endian) (didx_data : bytes) (i : nat) : AudioEntry.t :=
  decode_entry en (slice didx_data (i * 12) (i * 12 + 12)).

(** All whole records of a DIDX payload, in order. *)
Definition didx_entries (en : Endian) (didx_data : bytes) : list AudioEntry.t :=
  didx_entry en didx_data <$> seq 0 (length didx_data / 12).

(** [audio_files.add(file_id)] for each of [ids], in order. *)
Definition add_audio_files (ids : list N) (self : BankParser.t) : BankParser.t :=
  foldl (λ s file_id, BankParser.add_audio_file file_id s) self ids.

(** ** Sample inputs *)

Definition B (l : list N) : bytes := byte_of_N <$> l.
Definition u32 (n : N) : bytes := le_digits 4 n.
Definition u16 (n : N) : bytes := le_digits 2 n.

(** A chunk as it lies in a bank: tag, size, payload. *)
Definition chunk_with (en : Endian) (tag : string) (payload : bytes) : bytes :=
  encode_ascii tag ++ in_order en (le_digits 4 (N.of_nat (length payload)))
    ++ payload.

Definition chunk (tag : string) (payload : bytes) : bytes :=
  chunk_with Little tag payload.

(** A run of chunks, each a tag with its payload. *)
Definition chunks_with (en : Endian) (cs : list (string * bytes)) : bytes :=
  concat ((λ c, chunk_with en c.1 c.2) <$> cs).

(** What the section dict holds after the chunks [cs] were stored in turn. *)
Definition store_sections (cs : list (string * bytes)) (self : WwiseSoundbank.t)
  : WwiseSoundbank.t :=
  foldl (λ s c, WwiseSoundbank.set_section c.1 c.2 s) self cs.

(** A chunk the patcher stores and scans past: a BKHD or DIDX tag, with a
    payload whose length fits the size field. *)
Definition stored_chunk (c : string * bytes) : Prop :=
  c.1 ∈ ["BKHD"; "DIDX"] ∧ N.of_nat (length c.2) < 2 ^ 32.

(** The freshly constructed patcher object, before [_load_soundbank]. *)
Definition new_soundbank (en : Endian) : WwiseSoundbank.t :=
  {| WwiseSoundbank.endian := en; WwiseSoundbank.sections := ∅;
     WwiseSoundbank.audio_entries := [];
     WwiseSoundbank._data_offset := None; WwiseSoundbank._data_size := None;
     WwiseSoundbank._trailing_data := [] |}.

(** A file just opened. *)
Definition open_ (file : bytes) : Stream := {| buf := file; pos := 0 |}.



(** A Sound record payload of 13 bytes: the ID, four bytes, one byte, the
    source ID.  Nine bytes follow the ID. *)
Definition sound_record_13 : bytes :=
  u32 300 ++ u32 0 ++ B [0] ++ u32 0xDEAD.

(** The bank of the minimal round trip: version 140, one entry of ID 1 with
    the four bytes AA BB CC DD, nothing after the DATA chunk. *)
Definition bank_minimal : bytes :=
  chunk "BKHD" (u32 140) ++
  chunk "DIDX" (u32 1 ++ u32 0 ++ u32 4) ++
  chunk "DATA" (B [0xAA; 0xBB; 0xCC; 0xDD]).

(** The IDs of the audio index, in order. *)
Definition index_ids (self : WwiseSoundbank.t) : list N :=
  AudioEntry.id <$> WwiseSoundbank.audio_entries self.

(** What loading [bank_minimal] gives. *)
Definition bank_minimal_loaded : WwiseSoundbank.t :=
  {| WwiseSoundbank.endian := Little;
     WwiseSoundbank.sections :=
       <["DIDX" := {| SoundbankSection.magic := "DIDX";
                      SoundbankSection.data := u32 1 ++ u32 0 ++ u32 4 |}]>
         (<["BKHD" := {| SoundbankSection.magic := "BKHD";
                         SoundbankSection.data := u32 140 |}]> ∅);
     WwiseSoundbank.audio_entries :=
       [{| AudioEntry.id := 1; AudioEntry.offset := 0; AudioEntry.size := 4;
           AudioEntry.data := Some (B [0xAA; 0xBB; 0xCC; 0xDD]);
           AudioEntry.replacement_path := None |}];
     WwiseSoundbank._data_offset := Some 40%nat;
     WwiseSoundbank._data_size := Some 4;
     WwiseSoundbank._trailing_data := [] |}.

(** Two replacement files on disk. *)
Definition fs_two_files : FileSystem :=
  <["a.wem" := Regular (B [0x11; 0x22; 0x33; 0x44; 0x55])]>
    (<["b.wem" := Regular (B [0x66])]> ∅).

(** A bank whose hierarchy chunk comes before its data chunk. *)
Definition bank_hirc_before_data : bytes :=
  chunk "BKHD" (u32 140) ++ chunk "DIDX" [] ++
  chunk "HIRC" (u32 0) ++ chunk "DATA" (B [1; 2]).

(** The tags the specification lists as recognized by the scan. *)
Definition spec_recognized_tags : list string := ["BKHD"; "DIDX"; "DATA"; "HIRC"].

(** An object record of a bank of version above 48: type byte, size, payload. *)
Definition object_record (ty : N) (declared_size : N) (payload : bytes) : bytes :=
  B [ty] ++ u32 declared_size ++ payload.

(** A version-100 bank whose HIRC chunk holds one Event record, of declared
    size 8: the event ID 7 and an action count of 2, with no room for the
    two action IDs.  The file ends with the record. *)
Definition bank_short_event : bytes :=
  chunk "BKHD" (u32 100) ++
  chunk "HIRC" (u32 1 ++ object_record 0x04 8 (u32 7 ++ u32 2)).

(** The same Event record followed by an Action record (ID 200, type 1027,
    target 300). *)
Definition bank_short_event_then_action : bytes :=
  chunk "BKHD" (u32 100) ++
  chunk "HIRC" (u32 2 ++ object_record 0x04 8 (u32 7 ++ u32 2)
                      ++ object_record 0x03 10 (u32 200 ++ u16 1027 ++ u32 300)).

(** [obj_id] is a container that [_link_recursive] expands: it is not among
    the sounds, which are tested first. *)
Definition expands (self : BankParser.t) (obj_id : N) : Prop :=
  BankParser.sounds self !! obj_id = None ∧
  is_Some (BankParser.containers self !! obj_id).

(** The containers of a hierarchy do not refer to each other in a cycle:
    some rank goes down along every edge from an expanded container to an
    expanded container. *)
Definition acyclic (self : BankParser.t) : Prop :=
  ∃ rank : N → nat,
    ∀ cid c child,
      BankParser.containers self !! cid = Some c →
      child ∈ BankParser.playlist_children c →
      expands self child →
      (rank child < rank cid)%nat.

(** A recursion depth that is enough for a hierarchy ranked by [rank]. *)
Definition enough_depth (self : BankParser.t) (rank : N → nat) : nat :=
  S (S (max_list (rank <$> elements (dom (BankParser.containers self))))).

(** The payload of a version-140 Container record with no playlist: the ID,
    24 bytes of loop, timing, repeat, mode and flag fields, the children. *)
Definition container_payload (cid : N) (children : list N) : bytes :=
  u32 cid ++ replicate 24 Byte.x00 ++
  u32 (N.of_nat (length children)) ++ concat (u32 <$> children).

Definition container_record (cid : N) (children : list N) : bytes :=
  let payload := container_payload cid children in
  object_record 0x05 (N.of_nat (length payload)) payload.

(** A version-140 bank with event 1 referring to container 10, container 10
    listing container 20 as its child and container 20 listing 10. *)
Definition bank_cyclic : bytes :=
  chunk "BKHD" (u32 140) ++
  chunk "HIRC" (u32 3 ++ object_record 0x04 9 (u32 1 ++ B [1] ++ u32 10)
                      ++ container_record 10 [20]
                      ++ container_record 20 [10]).

(** The same with container 20 listing sound 30 instead, whose source 77 is
    in the audio index. *)
Definition bank_acyclic : bytes :=
  chunk "BKHD" (u32 140) ++
  chunk "DIDX" (u32 77 ++ u32 0 ++ u32 0) ++
  chunk "HIRC" (u32 4 ++ object_record 0x04 9 (u32 1 ++ B [1] ++ u32 10)
                      ++ container_record 10 [20]
                      ++ container_record 20 [30]
                      ++ object_record 0x02 13 (u32 30 ++ u32 0 ++ B [0] ++ u32 77)).

(** The Container a [container_record] parses to. *)
Definition parsed_container (cid : N) (children : list N) : Container.t :=
  {| Container.id := cid;
     Container.children := children;
     Container.playlist := [];
     Container.loop_count := Some 0%Z;
     Container.transition_time := Some (Container.FloatBits 0);
     Container.transition_mods :=
       Some (Container.FloatBits 0, Container.FloatBits 0);
     Container.avoid_repeat_count := Some 0;
     Container.mode := Some 0;
     Container.flags :=
       Some {| Container._bIsUsingWeight := 0;
               Container.bResetPlayListAtEachPlay := 0;
               Container.bIsRestartBackward := 0;
               Container.bIsContinuous := 0;
               Container.bIsGlobal := 0 |} |}.

(** What parsing [bank_cyclic] gives. *)
Definition hier_cyclic : BankParser.t :=
  {| BankParser.events :=
       [{| Event.id := 1; Event.actions := [10]; Event.audio_file_ids := [] |}];
     BankParser.actions := ∅;
     BankParser.sounds := ∅;
     BankParser.containers :=
       <[20 := parsed_container 20 [10]]>
         (<[10 := parsed_container 10 [20]]> ∅);
     BankParser.audio_files := ∅;
     BankParser.version := 140;
     BankParser.event_audio_map := ∅ |}.

(** What parsing [bank_acyclic] gives. *)
Definition hier_acyclic : BankParser.t :=
  {| BankParser.events :=
       [{| Event.id := 1; Event.actions := [10]; Event.audio_file_ids := [] |}];
     BankParser.actions := ∅;
     BankParser.sounds :=
       {[ 30 := {| Sound.sound_id := 30; Sound.source_id := Some 77 |} ]};
     BankParser.containers :=
       <[20 := parsed_container 20 [30]]>
         (<[10 := parsed_container 10 [20]]> ∅);
     BankParser.audio_files := {[ 77 ]};
     BankParser.version := 140;
     BankParser.event_audio_map := ∅ |}.

(** A rank for [hier_acyclic]: container 10 above container 20. *)
Definition rank_acyclic (obj_id : N) : nat :=
  if decide (obj_id = 10) then 1%nat else 0%nat.

(** An event as resolution leaves it: the ID and the actions kept, and the
    audio IDs of [ids] listed, each once, in some order. *)
Definition lists_ids (ev ev' : Event.t) (ids : gset N) : Prop :=
  Event.id ev' = Event.id ev ∧
  Event.actions ev' = Event.actions ev ∧
  NoDup (Event.audio_file_ids ev') ∧
  ∀ audio_id, audio_id ∈ Event.audio_file_ids ev' ↔ audio_id ∈ ids.

(** What the rounds of [link_audio_to_events] for the places from [start]
    up to [stop] leave of a hierarchy [s]: the graph untouched, the events
    at those places with a listing of a set of indexed audio IDs and an
    entry of the public map under their ID, the other events as they
    were. *)
Definition assigned (s s' : BankParser.t) (start stop : nat) : Prop :=
  BankParser.containers s' = BankParser.containers s ∧
  BankParser.sounds s' = BankParser.sounds s ∧
  BankParser.actions s' = BankParser.actions s ∧
  BankParser.audio_files s' = BankParser.audio_files s ∧
  length (BankParser.events s') = length (BankParser.events s) ∧
  (∀ j, (j < start ∨ stop ≤ j)%nat →
        BankParser.events s' !! j = BankParser.events s !! j) ∧
  (∀ j ev, (start ≤ j < stop)%nat → BankParser.events s !! j = Some ev →
     ∃ (ids : gset N) ev',
       BankParser.events s' !! j = Some ev' ∧
       lists_ids ev ev' ids ∧
       ids ⊆ BankParser.audio_files s ∧
       is_Some (BankParser.event_audio_map s' !! BankParser.str (Event.id ev))) ∧
  (∀ k, is_Some (BankParser.event_audio_map s !! k) →
        is_Some (BankParser.event_audio_map s' !! k)).

(** The same for all the events from [start] on. *)
Definition linked (s s' : BankParser.t) (start : nat) : Prop :=
  assigned s s' start (length (BankParser.events s)).

(** The first thing [save] writes: the BKHD section re-framed, or nothing
    when the bank has none. *)
Definition header_chunk (self : WwiseSoundbank.t) : result bytes :=
  match WwiseSoundbank.sections self !! "BKHD" with
  | Some sec => SoundbankSection.serialize sec (WwiseSoundbank.endian self)
  | None => Ok []
  end.

(** The second: the rebuilt index, framed as a DIDX chunk. *)
Definition didx_chunk (fs : FileSystem) (self : WwiseSoundbank.t) : result bytes :=
  let! updated_didx := WwiseSoundbank._rebuild_audio_index fs self in
  SoundbankSection.serialize
    {| SoundbankSection.magic := "DIDX";
       SoundbankSection.data := updated_didx |} (WwiseSoundbank.endian self).

(** [bank_minimal_loaded] with the replacement ["a.wem"] queued for ID 1. *)
Definition bank_minimal_queued : WwiseSoundbank.t :=
  WwiseSoundbank.set_audio_entries
    [{| AudioEntry.id := 1; AudioEntry.offset := 0; AudioEntry.size := 4;
        AudioEntry.data := Some (B [0xAA; 0xBB; 0xCC; 0xDD]);
        AudioEntry.replacement_path := Some "a.wem" |}]
    bank_minimal_loaded.

(** ** What [save] writes *)

Definition sum_N (l : list N) : N := foldr N.add 0 l.

(** The bytes [_serialize_audio_data] takes for one entry. *)
Definition entry_payload (fs : FileSystem) (entry : AudioEntry.t) : result bytes :=
  match AudioEntry.replacement_path entry with
  | Some p => read_file fs p
  | None =>
      match AudioEntry.data entry with
      | Some d => Ok d
      | None => Raise TypeError
      end
  end.

(** The index written for entries of the given IDs and sizes, the first at
    offset [off]: each offset is [off] plus the sizes before it. *)
Fixpoint written_index (recs : list (N * N)) (off : N) : list AudioEntry.t :=
  match recs with
  | [] => []
  | (i, s) :: recs' =>
      {| AudioEntry.id := i; AudioEntry.offset := off; AudioEntry.size := s;
         AudioEntry.data := None; AudioEntry.replacement_path := None |}
        :: written_index recs' (off + s)
  end.

(** Its bytes: [id, offset, size] as three u32 per entry. *)
Definition index_record (en : Endian) (e : AudioEntry.t) : bytes :=
  in_order en (le_digits 4 (AudioEntry.id e)) ++
  in_order en (le_digits 4 (AudioEntry.offset e)) ++
  in_order en (le_digits 4 (AudioEntry.size e)).

Definition index_body (en : Endian) (es : list AudioEntry.t) : bytes :=
  concat (index_record en <$> es).

(** Every field of the entry fits a u32. *)
Definition packable (e : AudioEntry.t) : Prop :=
  AudioEntry.id e < 2 ^ 32 ∧ AudioEntry.offset e < 2 ^ 32 ∧
  AudioEntry.size e < 2 ^ 32.

(** An index entry after [_preload_audio_data], for a DATA payload that
    starts at [data_offset] in [file]. *)
Definition preloaded (file : bytes) (data_offset : nat) (e : AudioEntry.t)
  : AudioEntry.t :=
  AudioEntry.set_data
    (take (N.to_nat (AudioEntry.size e))
       (drop (data_offset + N.to_nat (AudioEntry.offset e)) file)) e.

(** The sections of a bank are filed under their own tag and fit a size
    field. *)
Definition sections_framed (self : WwiseSoundbank.t) : Prop :=
  ∀ k sec, WwiseSoundbank.sections self !! k = Some sec →
    SoundbankSection.magic sec = k ∧
    N.of_nat (length (SoundbankSection.data sec)) < 2 ^ 32.

(** An entry as loading leaves it: IDs and sizes that came from a u32, the
    payload read, no replacement queued. *)
Definition entry_loaded (e : AudioEntry.t) : Prop :=
  AudioEntry.id e < 2 ^ 32 ∧ AudioEntry.size e < 2 ^ 32 ∧
  is_Some (AudioEntry.data e) ∧ AudioEntry.replacement_path e = None.

(** ** Banks a caller can hold *)

(** A patcher object is made by loading a file; replacements are then
    queued on it, each against the files present at that moment. *)
Inductive reachable : WwiseSoundbank.t → Prop :=
  | reachable_load file en self :
      WwiseSoundbank.load file en = Ok self → reachable self
  | reachable_replace fs self audio_id p self' :
      reachable self →
      WwiseSoundbank.replace_audio fs self audio_id p = Ok self' →
      reachable self'.

(** Every entry without a replacement holds a payload of its declared size:
    the file had all the bytes its index entry spans. *)
Definition payloads_in_bounds (self : WwiseSoundbank.t) : Prop :=
  Forall (λ e, AudioEntry.replacement_path e = None →
               ∃ d, AudioEntry.data e = Some d ∧
                    N.of_nat (length d) = AudioEntry.size e)
    (WwiseSoundbank.audio_entries self).

(** The payload of the DATA chunk a bank was loaded with, as it lies in
    [file]; none when the file had no DATA chunk. *)
Definition data_blob (file : bytes) (self : WwiseSoundbank.t) : option bytes :=
  match WwiseSoundbank._data_offset self, WwiseSoundbank._data_size self with
  | Some o, Some n => Some (take (N.to_nat n) (drop o file))
  | _, _ => None
  end.

(** The sizes of the index, in order. *)
Definition index_sizes (self : WwiseSoundbank.t) : list N :=
  AudioEntry.size <$> WwiseSoundbank.audio_entries self.

(** A bank whose second index entry claims 100 bytes of a DATA chunk that
    holds five in all. *)
Definition bank_short_payload : bytes :=
  chunk "BKHD" (u32 140) ++
  chunk "DIDX" (u32 1 ++ u32 0 ++ u32 2 ++ u32 2 ++ u32 2 ++ u32 100) ++
  chunk "DATA" (B [0xA0; 0xA1; 0xB0; 0xB1; 0xB2]).

(** What saving [bank_minimal_queued] writes when ["a.wem"] holds
    11 22 33 44 55. *)
Definition bank_minimal_patched : bytes :=
  chunk "BKHD" (u32 140) ++
  chunk "DIDX" (u32 1 ++ u32 0 ++ u32 5) ++
  chunk "DATA" (B [0x11; 0x22; 0x33; 0x44; 0x55]).

(** The payloads held by the index entries, in order. *)
Definition index_payloads (self : WwiseSoundbank.t) : list bytes :=
  (λ e, default [] (AudioEntry.data e)) <$> WwiseSoundbank.audio_entries self.

(** The index of a bank tiles its DATA payload: the entries lie one behind
    the other from offset 0 on, and together they span the declared size of
    the chunk. *)
Definition tiled (self : WwiseSoundbank.t) : Prop :=
  (∀ i e, WwiseSoundbank.audio_entries self !! i = Some e →
     AudioEntry.offset e = sum_N (take i (index_sizes self))) ∧
  is_Some (WwiseSoundbank._data_offset self) ∧
  WwiseSoundbank._data_size self = Some (sum_N (index_sizes self)).

(** A bank with two bytes of padding between its two payloads. *)
Definition bank_padded : bytes :=
  chunk "BKHD" (u32 140) ++
  chunk "DIDX" (u32 1 ++ u32 0 ++ u32 2 ++ u32 2 ++ u32 4 ++ u32 2) ++
  chunk "DATA" (B [0xA0; 0xA1; 0; 0; 0xB0; 0xB1]) ++
  B [0x54; 0x41; 0x49; 0x4C].

(** ** Replacement plans *)

(** Queuing the replacements of a plan, in its order. *)
Fixpoint queue_all (fs : FileSystem) (R : list (N * Path))
    (self : WwiseSoundbank.t) : result WwiseSoundbank.t :=
  match R with
  | [] => Ok self
  | (audio_id, p) :: R' =>
      let! self := WwiseSoundbank.replace_audio fs self audio_id p in
      queue_all fs R' self
  end.

(** The path a plan ends up with for an ID: the last one it lists. *)
Fixpoint last_queued (R : list (N * Path)) (audio_id : N) : option Path :=
  match R with
  | [] => None
  | (i, p) :: R' =>
      match last_queued R' audio_id with
      | Some q => Some q
      | None => if decide (i = audio_id) then Some p else None
      end
  end.

(** The place of the first index entry with an ID. *)
Definition first_index (self : WwiseSoundbank.t) (audio_id : N) : option nat :=
  fst <$> WwiseSoundbank.find_audio_entry_at self audio_id.

(** The bytes [save] would write for each entry, in order. *)
Definition final_payloads (fs : FileSystem) (self : WwiseSoundbank.t)
  : list bytes :=
  (λ e, default [] (to_option (entry_payload fs e)))
    <$> WwiseSoundbank.audio_entries self.

(** A bank with three payloads: A0 A1, B0 B1 B2 and C0. *)
Definition bank_three : bytes :=
  chunk "BKHD" (u32 140) ++
  chunk "DIDX" (u32 1 ++ u32 0 ++ u32 2 ++ u32 2 ++ u32 2 ++ u32 3
                ++ u32 3 ++ u32 5 ++ u32 1) ++
  chunk "DATA" (B [0xA0; 0xA1; 0xB0; 0xB1; 0xB2; 0xC0]).

(** A replacement for its middle entry. *)
Definition fs_z : FileSystem :=
  <["z.wem" := Regular (B [0xF0])]> (<["y.wem" := Regular (B [0xE0; 0xE1])]> ∅).

(** What loading [bank_three] gives, and the same with a path queued for
    its middle entry. *)
Definition bank_three_with (queued : option Path) : WwiseSoundbank.t :=
  {| WwiseSoundbank.endian := Little;
     WwiseSoundbank.sections :=
       <["DIDX" := {| SoundbankSection.magic := "DIDX";
                      SoundbankSection.data :=
                        u32 1 ++ u32 0 ++ u32 2 ++ u32 2 ++ u32 2 ++ u32 3
                          ++ u32 3 ++ u32 5 ++ u32 1 |}]>
         (<["BKHD" := {| SoundbankSection.magic := "BKHD";
                         SoundbankSection.data := u32 140 |}]> ∅);
     WwiseSoundbank.audio_entries :=
       [{| AudioEntry.id := 1; AudioEntry.offset := 0; AudioEntry.size := 2;
           AudioEntry.data := Some (B [0xA0; 0xA1]);
           AudioEntry.replacement_path := None |};
        {| AudioEntry.id := 2; AudioEntry.offset := 2; AudioEntry.size := 3;
           AudioEntry.data := Some (B [0xB0; 0xB1; 0xB2]);
           AudioEntry.replacement_path := queued |};
        {| AudioEntry.id := 3; AudioEntry.offset := 5; AudioEntry.size := 1;
           AudioEntry.data := Some (B [0xC0]);
           AudioEntry.replacement_path := None |}];
     WwiseSoundbank._data_offset := Some 64%nat;
     WwiseSoundbank._data_size := Some 6;
     WwiseSoundbank._trailing_data := [] |}.

(** A plan that lists two files for ID 2. *)
Definition plan_y_z : list (N * Path) := [(2, "y.wem"); (2, "z.wem")].

(** ** Loop bounds *)

(** The call ends the way Python ends it: the bound of a modelled loop was
    not what stopped it. *)
Definition within_budget {A : Type} (r : result A) : Prop :=
  r ≠ Raise LoopBudget.

(** ** Notions of the further properties *)

(** Whatever the call raises is one of [allowed]. *)
Definition raises_only {A : Type} (allowed : list Exn) (r : result A) : Prop :=
  ∀ e, r = Raise e → e ∈ allowed.

(** What is left of a file makes the scan of the patcher stop: fewer than
    four bytes, a tag that is none of BKHD, DIDX and DATA, or a DATA tag
    with its size field. *)
Definition scan_ends (en : Endian) (rest : bytes) : Prop :=
  (length rest < 4)%nat ∨
  ((4 ≤ length rest)%nat ∧
   decode_ascii_ignore (take 4 rest) ∉ ["BKHD"; "DIDX"; "DATA"]) ∨
  (∃ size tail,
     size < 2 ^ 32 ∧
     rest = encode_ascii "DATA" ++ in_order en (le_digits 4 size) ++ tail).

(** The entries filed under an ID, in index order. *)
Definition entries_with (audio_id : N) (es : list AudioEntry.t)
  : list AudioEntry.t :=
  filter (λ e, AudioEntry.id e = audio_id) es.

(** What [export_audio] reads of an entry. *)
Definition id_and_data (e : AudioEntry.t) : N * option bytes :=
  (AudioEntry.id e, AudioEntry.data e).

(** The file [export_all_audio] writes an entry of that ID to. *)
Definition wem_name (audio_id : N) : string := pretty audio_id +:+ ".wem".

(** The items of a replacement dict that [patch_soundbank] queues: the ID
    is in the index and the file is there. *)
Definition applicable (fs : FileSystem) (ids : list N)
    (replacements : list (N * Path)) : list (N * Path) :=
  filter (λ r, r.1 ∈ ids ∧ exists_ fs r.2 = true) replacements.

(** Every replacement queued on the bank is a file that is there. *)
Definition queued_exist (fs : FileSystem) (self : WwiseSoundbank.t) : Prop :=
  Forall (λ e, ∀ p, AudioEntry.replacement_path e = Some p →
                    exists_ fs p = true)
    (WwiseSoundbank.audio_entries self).

(** The user lets [patch_soundbank] go on: no file is missing, or the
    answer to its question is [y]. *)
Definition goes_on (fs : FileSystem) (replacements : list (N * Path))
    (response : string) : Prop :=
  missing_files fs replacements = [] ∨ response = "y".

(** A bank on disk with two replacement files, and a configuration that
    names an ID the bank has, an ID it has not, and a file that is not
    there. *)
Definition fs_patch : FileSystem := <["bank.bnk" := Regular bank_three]> fs_z.

Definition plan_patch : list (N * Path) :=
  [(2, "y.wem"); (9, "z.wem"); (3, "gone.wem")].

(** The number a run of varint bytes stands for: seven bits a byte, the
    first byte the most significant. *)
Definition varint_value (bs : bytes) : N :=
  foldl (λ v b, 128 * v + Byte.to_N b mod 128) 0 bs.

(** A byte with its high bit set: the varint goes on. *)
Definition continues (b : byte) : Prop := 128 ≤ Byte.to_N b.

(** Where [_parse_bkhd] looks for the BKHD tag: behind the twelve bytes of
    an AKBK wrapper when the bank starts with one. *)
Definition header_start (data : bytes) : nat :=
  if decide (slice data 0 4 = encode_ascii "AKBK") then 12%nat else 0%nat.

(** The call returns: it raises nothing. *)
Definition returns {A : Type} (r : result A) : Prop := ∃ a, r = Ok a.

(** ** What the resolver follows *)

(** A sound with a source that is in the audio index. *)
Definition sound_source (self : BankParser.t) (sound_id src : N) : Prop :=
  ∃ s, BankParser.sounds self !! sound_id = Some s ∧
       Sound.source_id s = Some src ∧
       src ∈ BankParser.audio_files self.

(** What [_link_recursive] follows from an object: a sound gives its
    source, a container that is not also a sound whatever its playlist, or
    its children when the playlist is empty, lead to. *)
Inductive reaches (self : BankParser.t) : N → N → Prop :=
  | reaches_sound obj_id src :
      sound_source self obj_id src → reaches self obj_id src
  | reaches_container obj_id c child src :
      BankParser.sounds self !! obj_id = None →
      BankParser.containers self !! obj_id = Some c →
      child ∈ BankParser.playlist_children c →
      reaches self child src →
      reaches self obj_id src.

(** What [_link_container_children] follows from a container. *)
Definition expands_to (self : BankParser.t) (container_id src : N) : Prop :=
  ∃ c child,
    BankParser.containers self !! container_id = Some c ∧
    child ∈ BankParser.playlist_children c ∧
    reaches self child src.

(** What an ID named by an event or by a play action resolves to: it is
    looked up among the containers first, then among the sounds. *)
Definition resolves (self : BankParser.t) (target src : N) : Prop :=
  if decide (is_Some (BankParser.containers self !! target))
  then expands_to self target src
  else sound_source self target src.

(** What [_process_event_reference] follows from an ID of an event: an
    action counts when its type is 1027 and it has a target. *)
Definition refers (self : BankParser.t) (target_id src : N) : Prop :=
  match BankParser.actions self !! target_id with
  | Some action =>
      ∃ target, Action.target_id action = Some target ∧
                Action.action_type action = Some 1027 ∧
                resolves self target src
  | None => resolves self target_id src
  end.

(** Two parser states with the same objects and audio index. *)
Definition same_graph (s s' : BankParser.t) : Prop :=
  BankParser.containers s' = BankParser.containers s ∧
  BankParser.sounds s' = BankParser.sounds s ∧
  BankParser.actions s' = BankParser.actions s ∧
  BankParser.audio_files s' = BankParser.audio_files s.

(** The set [link_audio_to_events] builds for one event. *)
Definition resolve_event (depth : nat) (self : BankParser.t) (event : Event.t)
  : result (gset N) :=
  for_each (Event.actions event)
    (λ target_id s, BankParser._process_event_reference depth self target_id s)
    ∅.

(** What [link_audio_to_events] makes of [hier_acyclic]. *)
Definition hier_acyclic_linked : BankParser.t :=
  {| BankParser.events :=
       [{| Event.id := 1; Event.actions := [10];
           Event.audio_file_ids := [77] |}];
     BankParser.actions := BankParser.actions hier_acyclic;
     BankParser.sounds := BankParser.sounds hier_acyclic;
     BankParser.containers := BankParser.containers hier_acyclic;
     BankParser.audio_files := BankParser.audio_files hier_acyclic;
     BankParser.version := 140;
     BankParser.event_audio_map := {[ "1" := [77] ]} |}.

(** The little-endian number in the bytes at offsets [a] up to [b] of the
    record that starts at [pos]. *)
Definition field (data : bytes) (pos a b : nat) : N :=
  le_value (slice data (pos + a) (pos + b)).
(** ** How [save] can fail *)

(** A replacement is queued under a path that names nothing. *)
Definition queued_missing (fs : FileSystem) (self : WwiseSoundbank.t) : Prop :=
  ∃ e q, e ∈ WwiseSoundbank.audio_entries self ∧
         AudioEntry.replacement_path e = Some q ∧ fs !! q = None.

(** The final sizes of some leading entries of the index can all be had and
    add up to [2 ^ 32] or more: the size of the last of them, or the offset
    of the entry behind them, does not fit a u32. *)
Definition index_overflows (fs : FileSystem) (self : WwiseSoundbank.t) : Prop :=
  ∃ k sizes,
    Forall2 (λ e s, AudioEntry.final_size fs e = Ok s)
      (take k (WwiseSoundbank.audio_entries self)) sizes ∧
    2 ^ 32 ≤ sum_N sizes.

(** A file system in which ["a.wem"] can be [stat]ed, at 4 GiB, and not
    opened. *)
Definition fs_huge : FileSystem := {[ "a.wem" := Unreadable (2 ^ 32) ]}.

(** ** Cycles among containers *)

(** [_link_recursive] on [a] calls itself on [b]: [a] is a container that
    is not also a sound, and [b] is among the IDs it is expanded into. *)
Definition calls (self : BankParser.t) (a b : N) : Prop :=
  BankParser.sounds self !! a = None ∧
  ∃ c, BankParser.containers self !! a = Some c ∧
       b ∈ BankParser.playlist_children c.

(** From [obj_id] the calls lead to a container that leads back to
    itself. *)
Definition runs_into_cycle (self : BankParser.t) (obj_id : N) : Prop :=
  ∃ c, rtc (calls self) obj_id c ∧ tc (calls self) c c.

(** The container [_process_event_reference] expands for an ID of an
    event: the target of the play action (type 1027) under that ID, or,
    with no action under it, the ID itself. *)
Definition hands_over (self : BankParser.t) (target_id container_id : N) : Prop :=
  is_Some (BankParser.containers self !! container_id) ∧
  match BankParser.actions self !! target_id with
  | Some action =>
      Action.action_type action = Some 1027 ∧
      Action.target_id action = Some container_id
  | None => container_id = target_id
  end.

(** An ID of the event hands over a container, and one of the IDs that
    container is expanded into runs into a cycle. *)
Definition heads_into_cycle (self : BankParser.t) (ev : Event.t) : Prop :=
  ∃ target_id container_id c child,
    target_id ∈ Event.actions ev ∧
    hands_over self target_id container_id ∧
    BankParser.containers self !! container_id = Some c ∧
    child ∈ BankParser.playlist_children c ∧
    runs_into_cycle self child.

(** [hier_cyclic] with a sound of source 77 and, ahead of the event that
    refers to container 10, an event that refers to the sound. *)
Definition hier_half_cyclic : BankParser.t :=
  {| BankParser.events :=
       [{| Event.id := 2; Event.actions := [30]; Event.audio_file_ids := [] |};
        {| Event.id := 1; Event.actions := [10]; Event.audio_file_ids := [] |}];
     BankParser.actions := ∅;
     BankParser.sounds :=
       {[ 30 := {| Sound.sound_id := 30; Sound.source_id := Some 77 |} ]};
     BankParser.containers := BankParser.containers hier_cyclic;
     BankParser.audio_files := {[ 77 ]};
     BankParser.version := 140;
     BankParser.event_audio_map := ∅ |}.

(** The object after [link_audio_to_events] has raised on it. *)
Definition hier_half_linked : BankParser.t :=
  {| BankParser.events :=
       [{| Event.id := 2; Event.actions := [30]; Event.audio_file_ids := [77] |};
        {| Event.id := 1; Event.actions := [10]; Event.audio_file_ids := [] |}];
     BankParser.actions := ∅;
     BankParser.sounds := BankParser.sounds hier_half_cyclic;
     BankParser.containers := BankParser.containers hier_cyclic;
     BankParser.audio_files := {[ 77 ]};
     BankParser.version := 140;
     BankParser.event_audio_map := {[ "2" := [77] ]} |}.
Lemma byte_of_N_to_N n : Byte.to_N (byte_of_N n) = n mod 256.
Proof.
  unfold byte_of_N.
  destruct (Byte.of_N (n mod 256)) as [b|] eqn:E.
  - simpl. by apply Byte.to_of_N.
  - apply Byte.of_N_None_iff in E.
    pose proof (N.mod_upper_bound n 256). lia.
Qed.

Lemma le_value_digits n v : v < 256 ^ N.of_nat n → le_value (le_digits n v) = v.
Proof.
  revert v. induction n as [|n IH]; intros v Hv.
  - simpl in *. lia.
  - cbn [le_digits le_value]. rewrite byte_of_N_to_N.
    rewrite IH.
    + pose proof (N.div_mod v 256). lia.
    + rewrite Nat2N.inj_succ, N.pow_succ_r' in Hv.
      apply N.Div0.div_lt_upper_bound. lia.
Qed.

Lemma le_value_bound bs : le_value bs < 256 ^ N.of_nat (length bs).
Proof.
  induction bs as [|b bs IH].
  - simpl. lia.
  - cbn [le_value length]. rewrite Nat2N.inj_succ, N.pow_succ_r'.
    pose proof (Byte.to_N_bounded b). lia.
Qed.

Lemma length_le_digits n v : length (le_digits n v) = n.
Proof. revert v. induction n; intros; simpl; auto. Qed.

Lemma in_order_involutive en bs : in_order en (in_order en bs) = bs.
Proof. destruct en; simpl; auto using rev_involutive. Qed.

Lemma length_in_order en bs : length (in_order en bs) = length bs.
Proof. destruct en; simpl; auto using length_rev. Qed.

Lemma pack_u32_Ok en v bs :
  pack_u32 en v = Ok bs → v < 2 ^ 32 ∧ length bs = 4%nat ∧ unpack_u32 en bs = Ok v.
Proof.
  unfold pack_u32. case_decide as Hv; [|done]. intros Heq.
  assert (bs = in_order en (le_digits 4 v)) as -> by congruence.
  split; [done|]. split.
  - by rewrite length_in_order, length_le_digits.
  - unfold unpack_u32. rewrite length_in_order, length_le_digits.
    rewrite decide_True by done. rewrite in_order_involutive.
    f_equal. apply le_value_digits. exact Hv.
Qed.
(** ** Loops *)

Lemma for_each_app {A S} (xs ys : list A) (body : A → S → result S) s :
  for_each (xs ++ ys) body s = (let! s' := for_each xs body s in for_each ys body s').
Proof.
  revert s. induction xs as [|x xs IH]; intros s; simpl; [done|].
  destruct (body x s); simpl; auto.
Qed.

Lemma for_each_pure {A S} (xs : list A) (body : A → S → result S) (g : S → A → S)
    (P : S → Prop) s :
  P s →
  (∀ x s, x ∈ xs → P s → body x s = Ok (g s x) ∧ P (g s x)) →
  for_each xs body s = Ok (foldl g s xs) ∧ P (foldl g s xs).
Proof.
  revert s. induction xs as [|x xs IH]; intros s Hs Hb; simpl; [done|].
  destruct (Hb x s) as [-> HP]; [left|done|]. simpl.
  apply IH; [done|]. intros y s' Hy. apply Hb. by right.
Qed.

(** ** Slices *)

Lemma length_slice data i j :
  (j ≤ length data)%nat → length (slice data i j) = (j - i)%nat.
Proof. intros. unfold slice. rewrite length_take, length_drop. lia. Qed.

Lemma slice_slice data o a b n :
  (b ≤ n)%nat → slice (slice data o (o + n)) a b = slice data (o + a) (o + b).
Proof.
  intros. unfold slice.
  replace (o + n - o)%nat with n by lia.
  replace (o + b - (o + a))%nat with (b - a)%nat by lia.
  rewrite <- drop_drop.
  generalize (drop o data). intros l.
  rewrite skipn_firstn_comm. rewrite take_take. f_equal. lia.
Qed.

Lemma unpack_u32_Ok en bs :
  length bs = 4%nat → unpack_u32 en bs = Ok (le_value (in_order en bs)).
Proof. intros. unfold unpack_u32. by rewrite decide_True. Qed.

Lemma unpack_u32x3_Ok en rec :
  length rec = 12%nat →
  unpack_u32x3 en rec =
    let e := decode_entry en rec in
    Ok (AudioEntry.id e, AudioEntry.offset e, AudioEntry.size e).
Proof.
  intros Hl. unfold unpack_u32x3. rewrite decide_True by done.
  rewrite !unpack_u32_Ok; [done|..];
    rewrite ?length_take, ?length_drop; lia.
Qed.
(** ** The audio index of a DIDX payload *)

Section extract.
Import WwiseSoundbank.

Lemma _extract_audio_catalog_spec self sec :
  sections self !! "DIDX" = Some sec →
  _extract_audio_catalog self =
    Ok (set_audio_entries
          (audio_entries self ++
             didx_entries (endian self) (SoundbankSection.data sec)) self).
Proof.
  intros Hsec. unfold _extract_audio_catalog. rewrite Hsec.
  set (didx := SoundbankSection.data sec).
  set (en := endian self).
  pose (g := λ (s : t) (i : nat),
          set_audio_entries (audio_entries s ++ [didx_entry en didx i]) s).
  match goal with
  | |- for_each ?xs ?body ?s = _ =>
      destruct (for_each_pure xs body g (λ s, endian s = en) s) as [-> _]
  end.
  - done.
  - intros i s Hi Hen. apply elem_of_seq in Hi. split; [|done].
    cbn zeta. rewrite unpack_u32x3_Ok.
    + by rewrite Hen.
    + rewrite length_slice; [lia|].
      pose proof (Nat.div_mod_eq (length didx) 12).
      pose proof (Nat.mod_upper_bound (length didx) 12). lia.
  - f_equal. unfold didx_entries. fold en didx.
    generalize (seq 0 (length didx / 12)). intros xs.
    assert (∀ s, foldl g s xs =
                 set_audio_entries
                   (audio_entries s ++ (didx_entry en didx <$> xs)) s) as ->;
      [|done].
    induction xs as [|x xs IH]; intros s; simpl.
    + rewrite app_nil_r. by destruct s.
    + rewrite IH. unfold g, set_audio_entries; simpl.
      by rewrite <- app_assoc.
Qed.
End extract.
Lemma take_slice data a n m :
  (n ≤ m)%nat → take n (slice data a (a + m)) = slice data a (a + n).
Proof.
  intros. unfold slice. rewrite take_take.
  f_equal. lia.
Qed.

Lemma didx_entry_id_slice en didx i :
  AudioEntry.id (didx_entry en didx i) =
  le_value (in_order en (slice didx (i * 12) (i * 12 + 4))).
Proof.
  unfold didx_entry, decode_entry; simpl. by rewrite take_slice by lia.
Qed.

Lemma length_didx_entries en didx :
  length (didx_entries en didx) = (length didx / 12)%nat.
Proof. unfold didx_entries. by rewrite length_fmap, length_seq. Qed.



Section parse_didx.
Import BankParser.

Lemma audio_files_add_audio_files ids self :
  audio_files (add_audio_files ids self) = list_to_set ids ∪ audio_files self.
Proof.
  revert self. induction ids as [|x ids IH]; intros self; simpl.
  - by rewrite (left_id_L ∅ (∪)).
  - unfold add_audio_files in *. simpl. rewrite IH. simpl.
    by rewrite (assoc_L (∪)), (comm_L (∪) (list_to_set ids)).
Qed.

Lemma _parse_didx_loop_spec n self data pos end_pos :
  (pos + n * 12 ≤ end_pos)%nat → (end_pos ≤ length data)%nat →
  _parse_didx_loop n self data pos end_pos =
    Ok (add_audio_files
          ((λ i, le_value (slice data (pos + i * 12) (pos + i * 12 + 4)))
             <$> seq 0 n) self).
Proof.
  revert self pos. induction n as [|n IH]; intros self pos Hn He; [done|].
  cbn [_parse_didx_loop]. rewrite decide_False by (unfold gt; lia).
  unfold unpack_from_u32. rewrite decide_True by lia. cbn [bind].
  rewrite IH by lia. f_equal.
  cbn [seq fmap list_fmap]. rewrite <- fmap_S_seq, <- list_fmap_compose.
  unfold add_audio_files. cbn [foldl].
  replace (pos + 0 * 12)%nat with pos by lia.
  f_equal. apply list_fmap_ext. intros k i _. simpl.
  do 2 f_equal; lia.
Qed.
End parse_didx.
(** ** Streams *)

Lemma read_prefix b p x rest :
  drop p b = x ++ rest →
  read (length x) {| buf := b; pos := p |} =
    (x, {| buf := b; pos := p + length x |}) ∧
  drop (p + length x) b = rest.
Proof.
  intros Hd. unfold read; cbn [buf pos]. rewrite Hd.
  rewrite take_app_length. split; [done|].
  rewrite <- drop_drop, Hd. by rewrite drop_app_length.
Qed.

Lemma encode_stored_tag tag :
  tag ∈ ["BKHD"; "DIDX"; "DATA"] →
  length (encode_ascii tag) = 4%nat ∧
  decode_ascii_ignore (encode_ascii tag) = tag.
Proof.
  intros H. repeat (apply elem_of_cons in H as [->|H]; [by vm_compute|]).
  by apply elem_of_nil in H.
Qed.

Section parse_sections.
Import WwiseSoundbank.

Lemma unpack_size_field en n :
  N.of_nat n < 2 ^ 32 →
  unpack_u32 en (in_order en (le_digits 4 (N.of_nat n))) = Ok (N.of_nat n).
Proof.
  intros Hn. unfold unpack_u32.
  rewrite length_in_order, length_le_digits, decide_True by done.
  rewrite in_order_involutive. f_equal. by apply le_value_digits.
Qed.

(** A stored chunk at the reading position costs one round and leaves the
    position just behind its payload. *)
Lemma _parse_sections_loop_stored budget self b p tag payload rest :
  drop p b = chunk_with (endian self) tag payload ++ rest →
  stored_chunk (tag, payload) →
  _parse_sections_loop (S budget) self {| buf := b; pos := p |} =
    _parse_sections_loop budget (set_section tag payload self)
      {| buf := b; pos := p + (8 + length payload) |} ∧
  drop (p + (8 + length payload)) b = rest.
Proof.
  intros Hd [Htag Hlen]. cbn [fst snd] in *.
  assert (tag ∈ ["BKHD"; "DIDX"; "DATA"]) as Htag3.
  { apply elem_of_cons in Htag as [->|Htag]; [by left|].
    apply elem_of_cons in Htag as [->|Htag]; [by right; left|].
    by apply elem_of_nil in Htag. }
  destruct (encode_stored_tag tag Htag3) as [Hl4 Hdec].
  unfold chunk_with in Hd. rewrite <- !app_assoc in Hd.
  destruct (read_prefix _ _ _ _ Hd) as [Hr1 Hd1]. rewrite Hl4 in Hr1, Hd1.
  set (sz := in_order (endian self) (le_digits 4 (N.of_nat (length payload)))) in *.
  assert (length sz = 4%nat) as Hsz
    by (unfold sz; by rewrite length_in_order, length_le_digits).
  destruct (read_prefix _ _ _ _ Hd1) as [Hr2 Hd2]. rewrite Hsz in Hr2, Hd2.
  destruct (read_prefix _ _ _ _ Hd2) as [Hr3 Hd3].
  cbn [_parse_sections_loop]. rewrite Hr1, Hl4.
  rewrite decide_False by lia. rewrite Hdec.
  rewrite decide_False by (intros Hn; by apply Hn).
  rewrite Hr2. unfold sz at 1. rewrite unpack_size_field by done.
  cbn [bind]. rewrite decide_False.
  2:{ intros ->. apply elem_of_cons in Htag as [?|Htag]; [done|].
      apply elem_of_cons in Htag as [?|Htag]; [done|].
      by apply elem_of_nil in Htag. }
  rewrite Nat2N.id, Hr3.
  replace (p + 4 + 4 + length payload)%nat
    with (p + (8 + length payload))%nat in * by lia.
  done.
Qed.

Lemma length_chunk_with en tag payload :
  tag ∈ ["BKHD"; "DIDX"; "DATA"] →
  length (chunk_with en tag payload) = (8 + length payload)%nat.
Proof.
  intros [Hl _]%encode_stored_tag. unfold chunk_with.
  rewrite !length_app, Hl, length_in_order, length_le_digits. lia.
Qed.

Lemma endian_store_sections cs self :
  endian (store_sections cs self) = endian self.
Proof.
  revert self. induction cs as [|c cs IH]; intros self; [done|].
  unfold store_sections in *. cbn [foldl]. by rewrite IH.
Qed.

Lemma audio_entries_store_sections cs self :
  audio_entries (store_sections cs self) = audio_entries self.
Proof.
  revert self. induction cs as [|c cs IH]; intros self; [done|].
  unfold store_sections in *. cbn [foldl]. by rewrite IH.
Qed.

(** A run of stored chunks costs one round each. *)
Lemma _parse_sections_loop_run cs budget self b p rest :
  Forall stored_chunk cs →
  drop p b = chunks_with (endian self) cs ++ rest →
  _parse_sections_loop (length cs + budget) self {| buf := b; pos := p |} =
    _parse_sections_loop budget (store_sections cs self)
      {| buf := b; pos := p + length (chunks_with (endian self) cs) |} ∧
  drop (p + length (chunks_with (endian self) cs)) b = rest.
Proof.
  revert self p. induction cs as [|[tag payload] cs IH]; intros self p Hcs Hd.
  - cbn. rewrite Nat.add_0_r. done.
  - apply Forall_cons in Hcs as [Hc Hcs].
    unfold chunks_with in Hd |- *. cbn [fmap list_fmap concat fst snd] in Hd |- *.
    rewrite <- app_assoc in Hd.
    cbn [length Nat.add].
    destruct (_parse_sections_loop_stored (length cs + budget) self b p tag
                payload _ Hd Hc) as [-> Hd'].
    destruct (IH (set_section tag payload self) _ Hcs Hd') as [-> Hd''].
    rewrite length_app, length_chunk_with.
    2:{ destruct Hc as [Hc _]. cbn in Hc.
        apply elem_of_cons in Hc as [->|Hc]; [by left|].
        apply elem_of_cons in Hc as [->|Hc]; [by right; left|].
        by apply elem_of_nil in Hc. }
    cbn [endian set_section] in *. fold (chunks_with (endian self) cs) in *.
    replace (p + (8 + length payload + length (chunks_with (endian self) cs)))%nat
      with (p + (8 + length payload) + length (chunks_with (endian self) cs))%nat
      by lia.
    done.
Qed.

(** The three ways the scan ends. *)
Lemma _parse_sections_loop_exhausted budget self b p :
  (length (drop p b) < 4)%nat →
  ∃ p', _parse_sections_loop (S budget) self {| buf := b; pos := p |} =
          Ok (self, {| buf := b; pos := p' |}) ∧ drop p' b = [].
Proof.
  intros Hl. cbn [_parse_sections_loop]. unfold read; cbn [buf pos].
  rewrite decide_True by (rewrite length_take; lia).
  eexists. split; [done|].
  rewrite take_ge by lia. rewrite <- drop_drop. by rewrite drop_all.
Qed.

Lemma _parse_sections_loop_unknown budget self b p :
  (4 ≤ length (drop p b))%nat →
  decode_ascii_ignore (take 4 (drop p b)) ∉ ["BKHD"; "DIDX"; "DATA"] →
  _parse_sections_loop (S budget) self {| buf := b; pos := p |} =
    Ok (self, {| buf := b; pos := p |}).
Proof.
  intros Hl Htag. cbn [_parse_sections_loop]. unfold read; cbn [buf pos].
  rewrite decide_False by (rewrite length_take; lia).
  rewrite decide_True by done.
  unfold seek_cur; cbn [buf pos]. rewrite length_take.
  do 3 f_equal. lia.
Qed.

Lemma _parse_sections_loop_data budget self b p payload_and_rest size :
  drop p b = encode_ascii "DATA"
               ++ in_order (endian self) (le_digits 4 size)
               ++ payload_and_rest →
  size < 2 ^ 32 →
  _parse_sections_loop (S budget) self {| buf := b; pos := p |} =
    Ok (set_data_chunk (p + 8) size self,
        {| buf := b; pos := p + 8 + N.to_nat size |}) ∧
  drop (p + 8 + N.to_nat size) b = drop (N.to_nat size) payload_and_rest.
Proof.
  intros Hd Hsize.
  destruct (read_prefix _ _ _ _ Hd) as [Hr1 Hd1].
  change (length (encode_ascii "DATA")) with 4%nat in Hr1, Hd1.
  set (sz := in_order (endian self) (le_digits 4 size)) in *.
  assert (length sz = 4%nat) as Hsz
    by (unfold sz; by rewrite length_in_order, length_le_digits).
  destruct (read_prefix _ _ _ _ Hd1) as [Hr2 Hd2]. rewrite Hsz in Hr2, Hd2.
  cbn [_parse_sections_loop]. rewrite Hr1.
  rewrite decide_False by (cbn; lia).
  rewrite decide_False by (intros Hn; apply Hn; by vm_compute; set_solver).
  rewrite Hr2.
  assert (unpack_u32 (endian self) sz = Ok size) as ->.
  { unfold unpack_u32, sz.
    rewrite length_in_order, length_le_digits, decide_True by done.
    rewrite in_order_involutive. f_equal. by apply le_value_digits. }
  cbn [bind]. change (decode_ascii_ignore (encode_ascii "DATA")) with "DATA".
  rewrite decide_True by done. unfold tell, seek_cur; cbn [buf pos].
  replace (Z.to_nat (Z.of_nat (p + 4 + 4) + Z.of_N size))
    with (p + 8 + N.to_nat size)%nat by lia.
  replace (p + 4 + 4)%nat with (p + 8)%nat in * by lia.
  split; [done|].
  by rewrite <- drop_drop, Hd2.
Qed.

(** The bound handed to the loop is never reached. *)
Lemma _parse_sections_loop_budget budget self stream :
  (length (buf stream) - pos stream < budget)%nat →
  _parse_sections_loop budget self stream ≠ Raise LoopBudget.
Proof.
  revert self stream. induction budget as [|budget IH]; intros self stream Hb;
    [lia|].
  cbn [_parse_sections_loop]. unfold read; cbn [buf pos].
  case_decide as H4; [done|]. case_decide; [done|].
  rewrite length_take, length_drop in H4.
  destruct (unpack_u32 _ _) as [size|e] eqn:Hu; cbn [bind].
  - case_decide; [done|].
    unfold unpack_u32 in Hu. case_decide as Hl4; [|done].
    apply IH. cbn [buf pos].
    rewrite !length_take, !length_drop in *. lia.
  - unfold unpack_u32 in Hu. case_decide; [done|]. by injection Hu as <-.
Qed.
End parse_sections.
Section parse_sections_file.
Import WwiseSoundbank.

Lemma length_chunks_with_ge en cs :
  Forall stored_chunk cs → (length cs ≤ length (chunks_with en cs))%nat.
Proof.
  induction 1 as [|[tag payload] cs [Htag _] _ IH]; [done|].
  unfold chunks_with in *. cbn [fmap list_fmap concat length fst snd] in *.
  rewrite length_app, length_chunk_with; [lia|].
  set_unfold. tauto.
Qed.

Lemma budget_split en cs rest :
  Forall stored_chunk cs →
  ∃ k, S (length (chunks_with en cs ++ rest)) = (length cs + S k)%nat.
Proof.
  intros Hcs%(length_chunks_with_ge en).
  exists (length (chunks_with en cs ++ rest) - length cs)%nat.
  rewrite length_app. lia.
Qed.

Variables (self : t) (cs : list (string * bytes)) (rest : bytes).
Hypothesis Hcs : Forall stored_chunk cs.

Let file := chunks_with (endian self) cs ++ rest.

(** A tag outside BKHD, DIDX, DATA: the scan stops in front of it. *)
Lemma _parse_sections_unknown :
  (4 ≤ length rest)%nat →
  decode_ascii_ignore (take 4 rest) ∉ ["BKHD"; "DIDX"; "DATA"] →
  ∃ stream', _parse_sections self (open_ file) =
    Ok (set_trailing rest (store_sections cs self), stream') ∧
    buf stream' = file.
Proof.
  intros Hl Htag. unfold _parse_sections, open_, file; cbn [buf pos].
  destruct (budget_split (endian self) cs rest Hcs) as [k ->].
  destruct (_parse_sections_loop_run cs (S k) self _ 0 rest Hcs eq_refl)
    as [-> Hd].
  rewrite _parse_sections_loop_unknown by (by rewrite Hd).
  cbn [bind]. unfold read_all; cbn [buf pos]. rewrite Hd.
  eexists. split; [done|done].
Qed.

(** Fewer than four bytes left: they are consumed and nothing trails. *)
Lemma _parse_sections_exhausted :
  (length rest < 4)%nat →
  ∃ stream', _parse_sections self (open_ file) =
    Ok (set_trailing [] (store_sections cs self), stream') ∧
    buf stream' = file.
Proof.
  intros Hl. unfold _parse_sections, open_, file; cbn [buf pos].
  destruct (budget_split (endian self) cs rest Hcs) as [k ->].
  destruct (_parse_sections_loop_run cs (S k) self _ 0 rest Hcs eq_refl)
    as [-> Hd].
  destruct (_parse_sections_loop_exhausted k (store_sections cs self)
              (chunks_with (endian self) cs ++ rest)
              (0 + length (chunks_with (endian self) cs)))
    as (p' & -> & Hd'); [by rewrite Hd|].
  cbn [bind]. unfold read_all; cbn [buf pos]. rewrite Hd'.
  eexists. split; [done|done].
Qed.

(** A DATA chunk: its place and size are noted, the scan stops, and what
    lies behind its declared size trails. *)
Lemma _parse_sections_data size tail :
  rest = encode_ascii "DATA" ++ in_order (endian self) (le_digits 4 size)
           ++ tail →
  size < 2 ^ 32 →
  ∃ stream', _parse_sections self (open_ file) =
    Ok (set_trailing (drop (N.to_nat size) tail)
          (set_data_chunk (length (chunks_with (endian self) cs) + 8) size
             (store_sections cs self)), stream') ∧
    buf stream' = file.
Proof.
  intros Hrest Hsize. unfold _parse_sections, open_, file; cbn [buf pos].
  destruct (budget_split (endian self) cs rest Hcs) as [k ->].
  destruct (_parse_sections_loop_run cs (S k) self _ 0 rest Hcs eq_refl)
    as [-> Hd].
  rewrite Hrest in Hd at 2.
  assert (drop (0 + length (chunks_with (endian self) cs))
            (chunks_with (endian self) cs ++ rest) =
          encode_ascii "DATA"
            ++ in_order (endian (store_sections cs self)) (le_digits 4 size)
            ++ tail) as Hd2
    by (by rewrite endian_store_sections).
  destruct (_parse_sections_loop_data k _ _ _ _ _ Hd2 Hsize) as [-> Hd'].
  cbn [bind]. unfold read_all; cbn [buf pos]. rewrite Hd'.
  eexists. split; [done|done].
Qed.
End parse_sections_file.
(** ** The resolver on a ranked hierarchy *)

Section resolver.
Import BankParser.

Lemma for_each_Ok {A S} (xs : list A) (body : A → S → result S) (P : S → Prop) s :
  P s →
  (∀ x s, x ∈ xs → P s → ∃ s', body x s = Ok s' ∧ P s') →
  ∃ s', for_each xs body s = Ok s' ∧ P s'.
Proof.
  revert s. induction xs as [|x xs IH]; intros s Hs Hb; cbn [for_each]; [eauto|].
  destruct (Hb x s) as (s1 & -> & Hs1); [left|done|]. cbn [bind].
  apply IH; [done|]. intros y s' Hy. apply Hb. by right.
Qed.

Lemma _link_sound_to_audio_subset self sound_id audio_set :
  audio_set ⊆ audio_files self →
  _link_sound_to_audio self sound_id audio_set ⊆ audio_files self.
Proof.
  intros Hs. unfold _link_sound_to_audio.
  destruct (sounds self !! sound_id) as [s|]; [|done].
  destruct (Sound.source_id s) as [src|]; [|done].
  case_decide; [|done].
  apply union_subseteq. split; [done|]. by apply singleton_subseteq_l.
Qed.

Variables (self : t) (rank : N → nat).
Hypothesis Hrank :
  ∀ cid c child,
    containers self !! cid = Some c →
    child ∈ playlist_children c →
    expands self child →
    (rank child < rank cid)%nat.

(** With a rank going down along the edges, the recursion bottoms out. *)
Lemma _link_recursive_Ok depth obj_id audio_set :
  (0 < depth)%nat →
  (expands self obj_id → (rank obj_id + 1 < depth)%nat) →
  audio_set ⊆ audio_files self →
  ∃ audio_set',
    _link_recursive depth self obj_id audio_set = Ok audio_set' ∧
    audio_set' ⊆ audio_files self.
Proof.
  revert obj_id audio_set.
  induction depth as [|depth IH]; intros obj_id audio_set Hpos Hexp Hsub; [lia|].
  cbn [_link_recursive].
  destruct (decide (is_Some (sounds self !! obj_id))) as [Hs|Hs].
  { eauto using _link_sound_to_audio_subset. }
  destruct (containers self !! obj_id) as [c|] eqn:Hc; [|eauto].
  assert (expands self obj_id) as Hex.
  { split; [|by rewrite Hc]. by apply eq_None_not_Some. }
  specialize (Hexp Hex).
  apply (for_each_Ok _ _ (λ s, s ⊆ audio_files self)); [done|].
  intros child s Hchild Hsub'. apply IH; [lia| |done].
  intros Hex'. pose proof (Hrank obj_id c child Hc Hchild Hex'). lia.
Qed.

Lemma rank_le_max cid c :
  containers self !! cid = Some c →
  (rank cid ≤ max_list (rank <$> elements (dom (containers self))))%nat.
Proof.
  intros Hc. apply max_list_elem_of_le, list_elem_of_fmap.
  exists cid. split; [done|]. apply elem_of_elements, elem_of_dom. by rewrite Hc.
Qed.

Lemma _link_container_children_Ok depth cid audio_set :
  (enough_depth self rank ≤ depth)%nat →
  is_Some (containers self !! cid) →
  audio_set ⊆ audio_files self →
  ∃ audio_set',
    _link_container_children depth self cid audio_set = Ok audio_set' ∧
    audio_set' ⊆ audio_files self.
Proof.
  intros Hd [c Hc] Hsub. unfold _link_container_children. rewrite Hc.
  unfold enough_depth in Hd.
  apply (for_each_Ok _ _ (λ s, s ⊆ audio_files self)); [done|].
  intros child s Hchild Hsub'. apply _link_recursive_Ok; [lia| |done].
  intros Hex. pose proof (Hrank cid c child Hc Hchild Hex).
  pose proof (rank_le_max cid c Hc). lia.
Qed.

Lemma _process_event_reference_Ok depth target_id audio_set :
  (enough_depth self rank ≤ depth)%nat →
  audio_set ⊆ audio_files self →
  ∃ audio_set',
    _process_event_reference depth self target_id audio_set = Ok audio_set' ∧
    audio_set' ⊆ audio_files self.
Proof.
  intros Hd Hsub. unfold _process_event_reference.
  destruct (actions self !! target_id) as [a|].
  - destruct (Action.target_id a) as [target|]; [|eauto].
    case_decide; [|eauto].
    case_decide; [by apply _link_container_children_Ok|].
    case_decide; eauto using _link_sound_to_audio_subset.
  - case_decide; [by apply _link_container_children_Ok|].
    eauto using _link_sound_to_audio_subset.
Qed.
End resolver.
(** ** The two loops of [save] *)

Section save_loops.
Import WwiseSoundbank.

Lemma pack_u32_iff en v bs :
  pack_u32 en v = Ok bs ↔ v < 2 ^ 32 ∧ bs = in_order en (le_digits 4 v).
Proof.
  unfold pack_u32. case_decide; split.
  - intros [= <-]. done.
  - intros [_ ->]. done.
  - done.
  - intros [? _]. done.
Qed.

Lemma pack_u32x3_iff en a b c bs :
  pack_u32x3 en a b c = Ok bs ↔
  a < 2 ^ 32 ∧ b < 2 ^ 32 ∧ c < 2 ^ 32 ∧
  bs = in_order en (le_digits 4 a) ++ in_order en (le_digits 4 b)
         ++ in_order en (le_digits 4 c).
Proof.
  unfold pack_u32x3. split.
  - destruct (pack_u32 en a) as [x|] eqn:Ha; [|done].
    destruct (pack_u32 en b) as [y|] eqn:Hb; [|done].
    destruct (pack_u32 en c) as [z|] eqn:Hc; [|done].
    apply pack_u32_iff in Ha as [? ->], Hb as [? ->], Hc as [? ->].
    cbn [bind]. intros [= <-]. done.
  - intros (Ha & Hb & Hc & ->).
    rewrite (proj2 (pack_u32_iff en a _) (conj Ha eq_refl)).
    rewrite (proj2 (pack_u32_iff en b _) (conj Hb eq_refl)).
    rewrite (proj2 (pack_u32_iff en c _) (conj Hc eq_refl)).
    done.
Qed.

(** [_rebuild_loop] returns exactly when every size can be obtained and
    every record packed, and then with the bytes of [written_index]. *)
Lemma _rebuild_loop_Ok fs en es didx_data current_offset r :
  _rebuild_loop fs en es didx_data current_offset = Ok r ↔
  ∃ sizes,
    Forall2 (λ e s, AudioEntry.final_size fs e = Ok s) es sizes ∧
    let written := written_index (zip (AudioEntry.id <$> es) sizes) current_offset in
    Forall packable written ∧
    r = didx_data ++ index_body en written.
Proof.
  revert didx_data current_offset r.
  induction es as [|e es IH]; intros didx_data current_offset r;
    cbn [_rebuild_loop].
  { split.
    - intros [= <-]. exists []. split; [constructor|]. cbn.
      split; [constructor|]. by rewrite app_nil_r.
    - intros (sizes & Hs & _ & ->). apply Forall2_nil_inv_l in Hs as ->.
      cbn. by rewrite app_nil_r. }
  split.
  - destruct (AudioEntry.final_size fs e) as [fsz|] eqn:Hf; [|done]. cbn [bind].
    destruct (pack_u32x3 en (AudioEntry.id e) current_offset fsz) as [rec|]
      eqn:Hp; [|done]. cbn [bind].
    intros (sizes & Hs & Hpk & ->)%IH.
    apply pack_u32x3_iff in Hp as (Hi & Ho & Hz & ->).
    exists (fsz :: sizes). split; [by constructor|].
    cbn. split; [by constructor|].
    unfold index_body, index_record. cbn. by rewrite <- !app_assoc.
  - intros (sizes & Hs & Hpk & ->).
    apply Forall2_cons_inv_l in Hs as (fsz & sizes' & Hf & Hs & ->).
    cbn in Hpk. apply Forall_cons in Hpk as [(Hi & Ho & Hz) Hpk].
    cbn in Hi, Ho, Hz.
    rewrite Hf. cbn [bind].
    rewrite (proj2 (pack_u32x3_iff en _ _ _ _)
               (conj Hi (conj Ho (conj Hz eq_refl)))). cbn [bind].
    apply IH. exists sizes'. split; [done|]. split; [done|].
    unfold index_body, index_record. cbn. by rewrite <- !app_assoc.
Qed.

(** [_serialize_loop] returns exactly when every payload can be had, and
    then with their concatenation. *)
Lemma _serialize_loop_Ok fs es audio_stream r :
  _serialize_loop fs es audio_stream = Ok r ↔
  ∃ payloads,
    Forall2 (λ e p, entry_payload fs e = Ok p) es payloads ∧
    r = audio_stream ++ concat payloads.
Proof.
  revert audio_stream r.
  induction es as [|e es IH]; intros audio_stream r; cbn [_serialize_loop].
  { split.
    - intros [= <-]. exists []. split; [constructor|]. by rewrite app_nil_r.
    - intros (ps & Hs & ->). apply Forall2_nil_inv_l in Hs as ->.
      cbn. by rewrite app_nil_r. }
  fold (entry_payload fs e). split.
  - destruct (entry_payload fs e) as [p|] eqn:Hp; [|done]. cbn [bind].
    intros (ps & Hs & ->)%IH. exists (p :: ps). split; [by constructor|].
    cbn. by rewrite <- app_assoc.
  - intros (ps & Hs & ->).
    apply Forall2_cons_inv_l in Hs as (p & ps' & Hp & Hs & ->).
    rewrite Hp. cbn [bind]. apply IH. exists ps'. split; [done|].
    cbn. by rewrite <- app_assoc.
Qed.

Lemma serialize_Ok (sec : SoundbankSection.t) en bs :
  SoundbankSection.serialize sec en = Ok bs ↔
  N.of_nat (length (SoundbankSection.data sec)) < 2 ^ 32 ∧
  bs = chunk_with en (SoundbankSection.magic sec) (SoundbankSection.data sec).
Proof.
  unfold SoundbankSection.serialize, chunk_with. split.
  - destruct (pack_u32 en _) as [l|] eqn:Hp; [|done].
    apply pack_u32_iff in Hp as [? ->]. cbn [bind]. intros [= <-]. done.
  - intros [Hl ->]. by rewrite (proj2 (pack_u32_iff en _ _) (conj Hl eq_refl)).
Qed.
End save_loops.
(** ** Reading back a written index *)

Lemma length_index_record en e : length (index_record en e) = 12%nat.
Proof.
  unfold index_record. by rewrite !length_app, !length_in_order, !length_le_digits.
Qed.

Lemma length_index_body en es :
  length (index_body en es) = (12 * length es)%nat.
Proof.
  unfold index_body. induction es as [|e es IH]; [done|].
  rewrite fmap_cons. cbn [concat length].
  rewrite length_app, length_index_record, IH. lia.
Qed.

Lemma le_value_in_order_digits en v :
  v < 2 ^ 32 → le_value (in_order en (in_order en (le_digits 4 v))) = v.
Proof. intros. rewrite in_order_involutive. by apply le_value_digits. Qed.

Lemma three_words (a b c : bytes) :
  length a = 4%nat → length b = 4%nat → length c = 4%nat →
  take 4 (a ++ b ++ c) = a ∧ take 4 (drop 4 (a ++ b ++ c)) = b ∧
  take 4 (drop 8 (a ++ b ++ c)) = c.
Proof.
  intros Ha Hb Hc.
  destruct a as [|? [|? [|? [|? [|]]]]]; try discriminate Ha.
  destruct b as [|? [|? [|? [|? [|]]]]]; try discriminate Hb.
  destruct c as [|? [|? [|? [|? [|]]]]]; try discriminate Hc.
  done.
Qed.

Lemma decode_index_record en e :
  packable e →
  AudioEntry.data e = None → AudioEntry.replacement_path e = None →
  decode_entry en (index_record en e) = e.
Proof.
  intros (Hi & Ho & Hs) Hd Hr. destruct e as [i o s d r]. cbn in *. subst.
  unfold decode_entry, index_record. cbn [AudioEntry.id AudioEntry.offset AudioEntry.size].
  set (a := in_order en (le_digits 4 i)).
  set (b := in_order en (le_digits 4 o)).
  set (c := in_order en (le_digits 4 s)).
  assert (length a = 4%nat) as Ha by (unfold a; by rewrite length_in_order, length_le_digits).
  assert (length b = 4%nat) as Hb by (unfold b; by rewrite length_in_order, length_le_digits).
  assert (length c = 4%nat) as Hc by (unfold c; by rewrite length_in_order, length_le_digits).
  destruct (three_words a b c Ha Hb Hc) as (-> & -> & ->).
  unfold a, b, c. by rewrite !le_value_in_order_digits.
Qed.

Lemma didx_entries_cons en rec body :
  length rec = 12%nat →
  didx_entries en (rec ++ body) = decode_entry en rec :: didx_entries en body.
Proof.
  intros Hl. unfold didx_entries. rewrite length_app, Hl.
  replace (12 + length body)%nat with (1 * 12 + length body)%nat by lia.
  rewrite Nat.div_add_l by done.
  cbn [Nat.add seq fmap list_fmap]. f_equal.
  - unfold didx_entry, slice. change (0 * 12)%nat with 0%nat.
    rewrite drop_0, Nat.add_0_l, Nat.sub_0_r.
    by rewrite <- Hl, take_app_length.
  - fold (fmap (M:=list) (didx_entry en (rec ++ body))).
    rewrite <- fmap_S_seq, <- list_fmap_compose.
    apply list_fmap_ext. intros k i _. cbn [compose].
    unfold didx_entry, slice. f_equal.
    replace (S i * 12)%nat with (length rec + i * 12)%nat by lia.
    rewrite <- drop_drop, drop_app_length. f_equal. lia.
Qed.

Lemma didx_entries_index_body en es :
  Forall (λ e, packable e ∧ AudioEntry.data e = None ∧
               AudioEntry.replacement_path e = None) es →
  didx_entries en (index_body en es) = es.
Proof.
  induction 1 as [|e es (Hp & Hd & Hr) _ IH]; [done|].
  unfold index_body in *. rewrite fmap_cons. cbn [concat].
  rewrite didx_entries_cons by apply length_index_record.
  rewrite decode_index_record by done. f_equal. exact IH.
Qed.

Lemma written_index_plain recs off :
  Forall (λ e, AudioEntry.data e = None ∧ AudioEntry.replacement_path e = None)
    (written_index recs off).
Proof.
  revert off. induction recs as [|[i s] recs IH]; intros off; cbn; by constructor.
Qed.
(** ** Loading *)

Section loading.
Import WwiseSoundbank.

Lemma _preload_entries_Ok data_offset es stream :
  ∃ stream',
    _preload_entries (Some data_offset) es stream =
      Ok (preloaded (buf stream) data_offset <$> es, stream') ∧
    buf stream' = buf stream.
Proof.
  revert stream. induction es as [|e es IH]; intros stream;
    cbn [_preload_entries]; [eauto|].
  unfold read, seek_set; cbn [buf pos].
  match goal with
  | |- context [_preload_entries _ es ?s] =>
      destruct (IH s) as (stream' & -> & Hb)
  end.
  cbn [bind buf] in *. eauto.
Qed.

Lemma _parse_sections_loop_inv budget self stream self' stream' :
  _parse_sections_loop budget self stream = Ok (self', stream') →
  sections_framed self →
  sections_framed self' ∧ endian self' = endian self ∧
  audio_entries self' = audio_entries self ∧ buf stream' = buf stream.
Proof.
  revert self stream. induction budget as [|budget IH]; intros self stream;
    [done|].
  cbn [_parse_sections_loop]. unfold read; cbn [buf pos].
  case_decide; [by intros [= <- <-]|].
  case_decide; [by intros [= <- <-]|].
  destruct (unpack_u32 _ _) as [size|] eqn:Hu; [|done]. cbn [bind].
  case_decide as Hdata.
  { intros [= <- <-] Hfr. done. }
  intros Hloop Hfr. apply IH in Hloop as (? & ? & ? & ?); [done|].
  intros k sec. unfold set_section; cbn [sections].
  intros [[<- <-]|[_ Hk]]%lookup_insert_Some; [|by apply Hfr].
  cbn. split; [done|].
  rewrite length_take.
  unfold unpack_u32 in Hu. case_decide; [|done]. injection Hu as <-.
  match goal with
  | |- context [le_value ?bs] => pose proof (le_value_bound bs) as Hb
  end.
  rewrite length_in_order in Hb.
  match type of Hb with
  | _ < 256 ^ N.of_nat ?n => replace n with 4%nat in Hb by done
  end.
  change (256 ^ N.of_nat 4) with (2 ^ 32) in Hb. lia.
Qed.

Lemma didx_entries_bounds en didx :
  Forall (λ e, AudioEntry.id e < 2 ^ 32 ∧ AudioEntry.size e < 2 ^ 32 ∧
               AudioEntry.replacement_path e = None)
    (didx_entries en didx).
Proof.
  apply Forall_fmap, Forall_forall. intros i _. cbn.
  assert (∀ bs, (length bs ≤ 4)%nat → le_value (in_order en bs) < 2 ^ 32) as Hb.
  { intros bs Hl. pose proof (le_value_bound (in_order en bs)) as Hb.
    rewrite length_in_order in Hb.
    assert (256 ^ N.of_nat (length bs) ≤ 256 ^ 4)
      by (apply N.pow_le_mono_r; lia).
    change (256 ^ 4) with (2 ^ 32) in *. lia. }
  split_and!; [apply Hb|apply Hb|done]; rewrite length_take; lia.
Qed.

(** What a successful load has established. *)
Lemma load_inv file en self :
  load file en = Ok self →
  endian self = en ∧ sections_framed self ∧
  Forall entry_loaded (audio_entries self) ∧
  (∃ didx data_offset,
     sections self !! "DIDX" = Some didx ∧
     (audio_entries self ≠ [] → _data_offset self = Some data_offset) ∧
     audio_entries self =
       preloaded file data_offset
         <$> didx_entries en (SoundbankSection.data didx)).
Proof.
  unfold load, _parse_sections.
  destruct (_parse_sections_loop _ _ _) as [[s1 st1]|] eqn:Hloop; [|done].
  apply _parse_sections_loop_inv in Hloop as (Hfr & Hen & Hes & Hbuf).
  2:{ intros k sec Hk. cbn [sections] in Hk. by rewrite lookup_empty in Hk. }
  cbn [bind]. unfold read_all. cbn [bind].
  set (s2 := set_trailing _ s1).
  destruct (sections s1 !! "DIDX") as [didx|] eqn:Hdidx.
  2:{ unfold _extract_audio_catalog, s2. cbn [sections set_trailing].
      by rewrite Hdidx. }
  rewrite (_extract_audio_catalog_spec s2 didx) by done. cbn [bind].
  unfold _preload_audio_data, s2.
  cbn [_data_offset audio_entries set_audio_entries set_trailing endian sections].
  rewrite Hes, Hen. cbn [app audio_entries endian].
  destruct (_data_offset s1) as [off|] eqn:Hoff.
  - match goal with
    | |- context [_preload_entries _ ?es ?s] =>
        destruct (_preload_entries_Ok off es s) as (st' & -> & Hb')
    end.
    cbn [bind buf] in *. intros [= <-].
    cbn [endian sections audio_entries _data_offset set_audio_entries].
    rewrite Hbuf. cbn [buf].
    split_and!; [done|done| |].
    + apply Forall_fmap.
      eapply Forall_impl; [apply didx_entries_bounds|].
      intros e (? & ? & ?). unfold entry_loaded, preloaded; cbn. eauto.
    + by exists didx, off.
  - destruct (didx_entries en (SoundbankSection.data didx)) as [|e es] eqn:Hde;
      [|done].
    cbn [_preload_entries bind]. intros [= <-].
    cbn [endian sections audio_entries _data_offset set_audio_entries].
    split_and!; [done|done|constructor|].
    exists didx, 0%nat. rewrite Hde. done.
Qed.
End loading.
(** ** Saving, and loading what was saved *)

Section save_load.
Import WwiseSoundbank.

Lemma serialize_chunk m d en :
  N.of_nat (length d) < 2 ^ 32 →
  SoundbankSection.serialize
    {| SoundbankSection.magic := m; SoundbankSection.data := d |} en
  = Ok (chunk_with en m d).
Proof. intros. by apply serialize_Ok. Qed.

(** [save] completes exactly when the header, every size and every payload
    can be had and framed, and then the file is the three chunks and the
    trailing bytes. *)
Lemma save_Ok fs self out :
  save fs self = (out, Ok ()) ↔
  ∃ hdr sizes payloads,
    header_chunk self = Ok hdr ∧
    Forall2 (λ e s, AudioEntry.final_size fs e = Ok s) (audio_entries self) sizes ∧
    Forall2 (λ e p, entry_payload fs e = Ok p) (audio_entries self) payloads ∧
    let written := written_index (zip (index_ids self) sizes) 0 in
    Forall packable written ∧
    N.of_nat (length (index_body (endian self) written)) < 2 ^ 32 ∧
    N.of_nat (length (concat payloads)) < 2 ^ 32 ∧
    out = hdr ++ chunk_with (endian self) "DIDX" (index_body (endian self) written)
              ++ chunk_with (endian self) "DATA" (concat payloads)
              ++ _trailing_data self.
Proof.
  unfold save. fold (header_chunk self).
  unfold _rebuild_audio_index, _serialize_audio_data, index_ids. split.
  - destruct (header_chunk self) as [hdr|]; [|by intros [= _ ?]].
    destruct (_rebuild_loop _ _ _ _ _) as [didx|] eqn:Hr; [|by intros [= _ ?]].
    apply _rebuild_loop_Ok in Hr as (sizes & Hs & Hpk & ->).
    cbn [bind app].
    destruct (SoundbankSection.serialize _ _) as [dc|] eqn:Hdc;
      [|by intros [= _ ?]].
    apply serialize_Ok in Hdc as [Hdl ->].
    destruct (_serialize_loop _ _ _) as [audio|] eqn:Ha; [|by intros [= _ ?]].
    apply _serialize_loop_Ok in Ha as (payloads & Hp & ->).
    cbn [bind app].
    destruct (SoundbankSection.serialize _ _) as [ac|] eqn:Hac;
      [|by intros [= _ ?]].
    apply serialize_Ok in Hac as [Hal ->].
    cbn [SoundbankSection.magic SoundbankSection.data] in Hdl, Hal |- *.
    intros [= <-].
    exists hdr, sizes, payloads. split_and!; try done.
    by rewrite <- !app_assoc.
  - intros (hdr & sizes & payloads & -> & Hs & Hp & Hpk & Hdl & Hal & ->).
    rewrite (proj2 (_rebuild_loop_Ok fs _ _ [] 0 _)
               (ex_intro _ sizes (conj Hs (conj Hpk eq_refl)))).
    cbn [bind app].
    rewrite serialize_chunk by done.
    rewrite (proj2 (_serialize_loop_Ok fs _ [] _)
               (ex_intro _ payloads (conj Hp eq_refl))).
    cbn [bind app].
    rewrite serialize_chunk by done.
    by rewrite <- !app_assoc.
Qed.

(** A bank that was saved loads again, with the index that was written and
    each payload read from where the index says. *)
Lemma load_saved fs self out :
  sections_framed self →
  save fs self = (out, Ok ()) →
  ∃ sizes payloads self' data_offset,
    Forall2 (λ e s, AudioEntry.final_size fs e = Ok s) (audio_entries self) sizes ∧
    Forall2 (λ e p, entry_payload fs e = Ok p) (audio_entries self) payloads ∧
    load out (endian self) = Ok self' ∧
    sections self' !! "BKHD" = sections self !! "BKHD" ∧
    _trailing_data self' = _trailing_data self ∧
    _data_size self' = Some (N.of_nat (length (concat payloads))) ∧
    _data_offset self' = Some data_offset ∧
    drop data_offset out = concat payloads ++ _trailing_data self ∧
    audio_entries self' =
      preloaded out data_offset
        <$> written_index (zip (index_ids self) sizes) 0.
Proof.
  intros Hfr (hdr & sizes & payloads & Hh & Hs & Hp & Hpk & Hdl & Hal & ->)%save_Ok.
  set (en := endian self) in *.
  set (written := written_index (zip (index_ids self) sizes) 0) in *.
  set (body := index_body en written) in *.
  set (audio := concat payloads) in *.
  pose (hs := match sections self !! "BKHD" with
              | Some sec => [("BKHD", SoundbankSection.data sec)]
              | None => []
              end).
  assert (hdr = chunks_with en hs ∧ Forall stored_chunk hs ∧
          sections (store_sections hs (new_soundbank en)) !! "BKHD"
            = sections self !! "BKHD"
          ∧ True) as (-> & Hhs & Hb & _).
  { unfold header_chunk, hs in *.
    destruct (sections self !! "BKHD") as [sec|] eqn:Hsec.
    - apply serialize_Ok in Hh as [Hl ->]. destruct (Hfr _ _ Hsec) as [Hm _].
      fold en. rewrite Hm.
      split_and!; [|apply Forall_cons; split; [split; [by left|done]|constructor]
                   | |done].
      + unfold chunks_with. cbn [fmap list_fmap concat fst snd].
        by rewrite app_nil_r.
      + cbn. rewrite lookup_insert_eq. destruct sec; cbn in *; by subst.
    - injection Hh as <-. split_and!; [done|constructor|done|done]. }
  pose (cs := hs ++ [("DIDX", body)]).
  assert (Forall stored_chunk cs) as Hcs.
  { apply Forall_app. split; [done|].
    apply Forall_cons; split; [split; [by right; left|done]|constructor]. }
  set (rest := encode_ascii "DATA" ++ in_order en (le_digits 4 (N.of_nat (length audio)))
                 ++ (audio ++ _trailing_data self)).
  assert (chunks_with en hs ++ chunk_with en "DIDX" body
            ++ chunk_with en "DATA" audio ++ _trailing_data self
          = chunks_with (endian (new_soundbank en)) cs ++ rest) as Hout.
  { unfold cs, chunks_with, rest, chunk_with. cbn [endian new_soundbank].
    rewrite fmap_app, concat_app. cbn [fmap list_fmap concat fst snd].
    by rewrite app_nil_r, <- !app_assoc. }
  rewrite Hout.
  destruct (_parse_sections_data (new_soundbank en) cs rest Hcs
              (N.of_nat (length audio)) (audio ++ _trailing_data self)
              eq_refl Hal) as (stream' & Hps & Hbuf).
  exists sizes, payloads. eexists.
  exists (length (chunks_with en cs) + 8)%nat.
  split; [done|]. split; [done|].
  assert (drop (length (chunks_with en cs) + 8)
            (chunks_with (endian (new_soundbank en)) cs ++ rest)
          = audio ++ _trailing_data self) as Hdrop.
  { cbn [endian new_soundbank]. rewrite <- drop_drop, drop_app_length.
    unfold rest. rewrite app_assoc.
    rewrite drop_app_length'; [done|].
    by rewrite length_app, length_in_order, length_le_digits. }
  assert (sections (store_sections cs (new_soundbank en)) !! "DIDX"
          = Some {| SoundbankSection.magic := "DIDX";
                    SoundbankSection.data := body |}) as Hdidx.
  { unfold cs, store_sections. rewrite foldl_app. cbn.
    by rewrite lookup_insert_eq. }
  unfold load. fold (new_soundbank en). fold (open_ (chunks_with (endian (new_soundbank en)) cs ++ rest)).
  rewrite Hps. cbn [bind].
  erewrite _extract_audio_catalog_spec by exact Hdidx. cbn [bind].
  unfold _preload_audio_data.
  cbn [_data_offset audio_entries set_audio_entries set_trailing set_data_chunk
         endian SoundbankSection.data].
  rewrite endian_store_sections. cbn [endian new_soundbank].
  rewrite audio_entries_store_sections. cbn [audio_entries new_soundbank app].
  assert (didx_entries en body = written) as ->.
  { apply didx_entries_index_body, Forall_forall. intros e He.
    pose proof (proj1 (Forall_forall _ _) Hpk e He) as H1.
    pose proof (proj1 (Forall_forall _ _) (written_index_plain _ _) e He)
      as [H2 H3].
    by split_and!. }
  match goal with
  | |- context [_preload_entries (Some ?D) ?es ?s] =>
      destruct (_preload_entries_Ok D es s) as (st' & -> & Hb')
  end.
  cbn [bind]. split; [reflexivity|].
  cbn [sections _trailing_data _data_size _data_offset audio_entries
         set_audio_entries set_trailing set_data_chunk].
  rewrite Hbuf. cbn [endian new_soundbank] in *.
  split_and!; try done.
  - unfold cs, store_sections in *. rewrite foldl_app. cbn.
    rewrite lookup_insert_ne by done. exact Hb.
  - by rewrite Nat2N.id, drop_app_length.
Qed.
End save_load.
(** ** The written index and the payloads behind it *)

Lemma written_index_ids recs off :
  AudioEntry.id <$> written_index recs off = recs.*1.
Proof.
  revert off. induction recs as [|[i s] recs IH]; intros off; [done|].
  cbn [written_index]. rewrite !fmap_cons. cbn. by rewrite IH.
Qed.

Lemma written_index_sizes recs off :
  AudioEntry.size <$> written_index recs off = recs.*2.
Proof.
  revert off. induction recs as [|[i s] recs IH]; intros off; [done|].
  cbn [written_index]. rewrite !fmap_cons. cbn. by rewrite IH.
Qed.

(** Every written offset is the sum of the sizes written before it. *)
Lemma written_index_offset recs off i e :
  written_index recs off !! i = Some e →
  AudioEntry.offset e =
    off + sum_N (AudioEntry.size <$> take i (written_index recs off)).
Proof.
  revert off i. induction recs as [|[j s] recs IH]; intros off i; [done|].
  cbn [written_index]. destruct i as [|i].
  - intros [= <-]. cbn. lia.
  - cbn [lookup list_lookup take]. intros He%IH. rewrite He.
    rewrite fmap_cons. cbn [sum_N foldr AudioEntry.size]. unfold sum_N. lia.
Qed.

Lemma preloaded_ids file D (es : list AudioEntry.t) :
  AudioEntry.id <$> (preloaded file D <$> es) = AudioEntry.id <$> es.
Proof. rewrite <- list_fmap_compose. by apply list_fmap_ext. Qed.

Lemma preloaded_sizes file D (es : list AudioEntry.t) :
  AudioEntry.size <$> (preloaded file D <$> es) = AudioEntry.size <$> es.
Proof. rewrite <- list_fmap_compose. by apply list_fmap_ext. Qed.

Lemma preloaded_offsets file D (es : list AudioEntry.t) :
  AudioEntry.offset <$> (preloaded file D <$> es) = AudioEntry.offset <$> es.
Proof. rewrite <- list_fmap_compose. by apply list_fmap_ext. Qed.

(** When each written size is the length of its payload, reading the
    entries back from the concatenated payloads returns each payload. *)
Lemma preloaded_tiled file D recs payloads tail off :
  Forall2 (λ r p, r.2 = N.of_nat (length p)) recs payloads →
  drop (D + N.to_nat off) file = concat payloads ++ tail →
  AudioEntry.data <$> (preloaded file D <$> written_index recs off)
  = Some <$> payloads.
Proof.
  intros HF. revert off.
  induction HF as [|[i s] p recs payloads Hs _ IH]; intros off Hd; [done|].
  cbn [written_index]. rewrite !fmap_cons. cbn [snd] in Hs. subst s. f_equal.
  - unfold preloaded. cbn. rewrite Hd, Nat2N.id. cbn [concat].
    rewrite <- app_assoc. by rewrite take_app_length.
  - apply IH.
    replace (D + N.to_nat (off + N.of_nat (length p)))%nat
      with (D + N.to_nat off + length p)%nat by lia.
    rewrite <- drop_drop, Hd. cbn [concat].
    rewrite <- app_assoc. by rewrite drop_app_length.
Qed.

Lemma sum_N_app l k : sum_N (l ++ k) = sum_N l + sum_N k.
Proof. unfold sum_N. induction l as [|x l IH]; cbn; [done|]. rewrite IH. lia. Qed.

Lemma length_concat_sum (payloads : list bytes) :
  N.of_nat (length (concat payloads)) = sum_N (N.of_nat ∘ length <$> payloads).
Proof.
  induction payloads as [|p ps IH]; [done|].
  cbn [concat]. rewrite length_app, fmap_cons. cbn [sum_N foldr compose].
  unfold sum_N in IH. lia.
Qed.

(** Offsets and sizes written for payloads of a total length that fits a
    u32 all fit a u32. *)
Lemma written_index_packable recs off :
  Forall (λ r, r.1 < 2 ^ 32) recs →
  off + sum_N recs.*2 < 2 ^ 32 →
  Forall packable (written_index recs off).
Proof.
  revert off. induction recs as [|[i s] recs IH]; intros off Hi Hsum;
    [constructor|].
  apply Forall_cons in Hi as [Hi His]. rewrite fmap_cons in Hsum.
  cbn [snd sum_N foldr] in Hsum. fold (sum_N recs.*2) in Hsum.
  cbn [written_index]. constructor.
  - unfold packable; cbn in *. lia.
  - apply IH; [done|]. lia.
Qed.
(** ** Banks a caller can hold *)

Section reachable.
Import WwiseSoundbank.

Lemma replace_audio_inv fs self audio_id p self' :
  replace_audio fs self audio_id p = Ok self' →
  endian self' = endian self ∧ sections self' = sections self ∧
  _trailing_data self' = _trailing_data self ∧
  ∃ i entry,
    find_audio_entry_at self audio_id = Some (i, entry) ∧
    audio_entries self' =
      <[i := AudioEntry.set_replacement_path p entry]> (audio_entries self).
Proof.
  unfold replace_audio.
  destruct (find_audio_entry_at self audio_id) as [[i entry]|]; [|done].
  destruct (exists_ fs p); [|done]. intros [= <-].
  cbn [endian sections _trailing_data audio_entries set_audio_entries].
  split_and!; [done|done|done|]. by exists i, entry.
Qed.

Lemma reachable_sections_framed self : reachable self → sections_framed self.
Proof.
  induction 1 as [file en self Hl|fs self audio_id p self' _ IH Hr].
  - by apply load_inv in Hl as (_ & ? & _).
  - apply replace_audio_inv in Hr as (_ & Hs & _).
    unfold sections_framed. by rewrite Hs.
Qed.

(** The size written for an entry is the length of the bytes written for
    it, for a replacement always, and for an original payload when it is of
    its declared size. *)
Lemma sizes_match fs es sizes payloads :
  Forall2 (λ e s, AudioEntry.final_size fs e = Ok s) es sizes →
  Forall2 (λ e p, entry_payload fs e = Ok p) es payloads →
  Forall (λ e, AudioEntry.replacement_path e = None →
               ∃ d, AudioEntry.data e = Some d ∧
                    N.of_nat (length d) = AudioEntry.size e) es →
  Forall2 (λ s p, s = N.of_nat (length p)) sizes payloads.
Proof.
  intros Hs. revert payloads.
  induction Hs as [|e s es sizes Hf _ IH]; intros payloads Hp Hb.
  { apply Forall2_nil_inv_l in Hp as ->. constructor. }
  apply Forall2_cons_inv_l in Hp as (p & ps & Hp & Hps & ->).
  apply Forall_cons in Hb as [Hb Hbs]. constructor; [|by apply IH].
  unfold AudioEntry.final_size, entry_payload, stat_size, read_file in *.
  destruct (AudioEntry.replacement_path e) as [path|].
  - destruct (fs !! path) as [[c|n]|]; congruence.
  - destruct Hb as (d & Hd & Hl); [done|]. rewrite Hd in Hp. congruence.
Qed.
End reachable.
(** ** Sizes and payloads *)

Lemma sum_N_sizes_payloads sizes (payloads : list bytes) :
  Forall2 (λ s p, s = N.of_nat (length p)) sizes payloads →
  sum_N sizes = N.of_nat (length (concat payloads)).
Proof.
  induction 1 as [|s p sizes payloads -> _ IH]; [done|].
  cbn [sum_N foldr concat]. rewrite length_app. unfold sum_N in IH. lia.
Qed.

Lemma zip_ids_sizes (es : list AudioEntry.t) (sizes : list N) (P : AudioEntry.t → N → Prop) :
  Forall2 P es sizes →
  (zip (AudioEntry.id <$> es) sizes).*1 = AudioEntry.id <$> es ∧
  (zip (AudioEntry.id <$> es) sizes).*2 = sizes.
Proof.
  intros Hl%Forall2_length. split.
  - apply fst_zip. rewrite length_fmap. lia.
  - apply snd_zip. rewrite length_fmap. lia.
Qed.


Section sizes.
Import WwiseSoundbank.

Lemma Forall2_functional {A B} (F : A → result B) (g : A → B) es l :
  Forall2 (λ e s, F e = Ok s) es l →
  Forall (λ e, F e = Ok (g e)) es →
  l = g <$> es.
Proof.
  induction 1 as [|e s es l He _ IH]; [done|].
  intros [Hg Hgs]%Forall_cons. rewrite fmap_cons.
  f_equal; [congruence|by apply IH].
Qed.

Lemma loaded_final_sizes fs es :
  Forall entry_loaded es →
  Forall (λ e, AudioEntry.final_size fs e = Ok (AudioEntry.size e)) es.
Proof.
  intros H. eapply Forall_impl; [exact H|]. intros e (_ & _ & _ & Hr).
  unfold AudioEntry.final_size. by rewrite Hr.
Qed.

Lemma loaded_payloads fs es :
  Forall entry_loaded es →
  Forall (λ e, entry_payload fs e = Ok (default [] (AudioEntry.data e))) es.
Proof.
  intros H. eapply Forall_impl; [exact H|]. intros e (_ & _ & [d Hd] & Hr).
  unfold entry_payload. by rewrite Hr, Hd.
Qed.

Lemma Forall2_fmap_same {A B} (F : A → result B) (g : A → B) (es : list A) :
  Forall (λ e, F e = Ok (g e)) es →
  Forall2 (λ e s, F e = Ok s) es (g <$> es).
Proof. induction 1; rewrite ?fmap_cons; by constructor. Qed.

(** Consecutive slices make up one slice. *)
Lemma tiles_concat (file : bytes) D (es : list AudioEntry.t) off :
  (∀ i e, es !! i = Some e →
     AudioEntry.offset e = off + sum_N (AudioEntry.size <$> take i es)) →
  concat ((λ e, take (N.to_nat (AudioEntry.size e))
                  (drop (D + N.to_nat (AudioEntry.offset e)) file)) <$> es)
  = take (N.to_nat (sum_N (AudioEntry.size <$> es)))
      (drop (D + N.to_nat off) file).
Proof.
  revert off. induction es as [|e es IH]; intros off Hoff; [done|].
  rewrite !fmap_cons. cbn [concat sum_N foldr].
  fold (sum_N (AudioEntry.size <$> es)).
  pose proof (Hoff 0%nat e eq_refl) as He. cbn in He.
  rewrite (IH (off + AudioEntry.size e)).
  2:{ intros i e' Hi. rewrite (Hoff (S i) e' Hi).
      cbn [take]. rewrite fmap_cons. cbn [sum_N foldr]. unfold sum_N. lia. }
  replace (AudioEntry.offset e) with off by lia.
  replace (D + N.to_nat (off + AudioEntry.size e))%nat
    with (D + N.to_nat off + N.to_nat (AudioEntry.size e))%nat by lia.
  rewrite <- (drop_drop file (N.to_nat (AudioEntry.size e)) (D + N.to_nat off)).
  rewrite take_take_drop. f_equal. lia.
Qed.

(** Enough for [save] to complete: a framed header, an index that fits a
    size field, and sizes and payloads that can be had, with totals that
    fit a u32. *)
Lemma save_completes fs self sizes payloads :
  sections_framed self →
  N.of_nat (12 * length (audio_entries self)) < 2 ^ 32 →
  Forall (λ e, AudioEntry.id e < 2 ^ 32) (audio_entries self) →
  Forall2 (λ e s, AudioEntry.final_size fs e = Ok s) (audio_entries self) sizes →
  Forall2 (λ e p, entry_payload fs e = Ok p) (audio_entries self) payloads →
  sum_N sizes < 2 ^ 32 →
  N.of_nat (length (concat payloads)) < 2 ^ 32 →
  ∃ out, save fs self = (out, Ok ()).
Proof.
  intros Hfr Hn Hids Hs Hp Hsum Htot.
  assert (∃ hdr, header_chunk self = Ok hdr) as [hdr Hh].
  { unfold header_chunk. destruct (sections self !! "BKHD") as [sec|] eqn:Hsec;
      [|eauto].
    destruct (Hfr _ _ Hsec) as [_ Hl]. eexists. apply serialize_Ok. eauto. }
  destruct (zip_ids_sizes _ _ _ Hs) as [Hz1 Hz2].
  eexists. apply save_Ok. exists hdr, sizes, payloads.
  split; [done|]. split; [exact Hs|]. split; [exact Hp|].
  cbn zeta. split_and!; [| | |done].
  - apply written_index_packable.
    + apply Forall_forall. intros [i s] Hin.
      apply elem_of_zip_l in Hin. cbn [fst].
      apply list_elem_of_fmap in Hin as (e & -> & He).
      exact (proj1 (Forall_forall _ _) Hids e He).
    + unfold index_ids. rewrite Hz2. lia.
  - rewrite length_index_body.
    assert (length (written_index (zip (index_ids self) sizes) 0)
            = length (audio_entries self)) as ->; [|done].
    rewrite <- (length_fmap AudioEntry.id (written_index _ _)).
    rewrite written_index_ids. unfold index_ids. rewrite Hz1.
    by rewrite length_fmap.
  - exact Htot.
Qed.

(** What a load leaves in the index fits its DIDX section, and no payload is
    longer than its declared size. *)
Lemma load_index_fits file en self :
  load file en = Ok self →
  N.of_nat (12 * length (audio_entries self)) < 2 ^ 32 ∧
  Forall (λ e, ∀ d, AudioEntry.data e = Some d →
                    N.of_nat (length d) ≤ AudioEntry.size e)
    (audio_entries self).
Proof.
  intros (_ & Hfr & _ & didx & D0 & Hdidx & _ & Hes)%load_inv. split.
  - rewrite Hes, length_fmap, length_didx_entries.
    destruct (Hfr _ _ Hdidx) as [_ Hl].
    pose proof (Nat.div_mod_eq (length (SoundbankSection.data didx)) 12). lia.
  - rewrite Hes. apply Forall_fmap, Forall_forall. intros e _ d.
    unfold preloaded; cbn. intros [= <-]. rewrite length_take. lia.
Qed.

Lemma payloads_within_sizes (es : list AudioEntry.t) :
  Forall (λ e, ∀ d, AudioEntry.data e = Some d →
                    N.of_nat (length d) ≤ AudioEntry.size e) es →
  N.of_nat (length (concat ((λ e, default [] (AudioEntry.data e)) <$> es)))
  ≤ sum_N (AudioEntry.size <$> es).
Proof.
  induction 1 as [|e es He _ IH]; [done|].
  rewrite !fmap_cons. cbn [concat sum_N foldr]. rewrite length_app.
  fold (sum_N (AudioEntry.size <$> es)).
  destruct (AudioEntry.data e) as [d|]; cbn [default from_option id].
  - specialize (He d eq_refl). lia.
  - cbn [length]. lia.
Qed.

End sizes.
(** ** Queuing a plan *)

Section queue.
Import WwiseSoundbank.

Lemma first_index_ids a b audio_id :
  index_ids a = index_ids b → first_index a audio_id = first_index b audio_id.
Proof.
  assert (∀ s, first_index s audio_id
             = fst <$> list_find (λ x, x = audio_id) (index_ids s)) as H.
  { intros s. unfold first_index, find_audio_entry_at, index_ids.
    rewrite list_find_fmap.
    change (list_find ((λ x, x = audio_id) ∘ AudioEntry.id) (audio_entries s))
      with (list_find (λ e, AudioEntry.id e = audio_id) (audio_entries s)).
    by destruct (list_find _ (audio_entries s)) as [[i e]|]. }
  intros Hab. by rewrite !H, Hab.
Qed.

Lemma first_index_Some self audio_id i :
  first_index self audio_id = Some i ↔
  ∃ e, find_audio_entry_at self audio_id = Some (i, e).
Proof.
  unfold first_index.
  destruct (find_audio_entry_at self audio_id) as [[j e]|]; cbn; split.
  - intros [= ->]. eauto.
  - intros (e' & [= -> _]). done.
  - done.
  - intros (? & ?). done.
Qed.

Lemma index_ids_replaced self i entry p :
  audio_entries self !! i = Some entry →
  AudioEntry.id <$> <[i := AudioEntry.set_replacement_path p entry]> (audio_entries self)
  = index_ids self.
Proof.
  intros Hi. unfold index_ids. rewrite list_fmap_insert. cbn.
  apply list_insert_id. by rewrite list_lookup_fmap, Hi.
Qed.

(** What a plan leaves on a bank: nothing but replacement paths changes,
    and the first entry of each ID carries the last path the plan has for
    that ID. *)
Lemma queue_all_inv fs R self0 self :
  queue_all fs R self0 = Ok self →
  endian self = endian self0 ∧ sections self = sections self0 ∧
  _trailing_data self = _trailing_data self0 ∧
  index_ids self = index_ids self0 ∧
  ∀ i e0, audio_entries self0 !! i = Some e0 →
    ∃ e, audio_entries self !! i = Some e ∧
      AudioEntry.id e = AudioEntry.id e0 ∧
      AudioEntry.size e = AudioEntry.size e0 ∧
      AudioEntry.data e = AudioEntry.data e0 ∧
      AudioEntry.replacement_path e =
        match (if decide (first_index self0 (AudioEntry.id e0) = Some i)
               then last_queued R (AudioEntry.id e0) else None) with
        | Some p => Some p
        | None => AudioEntry.replacement_path e0
        end.
Proof.
  revert self0. induction R as [|[a p] R IH]; intros self0; cbn [queue_all].
  { intros [= <-]. split_and!; try done. intros i e0 Hi. exists e0.
    split_and!; try done. cbn. by case_decide. }
  destruct (replace_audio fs self0 a p) as [s1|] eqn:Hr; [|done]. cbn [bind].
  apply replace_audio_inv in Hr as (Hen & Hsec & Htr & j & ej & Hf & Hes1).
  pose proof Hf as (Hj & Hja & _)%list_find_Some.
  assert (index_ids s1 = index_ids self0) as Hids.
  { unfold index_ids at 1. rewrite Hes1. by apply index_ids_replaced. }
  intros (Hen' & Hsec' & Htr' & Hids' & Hall)%IH.
  split_and!; [congruence..|].
  intros i e0 Hi.
  assert (∃ e1, audio_entries s1 !! i = Some e1 ∧
                AudioEntry.id e1 = AudioEntry.id e0 ∧
                AudioEntry.size e1 = AudioEntry.size e0 ∧
                AudioEntry.data e1 = AudioEntry.data e0 ∧
                AudioEntry.replacement_path e1 =
                  if decide (i = j) then Some p
                  else AudioEntry.replacement_path e0)
    as (e1 & Hi1 & Hid1 & Hsz1 & Hd1 & Hrp1).
  { rewrite Hes1. destruct (decide (i = j)) as [->|Hne].
    - assert (e0 = ej) as -> by congruence.
      exists (AudioEntry.set_replacement_path p ej). split_and!; try done.
      apply list_lookup_insert_eq. by eapply lookup_lt_Some.
    - exists e0. by rewrite list_lookup_insert_ne. }
  destruct (Hall i e1 Hi1) as (e & He & Hid & Hsz & Hd & Hrp).
  exists e. split_and!; [done|congruence..|].
  rewrite Hrp, Hid1, (first_index_ids s1 self0) by done.
  cbn [last_queued].
  destruct (decide (first_index self0 (AudioEntry.id e0) = Some i)) as [Hfirst|Hfirst].
  - destruct (last_queued R (AudioEntry.id e0)) as [q|]; [done|].
    rewrite Hrp1. destruct (decide (a = AudioEntry.id e0)) as [->|Hne].
    + apply first_index_Some in Hfirst as (e' & Hf').
      assert (i = j) as -> by congruence. by rewrite decide_True.
    + rewrite decide_False; [done|]. intros ->.
      assert (e0 = ej) by congruence. subst. done.
  - rewrite Hrp1. rewrite decide_False; [done|]. intros ->.
    apply Hfirst, first_index_Some. assert (e0 = ej) as -> by congruence.
    rewrite Hja. eauto.
Qed.
End queue.
(** ** When [save] completes *)

Section replacement_law.
Import WwiseSoundbank.

(** Enough for [save] to complete. *)
Lemma save_Ok_intro fs self :
  sections_framed self →
  N.of_nat (12 * length (audio_entries self)) < 2 ^ 32 →
  Forall (λ e, AudioEntry.id e < 2 ^ 32 ∧
               ∃ p, entry_payload fs e = Ok p ∧
                    AudioEntry.final_size fs e = Ok (N.of_nat (length p)))
    (audio_entries self) →
  N.of_nat (length (concat (final_payloads fs self))) < 2 ^ 32 →
  ∃ out, save fs self = (out, Ok ()).
Proof.
  intros Hfr Hn Hes Htot.
  set (gp := λ e, default [] (to_option (entry_payload fs e))).
  set (gs := λ e, N.of_nat (length (gp e))).
  assert (Forall2 (λ e p, entry_payload fs e = Ok p) (audio_entries self)
            (gp <$> audio_entries self)) as Hp.
  { apply Forall2_fmap_same. eapply Forall_impl; [exact Hes|].
    intros e (_ & p & Hp & _). unfold gp. by rewrite Hp. }
  assert (Forall2 (λ e s, AudioEntry.final_size fs e = Ok s) (audio_entries self)
            (gs <$> audio_entries self)) as Hs.
  { apply Forall2_fmap_same. eapply Forall_impl; [exact Hes|].
    intros e (_ & p & Hp' & Hf). unfold gs, gp. by rewrite Hp'. }
  assert (Forall2 (λ s p, s = N.of_nat (length p)) (gs <$> audio_entries self)
            (gp <$> audio_entries self)) as Hm.
  { apply Forall2_fmap, Forall_Forall2_diag, Forall_forall. by intros. }
  apply (save_completes fs self (gs <$> audio_entries self)
           (gp <$> audio_entries self) Hfr Hn); [|exact Hs|exact Hp| |exact Htot].
  - eapply Forall_impl; [exact Hes|]. by intros e [? _].
  - by rewrite (sum_N_sizes_payloads _ _ Hm).
Qed.
End replacement_law.
(** ** The bounds of the modelled loops are never reached *)

Lemma within_budget_Ok {A} (a : A) : within_budget (Ok a).
Proof. done. Qed.

Lemma within_budget_Raise {A} e : e ≠ LoopBudget → within_budget (@Raise A e).
Proof. unfold within_budget. congruence. Qed.

Lemma within_budget_bind {A B} (r : result A) (k : A → result B) :
  within_budget r → (∀ a, within_budget (k a)) → within_budget (bind r k).
Proof. destruct r; cbn; [auto|]. unfold within_budget. congruence. Qed.

Lemma within_budget_unpack_from_u32 data pos :
  within_budget (unpack_from_u32 data pos).
Proof. unfold unpack_from_u32. by case_decide. Qed.

Lemma within_budget_unpack_from_u16 data pos :
  within_budget (unpack_from_u16 data pos).
Proof. unfold unpack_from_u16. by case_decide. Qed.

Lemma within_budget_byte_at data pos : within_budget (byte_at data pos).
Proof. unfold byte_at. by destruct (data !! pos). Qed.

Lemma within_budget_unpack_u32 en bs : within_budget (unpack_u32 en bs).
Proof. unfold unpack_u32. by case_decide. Qed.

Create HintDb budget discriminated.

#[local] Hint Resolve within_budget_Ok within_budget_unpack_from_u32
  within_budget_unpack_from_u16 within_budget_byte_at
  within_budget_unpack_u32 : budget.

(** Walks a body made of binds, tests and the reads above. *)
Ltac within_budget_step :=
  first
    [ apply within_budget_Ok
    | apply within_budget_Raise; discriminate
    | solve [auto with budget]
    | apply within_budget_bind; [|intros ?]
    | case_decide
    | match goal with
      | p : (_ * _)%type |- _ => destruct p
      end; cbn beta iota ].

Ltac within_budget := repeat within_budget_step.

Lemma within_budget_unpack_from_i16 data pos :
  within_budget (unpack_from_i16 data pos).
Proof. unfold unpack_from_i16. within_budget. Qed.

Lemma within_budget_unpack_from_i32 data pos :
  within_budget (unpack_from_i32 data pos).
Proof. unfold unpack_from_i32. within_budget. Qed.

Lemma within_budget_unpack_u32x3 en bs : within_budget (unpack_u32x3 en bs).
Proof. unfold unpack_u32x3. within_budget. Qed.

#[local] Hint Resolve within_budget_unpack_from_i16
  within_budget_unpack_from_i32 within_budget_unpack_u32x3 : budget.

Lemma within_budget_for_each {A S} (xs : list A) (body : A → S → result S) s :
  (∀ x s, within_budget (body x s)) → within_budget (for_each xs body s).
Proof.
  intros Hb. revert s. induction xs as [|x xs IH]; intros s; cbn [for_each];
    within_budget; auto.
Qed.

Lemma within_budget_collect {A} n (f : nat → result A) :
  (∀ i, within_budget (f i)) → within_budget (collect n f).
Proof. intros Hf. induction n as [|n IH]; cbn [collect]; within_budget; auto. Qed.

Section patcher_budget.
Import WwiseSoundbank.

Lemma within_budget_load file en : within_budget (load file en).
Proof.
  unfold load, _parse_sections. apply within_budget_bind.
  - apply within_budget_bind; [|intros [s st]; unfold read_all; within_budget].
    apply _parse_sections_loop_budget. cbn [buf pos]. lia.
  - intros [s st]. apply within_budget_bind.
    + unfold _extract_audio_catalog.
      destruct (sections s !! "DIDX"); [|within_budget].
      apply within_budget_for_each. intros i s'. cbn zeta. within_budget.
    + intros s'. apply within_budget_bind; [|intros []; within_budget].
      unfold _preload_audio_data. apply within_budget_bind;
        [|intros []; within_budget].
      generalize st. induction (audio_entries s') as [|e es IH]; intros st';
        cbn [_preload_entries]; [within_budget|].
      destruct (_data_offset s'); [|within_budget].
      unfold read; cbn zeta. apply within_budget_bind; [apply IH|].
      intros []. within_budget.
Qed.
End patcher_budget.

Section parser_budget.
Import BankParser.

Lemma within_budget__read_varint_loop rest value bytes_read :
  within_budget (_read_varint_loop rest value bytes_read).
Proof.
  revert value bytes_read. induction rest as [|b rest IH]; intros;
    cbn [_read_varint_loop]; within_budget; auto.
Qed.

Lemma within_budget__read_varint data pos :
  within_budget (_read_varint data pos).
Proof. unfold _read_varint. apply within_budget__read_varint_loop. Qed.

#[local] Hint Resolve within_budget__read_varint : budget.

Lemma within_budget__parse_event self data pos size :
  within_budget (_parse_event self data pos size).
Proof.
  unfold _parse_event. within_budget.
  apply within_budget_collect. intros. within_budget.
Qed.

Lemma within_budget__parse_action self data pos size :
  within_budget (_parse_action self data pos size).
Proof. unfold _parse_action. within_budget. Qed.

Lemma within_budget__parse_sound self data pos size :
  within_budget (_parse_sound self data pos size).
Proof. unfold _parse_sound. within_budget. Qed.

#[local] Hint Resolve within_budget__parse_event within_budget__parse_action
  within_budget__parse_sound : budget.

Lemma within_budget__parse_children_loop n data pos end_pos children :
  within_budget (_parse_children_loop n data pos end_pos children).
Proof.
  revert pos children. induction n as [|n IH]; intros;
    cbn [_parse_children_loop]; within_budget; auto.
Qed.

Lemma within_budget__parse_playlist_loop n self data pos end_pos items :
  within_budget (_parse_playlist_loop n self data pos end_pos items).
Proof.
  revert pos items. induction n as [|n IH]; intros;
    cbn [_parse_playlist_loop]; within_budget; auto.
Qed.

#[local] Hint Resolve within_budget__parse_children_loop
  within_budget__parse_playlist_loop : budget.

Lemma within_budget__parse_container self data pos size :
  within_budget (_parse_container self data pos size).
Proof.
  unfold _parse_container, _parse_loop_counts, _parse_transition_times,
    _parse_avoid_repeat_count, _parse_modes_and_flags, _parse_children,
    _parse_playlist.
  within_budget.
Qed.

#[local] Hint Resolve within_budget__parse_container : budget.

Lemma within_budget__parse_didx_loop n self data pos end_pos :
  within_budget (_parse_didx_loop n self data pos end_pos).
Proof.
  revert self pos. induction n as [|n IH]; intros self pos;
    cbn [_parse_didx_loop]; within_budget; auto.
Qed.

Lemma within_budget__parse_hirc_loop n self data pos end_pos :
  within_budget (_parse_hirc_loop n self data pos end_pos).
Proof.
  revert self pos. induction n as [|n IH]; intros self pos;
    cbn [_parse_hirc_loop]; [within_budget|].
  apply within_budget_bind.
  - unfold _read_object_header. within_budget.
  - intros [[ty sz] cur]. apply within_budget_bind.
    + unfold _parse_object. within_budget.
    + intros self'. case_decide; [within_budget|apply IH].
Qed.

#[local] Hint Resolve within_budget__parse_didx_loop
  within_budget__parse_hirc_loop : budget.

Lemma within_budget__parse_didx self data pos size :
  within_budget (_parse_didx self data pos size).
Proof. unfold _parse_didx. within_budget. Qed.

Lemma within_budget__parse_hirc self data pos size :
  within_budget (_parse_hirc self data pos size).
Proof. unfold _parse_hirc. within_budget. Qed.

(** Both chunk parsers hand back the position right behind the declared
    size. *)
Lemma _parse_hirc_pos self data pos size self' pos' :
  _parse_hirc self data pos size = Ok (self', pos') →
  pos' = (pos + N.to_nat size)%nat.
Proof.
  unfold _parse_hirc. destruct (unpack_from_u32 data pos); [|done]. cbn [bind].
  destruct (_parse_hirc_loop _ _ _ _ _); [|done]. cbn [bind]. congruence.
Qed.

Lemma _parse_didx_pos self data pos size self' pos' :
  _parse_didx self data pos size = Ok (self', pos') →
  pos' = (pos + N.to_nat size)%nat.
Proof.
  unfold _parse_didx. destruct (_parse_didx_loop _ _ _ _ _); [|done].
  cbn [bind]. congruence.
Qed.

Lemma within_budget_parse_loop budget self data pos :
  (length data - pos ≤ budget)%nat →
  within_budget (parse_loop budget self data pos).
Proof.
  revert self pos. induction budget as [|budget IH]; intros self pos Hb.
  - cbn [parse_loop]. case_decide; [lia|within_budget].
  - cbn [parse_loop]. case_decide as Hlt; [|within_budget].
    unfold _read_chunk_header. case_decide as H8; cbn [bind].
    + rewrite !decide_False by done. apply IH. lia.
    + unfold unpack_from_u32. rewrite decide_True by (unfold gt in H8; lia).
      cbn [bind]. unfold gt in H8.
      case_decide.
      * destruct (_parse_hirc self data (pos + 8) _) as [[self' p']|e] eqn:Hh.
        -- apply _parse_hirc_pos in Hh as ->. cbn [bind]. apply IH. lia.
        -- pose proof (within_budget__parse_hirc self data (pos + 8)
                         (le_value (slice data (pos + 4) (pos + 4 + 4)))) as Hw.
           rewrite Hh in Hw. unfold within_budget in *. cbn [bind].
           intros [= ->]. by apply Hw.
      * case_decide.
        -- destruct (_parse_didx self data (pos + 8) _) as [[self' p']|e] eqn:Hh.
           ++ apply _parse_didx_pos in Hh as ->. cbn [bind]. apply IH. lia.
           ++ pose proof (within_budget__parse_didx self data (pos + 8)
                            (le_value (slice data (pos + 4) (pos + 4 + 4)))) as Hw.
              rewrite Hh in Hw. unfold within_budget in *. cbn [bind].
              intros [= ->]. by apply Hw.
        -- apply IH. lia.
Qed.

Lemma within_budget_parse self data : within_budget (parse self data).
Proof.
  unfold parse. apply within_budget_bind.
  - unfold _parse_bkhd. within_budget.
  - intros [self' pos]. apply within_budget_parse_loop. lia.
Qed.
End parser_budget.
(** * What the calls can raise *)

Section raises_only.
Context {allowed : list Exn}.

Lemma raises_only_Ok {A} (a : A) : raises_only allowed (Ok a).
Proof. by intros e. Qed.

Lemma raises_only_Raise {A} e : e ∈ allowed → raises_only allowed (@Raise A e).
Proof. by intros He e' [= <-]. Qed.

Lemma raises_only_bind {A B} (r : result A) (k : A → result B) :
  raises_only allowed r → (∀ a, raises_only allowed (k a)) →
  raises_only allowed (bind r k).
Proof.
  intros Hr Hk. destruct r as [a|e]; cbn; [apply Hk|].
  intros e' [= <-]. by apply Hr.
Qed.

Lemma raises_only_unpack_from_u32 data pos :
  StructError ∈ allowed → raises_only allowed (unpack_from_u32 data pos).
Proof.
  intros. unfold unpack_from_u32.
  case_decide; [apply raises_only_Ok|by apply raises_only_Raise].
Qed.

Lemma raises_only_unpack_from_u16 data pos :
  StructError ∈ allowed → raises_only allowed (unpack_from_u16 data pos).
Proof.
  intros. unfold unpack_from_u16.
  case_decide; [apply raises_only_Ok|by apply raises_only_Raise].
Qed.

Lemma raises_only_unpack_u32 en bs :
  StructError ∈ allowed → raises_only allowed (unpack_u32 en bs).
Proof.
  intros. unfold unpack_u32.
  case_decide; [apply raises_only_Ok|by apply raises_only_Raise].
Qed.

Lemma raises_only_byte_at data pos :
  IndexError ∈ allowed → raises_only allowed (byte_at data pos).
Proof.
  intros. unfold byte_at.
  destruct (data !! pos); [apply raises_only_Ok|by apply raises_only_Raise].
Qed.

Lemma raises_only_for_each {A S} (xs : list A) (body : A → S → result S) s :
  (∀ x s, raises_only allowed (body x s)) →
  raises_only allowed (for_each xs body s).
Proof.
  intros Hb. revert s. induction xs as [|x xs IH]; intros s; cbn [for_each];
    [apply raises_only_Ok|].
  apply raises_only_bind; auto.
Qed.

Lemma raises_only_collect {A} n (f : nat → result A) :
  (∀ i, raises_only allowed (f i)) → raises_only allowed (collect n f).
Proof.
  intros Hf. induction n as [|n IH]; cbn [collect]; [apply raises_only_Ok|].
  apply raises_only_bind; [done|intros xs].
  apply raises_only_bind; [done|intros x]. apply raises_only_Ok.
Qed.
End raises_only.

Lemma raises_only_within_budget {A} allowed (r : result A) :
  raises_only (LoopBudget :: allowed) r → within_budget r →
  raises_only allowed r.
Proof.
  intros Hr Hw e He. specialize (Hr e He).
  apply elem_of_cons in Hr as [->|Hr]; [|done]. by destruct Hw.
Qed.

Create HintDb raises discriminated.

#[local] Hint Extern 1 (_ ∈ _) => solve [repeat constructor] : raises.
#[local] Hint Resolve raises_only_Ok raises_only_unpack_from_u32
  raises_only_unpack_from_u16 raises_only_unpack_u32 raises_only_byte_at
  : raises.

(** Walks a body made of binds, tests and the reads above. *)
Ltac raises_only_step :=
  first
    [ apply raises_only_Ok
    | apply raises_only_Raise; first [assumption | solve [repeat constructor]]
    | solve [auto with raises]
    | apply raises_only_bind; [|intros ?]
    | case_decide
    | match goal with
      | p : (_ * _)%type |- _ => destruct p
      end; cbn beta iota ].

Ltac raises_only := repeat raises_only_step.

Lemma raises_only_unpack_from_i16 allowed data pos :
  StructError ∈ allowed → raises_only allowed (unpack_from_i16 data pos).
Proof. intros. unfold unpack_from_i16. raises_only. Qed.

Lemma raises_only_unpack_from_i32 allowed data pos :
  StructError ∈ allowed → raises_only allowed (unpack_from_i32 data pos).
Proof. intros. unfold unpack_from_i32. raises_only. Qed.

Lemma raises_only_unpack_u32x3 allowed en bs :
  StructError ∈ allowed → raises_only allowed (unpack_u32x3 en bs).
Proof. intros. unfold unpack_u32x3. raises_only. Qed.

#[local] Hint Resolve raises_only_unpack_from_i16 raises_only_unpack_from_i32
  raises_only_unpack_u32x3 : raises.

Section patcher_raises.
Import WwiseSoundbank.

Lemma raises_only__parse_sections_loop budget self stream :
  raises_only [LoopBudget; StructError]
    (_parse_sections_loop budget self stream).
Proof.
  revert self stream. induction budget as [|budget IH]; intros self stream;
    cbn [_parse_sections_loop]; [raises_only|].
  unfold read; cbn zeta. raises_only.
Qed.

Lemma raises_only__parse_sections self stream :
  raises_only [StructError] (_parse_sections self stream).
Proof.
  apply raises_only_within_budget.
  - unfold _parse_sections. apply raises_only_bind;
      [apply raises_only__parse_sections_loop|].
    intros [s st]; unfold read_all; raises_only.
  - unfold _parse_sections. apply within_budget_bind.
    + apply _parse_sections_loop_budget. lia.
    + intros [s st]. unfold read_all. by cbn zeta.
Qed.

(** The index is cut into whole records, so unpacking one never fails. *)
Lemma raises_only__extract_audio_catalog self :
  raises_only [ValueError] (_extract_audio_catalog self).
Proof.
  intros e He. destruct (sections self !! "DIDX") as [sec|] eqn:Hsec.
  - by rewrite (_extract_audio_catalog_spec _ _ Hsec) in He.
  - unfold _extract_audio_catalog in He. rewrite Hsec in He.
    injection He as <-. repeat constructor.
Qed.

Lemma raises_only__preload_audio_data self stream :
  raises_only [AttributeError] (_preload_audio_data self stream).
Proof.
  unfold _preload_audio_data. apply raises_only_bind; [|intros []; raises_only].
  destruct (_data_offset self) as [off|].
  - destruct (_preload_entries_Ok off (audio_entries self) stream)
      as (stream' & -> & _). raises_only.
  - destruct (audio_entries self); cbn [_preload_entries]; raises_only.
Qed.
End patcher_raises.

Lemma raises_only_weaken {A} (l l' : list Exn) (r : result A) :
  raises_only l r → l ⊆ l' → raises_only l' r.
Proof. intros Hr Hl e He. apply Hl. by apply Hr. Qed.
(** ** What resolution finds *)

Section resolution.
Import BankParser.

Lemma _link_sound_to_audio_spec self sound_id audio_set src :
  src ∈ _link_sound_to_audio self sound_id audio_set ↔
  src ∈ audio_set ∨ sound_source self sound_id src.
Proof.
  unfold _link_sound_to_audio, sound_source.
  destruct (sounds self !! sound_id) as [s|] eqn:Hs.
  2:{ split; [by left|]. by intros [?|(s & [=] & _)]. }
  destruct (Sound.source_id s) as [source|] eqn:Hsrc.
  2:{ split; [by left|]. intros [?|(s' & [= <-] & ? & _)]; [done|congruence]. }
  case_decide as Hin.
  - rewrite elem_of_union, elem_of_singleton. split.
    + intros [? | ->]; [by left|]. right. by exists s.
    + intros [?|(s' & [= <-] & ? & _)]; [by left|]. right. congruence.
  - split; [by left|]. intros [?|(s' & [= <-] & ? & ?)]; [done|].
    destruct Hin. congruence.
Qed.

(** A loop that adds to a set what each item leads to. *)
Lemma for_each_adds {A} (xs : list A) (body : A → gset N → result (gset N))
    (R : A → N → Prop) audio_set audio_set' :
  (∀ x s s', x ∈ xs → body x s = Ok s' → ∀ src, src ∈ s' ↔ src ∈ s ∨ R x src) →
  for_each xs body audio_set = Ok audio_set' →
  ∀ src, src ∈ audio_set' ↔ src ∈ audio_set ∨ ∃ x, x ∈ xs ∧ R x src.
Proof.
  revert audio_set. induction xs as [|x xs IH]; intros audio_set Hb;
    cbn [for_each].
  { intros [= <-] src. split; [by left|]. intros [?|(x & Hx & _)]; [done|].
    by apply elem_of_nil in Hx. }
  destruct (body x audio_set) as [s1|] eqn:H1; [|done]. cbn [bind].
  intros Hrest src. rewrite (IH s1) by (eauto using list_elem_of_further).
  rewrite (Hb x audio_set s1) by (done || left). split.
  - intros [[?|?]|(y & Hy & ?)]; [by left| |].
    + right. exists x. split; [left|done].
    + right. exists y. split; [by right|done].
  - intros [?|(y & Hy & ?)]; [by left; left|].
    apply elem_of_cons in Hy as [->|Hy]; [by left; right|].
    right. by exists y.
Qed.

Lemma _link_recursive_spec depth self obj_id audio_set audio_set' :
  _link_recursive depth self obj_id audio_set = Ok audio_set' →
  ∀ src, src ∈ audio_set' ↔ src ∈ audio_set ∨ reaches self obj_id src.
Proof.
  revert obj_id audio_set audio_set'.
  induction depth as [|depth IH]; intros obj_id audio_set audio_set'; [done|].
  cbn [_link_recursive]. case_decide as Hs.
  - intros [= <-] src. rewrite _link_sound_to_audio_spec.
    split; (intros [?|Hr]; [by left|right]).
    + by constructor.
    + destruct Hr as [|? c child src' Hnone]; [done|].
      rewrite Hnone in Hs. by destruct Hs.
  - apply eq_None_not_Some in Hs.
    destruct (containers self !! obj_id) as [c|] eqn:Hc.
    + intros Hloop src.
      rewrite (for_each_adds _ _ (reaches self) _ _ (λ x s s' _, IH x s s') Hloop).
      split; (intros [?|Hr]; [by left|right]).
      * destruct Hr as (child & Hchild & Hr). by econstructor.
      * destruct Hr as [? ? (s & Hsome & _)|? c' child src' _ Hc' Hchild Hr];
          [congruence|].
        assert (c' = c) as -> by congruence. eauto.
    + intros [= <-] src. split; [by left|]. intros [?|Hr]; [done|].
      destruct Hr as [? ? (s & Hsome & _)|? c' child src' _ Hc' _ _]; congruence.
Qed.

Lemma _link_container_children_spec depth self container_id audio_set audio_set' :
  _link_container_children depth self container_id audio_set = Ok audio_set' →
  ∀ src, src ∈ audio_set' ↔ src ∈ audio_set ∨ expands_to self container_id src.
Proof.
  unfold _link_container_children, expands_to.
  destruct (containers self !! container_id) as [c|]; [|done].
  intros Hloop src.
  rewrite (for_each_adds _ _ (reaches self) _ _
             (λ x s s' _, _link_recursive_spec depth self x s s') Hloop).
  split; (intros [?|Hr]; [by left|right]).
  - destruct Hr as (child & ? & ?). eauto.
  - destruct Hr as (c' & child & [= <-] & ? & ?). eauto.
Qed.

Lemma _process_event_reference_spec depth self target_id audio_set audio_set' :
  _process_event_reference depth self target_id audio_set = Ok audio_set' →
  ∀ src, src ∈ audio_set' ↔ src ∈ audio_set ∨ refers self target_id src.
Proof.
  unfold _process_event_reference, refers, resolves.
  destruct (actions self !! target_id) as [action|].
  - destruct (Action.target_id action) as [target|].
    2:{ intros [= <-] src. split; [by left|]. by intros [?|(? & [=] & _)]. }
    case_decide as Hty.
    2:{ intros [= <-] src. split; [by left|].
        intros [?|(? & _ & ? & _)]; [done|congruence]. }
    case_decide as Hcont.
    + intros Hc src. rewrite (_link_container_children_spec _ _ _ _ _ Hc).
      split; (intros [?|Hr]; [by left|right]).
      * exists target. by rewrite decide_True.
      * destruct Hr as (? & [= <-] & _ & Hr). by rewrite decide_True in Hr.
    + case_decide as Hs.
      * intros [= <-] src. rewrite _link_sound_to_audio_spec.
        split; (intros [?|Hr]; [by left|right]).
        -- exists target. by rewrite decide_False.
        -- destruct Hr as (? & [= <-] & _ & Hr). by rewrite decide_False in Hr.
      * intros [= <-] src. split; [by left|].
        intros [?|(? & [= <-] & _ & Hr)]; [done|].
        rewrite decide_False in Hr by done.
        destruct Hr as (s & Hsome & _). destruct Hs. by rewrite Hsome.
  - case_decide.
    + apply _link_container_children_spec.
    + intros [= <-] src. apply _link_sound_to_audio_spec.
Qed.
End resolution.

Section link_rounds.
Import BankParser.

Lemma for_each_ext {A S} (xs : list A) (body body' : A → S → result S) s :
  (∀ x s, body x s = body' x s) → for_each xs body s = for_each xs body' s.
Proof.
  intros Hb. revert s. induction xs as [|x xs IH]; intros s; cbn [for_each];
    [done|].
  rewrite Hb. destruct (body' x s); cbn [bind]; [apply IH|done].
Qed.

Lemma same_graph_refl s : same_graph s s.
Proof. done. Qed.

Lemma _link_sound_to_audio_same s s' sound_id audio_set :
  same_graph s s' →
  _link_sound_to_audio s' sound_id audio_set
  = _link_sound_to_audio s sound_id audio_set.
Proof.
  intros (_ & Hs & _ & Ha). unfold _link_sound_to_audio. by rewrite Hs, Ha.
Qed.

Lemma _link_recursive_same depth s s' obj_id audio_set :
  same_graph s s' →
  _link_recursive depth s' obj_id audio_set
  = _link_recursive depth s obj_id audio_set.
Proof.
  intros Hg. pose proof Hg as (Hc & Hs & _ & _).
  revert obj_id audio_set. induction depth as [|depth IH]; intros; [done|].
  cbn [_link_recursive]. rewrite Hs, Hc, (_link_sound_to_audio_same s s') by done.
  case_decide; [done|]. destruct (containers s !! obj_id); [|done].
  by apply for_each_ext.
Qed.

Lemma _process_event_reference_same depth s s' target_id audio_set :
  same_graph s s' →
  _process_event_reference depth s' target_id audio_set
  = _process_event_reference depth s target_id audio_set.
Proof.
  intros Hg. pose proof Hg as (Hc & Hs & Ha & _).
  unfold _process_event_reference, _link_container_children.
  rewrite Ha, Hc, Hs.
  assert (∀ c S, for_each (playlist_children c)
                   (λ child_id audio_set, _link_recursive depth s' child_id audio_set) S
                 = for_each (playlist_children c)
                   (λ child_id audio_set, _link_recursive depth s child_id audio_set) S)
    as Hfe.
  { intros. apply for_each_ext. intros. by apply _link_recursive_same. }
  destruct (actions s !! target_id) as [action|].
  - destruct (Action.target_id action) as [target|]; [|done].
    repeat case_decide; try done.
    + destruct (containers s !! target); [apply Hfe|done].
    + by rewrite (_link_sound_to_audio_same s s').
  - case_decide.
    + destruct (containers s !! target_id); [apply Hfe|done].
    + by rewrite (_link_sound_to_audio_same s s').
Qed.

Lemma resolve_event_same depth s s' event :
  same_graph s s' → resolve_event depth s' event = resolve_event depth s event.
Proof.
  intros Hg. apply for_each_ext. intros.
  by apply _process_event_reference_same.
Qed.

Lemma resolve_event_spec depth self event ids :
  resolve_event depth self event = Ok ids →
  ∀ src, src ∈ ids ↔
         ∃ target, target ∈ Event.actions event ∧ refers self target src.
Proof.
  intros Hr src.
  rewrite (for_each_adds _ _ (refers self) _ _
             (λ x s s' _, _process_event_reference_spec depth self x s s') Hr).
  split; [|by right]. intros [Hin|?]; [|done]. by apply elem_of_empty in Hin.
Qed.

(** One round of the loop, in terms of [resolve_event]. *)
Lemma link_event_unfold depth i s ev :
  events s !! i = Some ev →
  link_event depth i s =
    (let! ids := resolve_event depth s ev in
     Ok (set_event_audio (str (Event.id ev)) (elements ids)
           (set_events
              (<[i := Event.set_audio_file_ids (elements ids) ev]> (events s))
              s))).
Proof. intros Hev. unfold link_event. by rewrite Hev. Qed.


Lemma raises_only__link_recursive depth self obj_id audio_set :
  raises_only [RecursionError] (_link_recursive depth self obj_id audio_set).
Proof.
  revert obj_id audio_set. induction depth as [|depth IH]; intros;
    cbn [_link_recursive]; [raises_only|].
  case_decide; [raises_only|].
  destruct (containers self !! obj_id); [|raises_only].
  by apply raises_only_for_each.
Qed.

(** Every caller of [_link_container_children] has tested that the ID is
    a container. *)
Lemma raises_only__process_event_reference depth self target_id audio_set :
  raises_only [RecursionError]
    (_process_event_reference depth self target_id audio_set).
Proof.
  assert (∀ cid S, is_Some (containers self !! cid) →
            raises_only [RecursionError]
              (_link_container_children depth self cid S)) as Hc.
  { intros cid S [c Hc]. unfold _link_container_children. rewrite Hc.
    apply raises_only_for_each. intros. apply raises_only__link_recursive. }
  unfold _process_event_reference.
  destruct (actions self !! target_id) as [action|].
  - destruct (Action.target_id action); [|raises_only].
    repeat case_decide; first [by apply Hc|raises_only].
  - case_decide; [by apply Hc|raises_only].
Qed.


(** *** The rounds of the loop, on the object *)

Lemma sound_source_indexed self sound_id src :
  sound_source self sound_id src → src ∈ audio_files self.
Proof. by intros (s & _ & _ & ?). Qed.

Lemma reaches_indexed self obj_id src :
  reaches self obj_id src → src ∈ audio_files self.
Proof. induction 1; eauto using sound_source_indexed. Qed.

Lemma refers_indexed self target_id src :
  refers self target_id src → src ∈ audio_files self.
Proof.
  assert (∀ target, resolves self target src → src ∈ audio_files self) as Hres.
  { intros target. unfold resolves, expands_to. case_decide.
    - intros (c & child & _ & _ & Hr). by eapply reaches_indexed.
    - apply sound_source_indexed. }
  unfold refers. destruct (actions self !! target_id) as [action|]; [|apply Hres].
  intros (target & _ & _ & Hr). by eapply Hres.
Qed.

Lemma resolve_event_indexed depth self event ids :
  resolve_event depth self event = Ok ids → ids ⊆ audio_files self.
Proof.
  intros Hr src Hsrc.
  apply (resolve_event_spec _ _ _ _ Hr) in Hsrc as (target & _ & Hsrc).
  by eapply refers_indexed.
Qed.

Lemma raises_only_resolve_event depth self event :
  raises_only [RecursionError] (resolve_event depth self event).
Proof.
  apply raises_only_for_each. intros.
  apply raises_only__process_event_reference.
Qed.

Lemma lists_ids_elements ev (ids : gset N) :
  lists_ids ev (Event.set_audio_file_ids (elements ids) ev) ids.
Proof.
  unfold lists_ids. cbn. split_and!; [done|done|apply NoDup_elements|].
  intros audio_id. apply elem_of_elements.
Qed.

(** The call as a [result] is the call on the object with the object
    dropped when it raises. *)
Lemma link_rounds_for_each depth rounds s :
  for_each rounds (link_event depth) s =
    match link_rounds depth rounds s with
    | (s', Ok _) => Ok s'
    | (_, Raise e) => Raise e
    end.
Proof.
  revert s. induction rounds as [|i rounds IH]; intros s;
    cbn [for_each link_rounds]; [done|].
  destruct (link_event depth i s) as [s1|e]; cbn [bind]; [apply IH|done].
Qed.

(** The rounds for the places from [start] on stop at some place [k]: the
    end of the list when they return, the place of an event whose
    resolution raises when they raise.  The events ahead of [k] are
    resolved, the others untouched. *)
Lemma link_rounds_spec depth s0 n start s s' r :
  same_graph s0 s →
  length (events s) = (start + n)%nat →
  link_rounds depth (seq start n) s = (s', r) →
  ∃ k, (start ≤ k ≤ start + n)%nat ∧
    same_graph s0 s' ∧
    length (events s') = length (events s) ∧
    (∀ j, (j < start ∨ k ≤ j)%nat → events s' !! j = events s !! j) ∧
    (∀ j ev, (start ≤ j < k)%nat → events s !! j = Some ev →
       ∃ ids,
         resolve_event depth s0 ev = Ok ids ∧
         events s' !! j = Some (Event.set_audio_file_ids (elements ids) ev) ∧
         is_Some (event_audio_map s' !! str (Event.id ev))) ∧
    (∀ key, is_Some (event_audio_map s !! key) →
            is_Some (event_audio_map s' !! key)) ∧
    match r with
    | Ok _ => k = (start + n)%nat
    | Raise e =>
        ∃ ev, events s !! k = Some ev ∧ resolve_event depth s0 ev = Raise e
    end.
Proof.
  revert start s. induction n as [|n IH]; intros start s Hg Hlen.
  { cbn [seq link_rounds]. intros [= <- <-]. exists start.
    split_and!; try done; try lia. }
  cbn [seq link_rounds].
  destruct (events s !! start) as [ev|] eqn:Hev.
  2:{ apply lookup_ge_None in Hev. lia. }
  rewrite (link_event_unfold _ _ _ _ Hev), (resolve_event_same _ s0 s) by done.
  destruct (resolve_event depth s0 ev) as [ids|e] eqn:Hids; cbn [bind].
  2:{ intros [= <- <-]. exists start.
      split_and!; try done; try lia. by exists ev. }
  set (s1 := set_event_audio _ _ _). intros Hrest.
  assert (same_graph s0 s1) as Hg1 by exact Hg.
  destruct (IH (S start) s1 Hg1) as
    (k & Hk & Hg' & Hlen' & Hout & Hin & Hmap & Hr); [|exact Hrest|].
  { unfold s1; cbn. rewrite length_insert. lia. }
  exists k. split_and!; try done; try lia.
  - rewrite Hlen'. unfold s1; cbn. by rewrite length_insert.
  - intros j Hj. rewrite Hout by lia. unfold s1; cbn.
    by rewrite list_lookup_insert_ne by lia.
  - intros j ev' Hj Hev'. destruct (decide (j = start)) as [->|Hne].
    + assert (ev' = ev) as -> by congruence. exists ids. split_and!; [done| |].
      * rewrite Hout by lia. unfold s1; cbn.
        apply list_lookup_insert_eq. by eapply lookup_lt_Some.
      * apply Hmap. unfold s1; cbn. rewrite lookup_insert_eq. eauto.
    + apply (Hin j ev'); [lia|]. unfold s1; cbn.
      by rewrite list_lookup_insert_ne by lia.
  - intros key Hkey. apply Hmap. unfold s1; cbn.
    destruct (decide (str (Event.id ev) = key)) as [->|Hne].
    + rewrite lookup_insert_eq. eauto.
    + by rewrite lookup_insert_ne.
  - destruct r as [u|e]; [lia|].
    destruct Hr as (ev' & Hev' & Hraise). exists ev'. split; [|done].
    revert Hev'. unfold s1; cbn.
    destruct (decide (k = start)) as [->|Hne]; [lia|].
    by rewrite list_lookup_insert_ne by lia.
Qed.

(** The same for the whole call, in the terms of [assigned]. *)
Lemma link_audio_to_events_in_place_spec depth self self' r :
  link_audio_to_events_in_place depth self = (self', r) →
  ∃ k, (k ≤ length (events self))%nat ∧
    assigned self self' 0 k ∧
    (∀ j ev, (j < k)%nat → events self !! j = Some ev →
             returns (resolve_event depth self ev)) ∧
    match r with
    | Ok _ => k = length (events self)
    | Raise e =>
        ∃ ev, events self !! k = Some ev ∧
              resolve_event depth self ev = Raise e
    end.
Proof.
  intros Hrun.
  destruct (link_rounds_spec depth self (length (events self)) 0 self self' r)
    as (k & Hk & (Hc & Hs & Ha & Haf) & Hlen & Hout & Hin & Hmap & Hr);
    [done|done|exact Hrun|].
  exists k. split_and!; [lia| | |done].
  - unfold assigned. split_and!; try done.
    intros j ev Hj Hev. destruct (Hin j ev) as (ids & Hids & Hj' & Hkey);
      [lia|done|].
    exists ids, (Event.set_audio_file_ids (elements ids) ev).
    split_and!; [done|apply lists_ids_elements| |done].
    by eapply resolve_event_indexed.
  - intros j ev Hj Hev. destruct (Hin j ev) as (ids & Hids & _); [lia|done|].
    by exists ids.
Qed.

(** *** Cycles *)

Lemma tc_first_step {A} (R : relation A) a b :
  tc R a b → ∃ y, R a y ∧ rtc R y b.
Proof.
  intros [x z Hxz|x y z Hxy Hyz].
  - exists z. split; [done|constructor].
  - exists y. split; [done|by apply tc_rtc].
Qed.

Lemma runs_into_cycle_step self obj_id :
  runs_into_cycle self obj_id →
  sounds self !! obj_id = None ∧
  ∃ c child,
    containers self !! obj_id = Some c ∧
    child ∈ playlist_children c ∧
    runs_into_cycle self child.
Proof.
  intros (c0 & Hpath & Hcycle).
  assert (∃ y, calls self obj_id y ∧ rtc (calls self) y c0)
    as (y & (Hs & c & Hc & Hy) & Hrest).
  { destruct Hpath as [x|x y z Hxy Hyz]; [by apply tc_first_step|eauto]. }
  split; [done|]. exists c, y. split_and!; [done|done|]. by exists c0.
Qed.

(** A loop whose rounds raise nothing but [e] raises [e] when one of its
    rounds always does. *)
Lemma for_each_Raise {A S} (xs : list A) (body : A → S → result S) e x0 s :
  (∀ x s, raises_only [e] (body x s)) →
  x0 ∈ xs →
  (∀ s, body x0 s = Raise e) →
  for_each xs body s = Raise e.
Proof.
  intros Honly Hin Hx0. revert s.
  induction xs as [|x xs IH]; intros s; [by apply elem_of_nil in Hin|].
  cbn [for_each]. apply elem_of_cons in Hin as [<-|Hin].
  - by rewrite Hx0.
  - destruct (body x s) as [s1|e'] eqn:Hb; cbn [bind]; [by apply IH|].
    apply Honly in Hb. by apply list_elem_of_singleton in Hb as ->.
Qed.

(** On an object that runs into a cycle the recursion never bottoms out:
    whatever depth is allowed is used up. *)
Lemma _link_recursive_cycle depth self obj_id audio_set :
  runs_into_cycle self obj_id →
  _link_recursive depth self obj_id audio_set = Raise RecursionError.
Proof.
  revert obj_id audio_set.
  induction depth as [|depth IH]; intros obj_id audio_set Hrun; [done|].
  apply runs_into_cycle_step in Hrun as (Hs & c & child & Hc & Hchild & Hrun).
  cbn [_link_recursive]. rewrite Hs, Hc.
  rewrite decide_False by (by intros [? ?]).
  apply (for_each_Raise _ _ _ child); [|done|by intros; apply IH].
  intros. apply raises_only__link_recursive.
Qed.

Lemma _process_event_reference_cycle depth self target_id container_id c child
    audio_set :
  hands_over self target_id container_id →
  containers self !! container_id = Some c →
  child ∈ playlist_children c →
  runs_into_cycle self child →
  _process_event_reference depth self target_id audio_set = Raise RecursionError.
Proof.
  intros [Hcont Hover] Hc Hchild Hrun.
  assert (∀ S, _link_container_children depth self container_id S
               = Raise RecursionError) as Hraise.
  { intros S. unfold _link_container_children. rewrite Hc.
    apply (for_each_Raise _ _ _ child); [|done|].
    - intros. apply raises_only__link_recursive.
    - intros. by apply _link_recursive_cycle. }
  unfold _process_event_reference.
  destruct (actions self !! target_id) as [action|].
  - destruct Hover as [Hty Htarget]. rewrite Htarget.
    rewrite decide_True by done. by rewrite decide_True by done.
  - subst container_id. by rewrite decide_True by done.
Qed.

Lemma resolve_event_cycle depth self event :
  heads_into_cycle self event →
  resolve_event depth self event = Raise RecursionError.
Proof.
  intros (target_id & container_id & c & child & Hin & Hover & Hc & Hchild & Hrun).
  apply (for_each_Raise _ _ _ target_id); [|done|].
  - intros. apply raises_only__process_event_reference.
  - intros. by eapply _process_event_reference_cycle.
Qed.

(** *** Ranked hierarchies *)

Lemma resolve_event_Ok depth self rank event :
  (∀ cid c child,
     containers self !! cid = Some c → child ∈ playlist_children c →
     expands self child → (rank child < rank cid)%nat) →
  (enough_depth self rank ≤ depth)%nat →
  returns (resolve_event depth self event).
Proof.
  intros Hrank Hd.
  destruct (for_each_Ok (Event.actions event)
              (λ target_id s0, _process_event_reference depth self target_id s0)
              (λ s0, s0 ⊆ audio_files self) ∅) as (ids & Hids & _).
  { apply empty_subseteq. }
  { intros x s0 _ Hs0. by apply (_process_event_reference_Ok self rank). }
  by exists ids.
Qed.
End link_rounds.
(** * C10 *)


(** * C9 *)

(** C9, as the code has it.  A Sound record whose ID lies in the buffer
    has [sound_id] the u32 at its start, and what becomes of its source is
    settled by the declared size and by the end of the buffer.  Below a
    declared size of 13, that is 9 bytes after the ID, the Sound is emitted
    with no source.  From 13 on the source is the u32 nine bytes in (after
    the ID, four bytes and one byte), provided those four bytes lie in the
    buffer; where the buffer ends ahead of them the read raises
    [struct.error] and no Sound is emitted. *)
Theorem C9_parse_sound_source_threshold
    (self : BankParser.t) (data : bytes) (pos : nat) (size : N) :
  (pos + 4 ≤ length data)%nat →
  BankParser._parse_sound self data pos size =
    if decide (13 ≤ size) then
      if decide (pos + 13 ≤ length data)%nat then
        Ok (Some {| Sound.sound_id := le_value (slice data pos (pos + 4));
                    Sound.source_id :=
                      Some (le_value (slice data (pos + 9) (pos + 13))) |})
      else Raise StructError
    else
      Ok (Some {| Sound.sound_id := le_value (slice data pos (pos + 4));
                  Sound.source_id := None |}).
Proof.
  intros Hid. unfold BankParser._parse_sound.
  rewrite decide_False by (unfold gt; lia).
  unfold unpack_from_u32 at 1. rewrite decide_True by lia. cbn [bind].
  destruct (decide (13 ≤ size)) as [Hs|Hs].
  - rewrite decide_False by (unfold gt; lia).
    rewrite decide_False by (unfold gt; lia).
    unfold unpack_from_u32.
    replace (pos + 4 + 4 + 1 + 4)%nat with (pos + 13)%nat by lia.
    replace (pos + 4 + 4 + 1)%nat with (pos + 9)%nat by lia.
    by destruct (decide (pos + 13 ≤ length data)%nat).
  - destruct (decide (pos + 4 + 8 > pos + N.to_nat size)%nat); [done|].
    rewrite decide_True by (unfold gt; lia). done.
Qed.

Lemma C9_witness :
  BankParser._parse_sound BankParser.init sound_record_13 0 13 =
    if decide (13 ≤ 13) then
      if decide (0 + 13 ≤ length sound_record_13)%nat then
        Ok (Some {| Sound.sound_id := le_value (slice sound_record_13 0 (0 + 4));
                    Sound.source_id :=
                      Some (le_value (slice sound_record_13 (0 + 9) (0 + 13))) |})
      else Raise StructError
    else
      Ok (Some {| Sound.sound_id := le_value (slice sound_record_13 0 (0 + 4));
                  Sound.source_id := None |}).
Proof.
  apply (C9_parse_sound_source_threshold BankParser.init sound_record_13 0 13).
  vm_compute. lia.
Defined.

(** A record that declares 13 bytes in a buffer that holds 12 of them: the
    source read raises. *)
Example _parse_sound_cut_short :
  BankParser._parse_sound BankParser.init (take 12 sound_record_13) 0 13
  = Raise StructError.
Proof. reflexivity. Qed.

(** C9 as worded fails on a 13-byte record: only 9 bytes follow the ID,
    fewer than the 13 the sentence asks for, and the source is read all the
    same. *)
Lemma C9_counterexample :
  length sound_record_13 = 13%nat ∧
  (length sound_record_13 - 4 < 13)%nat ∧
  BankParser._parse_sound BankParser.init sound_record_13 0 13 =
    Ok (Some {| Sound.sound_id := 300; Sound.source_id := Some 0xDEAD |}).
Proof. split; [reflexivity|]. split; [vm_compute; lia|reflexivity]. Qed.
(** * C7 *)

Section replace_audio.
Import WwiseSoundbank.

Lemma find_audio_entry_at_None self audio_id :
  find_audio_entry_at self audio_id = None ↔ audio_id ∉ index_ids self.
Proof.
  unfold find_audio_entry_at, index_ids. rewrite list_find_None.
  rewrite Forall_forall, list_elem_of_fmap. split.
  - intros H (y & -> & Hy). by apply (H y).
  - intros H x Hx Hid. apply H. by exists x.
Qed.

Lemma find_audio_entry_at_replaced self audio_id i entry entry' :
  find_audio_entry_at self audio_id = Some (i, entry) →
  AudioEntry.id entry' = audio_id →
  find_audio_entry_at
    (set_audio_entries (<[i := entry']> (audio_entries self)) self) audio_id
  = Some (i, entry').
Proof.
  unfold find_audio_entry_at. cbn [audio_entries set_audio_entries].
  intros (Hi & Hid & Hfirst)%list_find_Some Hid'.
  apply list_find_Some. split_and!.
  - apply list_lookup_insert_eq. by eapply lookup_lt_Some.
  - done.
  - intros j y Hj Hlt. rewrite list_lookup_insert_ne in Hj by lia. eauto.
Qed.

Lemma replace_audio_Ok fs self audio_id p i entry :
  find_audio_entry_at self audio_id = Some (i, entry) →
  exists_ fs p = true →
  replace_audio fs self audio_id p =
    Ok (set_audio_entries
          (<[i := AudioEntry.set_replacement_path p entry]>
             (audio_entries self)) self).
Proof. intros Hf He. unfold replace_audio. by rewrite Hf, He. Qed.
End replace_audio.

(** C7, as the code has it.  [replace_audio] raises [KeyError] exactly when
    the ID is not in the audio index.  For an ID that is in the index it
    raises [FileNotFoundError] when the replacement path does not exist, and
    otherwise returns having recorded the path on the first entry with that
    ID, every other entry untouched.  Queuing a second path for the same ID
    leaves the index as if only the second had been queued. *)
Theorem C7_replace_audio
    (fs : FileSystem) (self : WwiseSoundbank.t) (audio_id : N) (p p2 : Path) :
  (WwiseSoundbank.replace_audio fs self audio_id p = Raise KeyError
     ↔ audio_id ∉ index_ids self) ∧
  (audio_id ∈ index_ids self → exists_ fs p = false →
     WwiseSoundbank.replace_audio fs self audio_id p = Raise FileNotFoundError) ∧
  (audio_id ∈ index_ids self → exists_ fs p = true →
     ∃ i entry self',
       WwiseSoundbank.find_audio_entry_at self audio_id = Some (i, entry) ∧
       WwiseSoundbank.replace_audio fs self audio_id p = Ok self' ∧
       WwiseSoundbank.audio_entries self' =
         <[i := AudioEntry.set_replacement_path p entry]>
           (WwiseSoundbank.audio_entries self) ∧
       WwiseSoundbank.find_audio_entry self' audio_id =
         Some (AudioEntry.set_replacement_path p entry) ∧
       (exists_ fs p2 = true →
          ∃ self'',
            WwiseSoundbank.replace_audio fs self' audio_id p2 = Ok self'' ∧
            WwiseSoundbank.replace_audio fs self audio_id p2 = Ok self'' ∧
            AudioEntry.replacement_path <$>
              WwiseSoundbank.find_audio_entry self'' audio_id = Some (Some p2))).
Proof.
  split_and!.
  - rewrite <- find_audio_entry_at_None. unfold WwiseSoundbank.replace_audio.
    destruct (WwiseSoundbank.find_audio_entry_at self audio_id) as [[i e]|];
      [|done].
    split; [|done]. by destruct (exists_ fs p).
  - intros Hin Hex. unfold WwiseSoundbank.replace_audio.
    destruct (WwiseSoundbank.find_audio_entry_at self audio_id) as [[i e]|] eqn:Hf.
    + by rewrite Hex.
    + by apply find_audio_entry_at_None in Hf.
  - intros Hin Hex.
    destruct (WwiseSoundbank.find_audio_entry_at self audio_id) as [[i e]|] eqn:Hf;
      [|by apply find_audio_entry_at_None in Hf].
    assert (AudioEntry.id e = audio_id) as Hid.
    { by apply list_find_Some in Hf as (_ & ? & _). }
    pose proof (find_audio_entry_at_replaced self audio_id i e
                  (AudioEntry.set_replacement_path p e) Hf Hid) as Hf1.
    exists i, e. eexists. split_and!; [done|by apply replace_audio_Ok|done|..].
    + unfold WwiseSoundbank.find_audio_entry. by rewrite Hf1.
    + intros Hex2. eexists. split_and!.
      * by apply replace_audio_Ok.
      * rewrite (replace_audio_Ok _ _ _ _ _ _ Hf Hex2). f_equal.
        unfold WwiseSoundbank.set_audio_entries; cbn.
        by rewrite list_insert_insert_eq.
      * unfold WwiseSoundbank.find_audio_entry.
        erewrite find_audio_entry_at_replaced; [done| |done].
        cbn. eassumption.
Qed.

Lemma C7_witness :
  ∃ i entry self',
    WwiseSoundbank.find_audio_entry_at bank_minimal_loaded 1 = Some (i, entry) ∧
    WwiseSoundbank.replace_audio fs_two_files bank_minimal_loaded 1 "a.wem"
      = Ok self' ∧
    WwiseSoundbank.audio_entries self' =
      <[i := AudioEntry.set_replacement_path "a.wem" entry]>
        (WwiseSoundbank.audio_entries bank_minimal_loaded) ∧
    WwiseSoundbank.find_audio_entry self' 1 =
      Some (AudioEntry.set_replacement_path "a.wem" entry) ∧
    (exists_ fs_two_files "b.wem" = true →
       ∃ self'',
         WwiseSoundbank.replace_audio fs_two_files self' 1 "b.wem" = Ok self'' ∧
         WwiseSoundbank.replace_audio fs_two_files bank_minimal_loaded 1 "b.wem"
           = Ok self'' ∧
         AudioEntry.replacement_path <$>
           WwiseSoundbank.find_audio_entry self'' 1 = Some (Some "b.wem")).
Proof.
  destruct (C7_replace_audio fs_two_files bank_minimal_loaded 1 "a.wem" "b.wem")
    as (_ & _ & H).
  apply H.
  - vm_compute. constructor.
  - reflexivity.
Defined.

(** C7 as worded fails when the replacement file is missing: the ID is in
    the index and the call raises all the same. *)
Lemma C7_counterexample :
  WwiseSoundbank.load bank_minimal Little = Ok bank_minimal_loaded ∧
  1 ∈ index_ids bank_minimal_loaded ∧
  WwiseSoundbank.replace_audio ∅ bank_minimal_loaded 1 "new.wem"
    = Raise FileNotFoundError.
Proof.
  split; [by vm_compute|]. split; [vm_compute; constructor|reflexivity].
Qed.
(** ** The chunk loop of the hierarchy parser *)

Section parse_loop.
Import BankParser.

(** One round on a chunk that lies in the buffer: whatever the tag, the
    next round starts right behind the declared size. *)
Lemma parse_loop_step budget self data pos :
  (pos + 8 ≤ length data)%nat →
  let tag := slice data pos (pos + 4) in
  let size := le_value (slice data (pos + 4) (pos + 8)) in
  let next := (pos + 8 + N.to_nat size)%nat in
  parse_loop (S budget) self data pos =
    if decide (tag = encode_ascii "HIRC") then
      let! (self', _) := _parse_hirc self data (pos + 8) size in
      parse_loop budget self' data next
    else if decide (tag = encode_ascii "DIDX") then
      let! (self', _) := _parse_didx self data (pos + 8) size in
      parse_loop budget self' data next
    else parse_loop budget self data next.
Proof.
  intros Hpos tag size next. cbn [parse_loop].
  rewrite decide_True by lia.
  unfold _read_chunk_header. rewrite decide_False by (unfold gt; lia).
  unfold unpack_from_u32. rewrite decide_True by lia. cbn [bind].
  replace (pos + 4 + 4)%nat with (pos + 8)%nat by lia. fold tag size.
  destruct (decide (tag = encode_ascii "HIRC")) as [Ht|Ht].
  - rewrite decide_True by congruence.
    destruct (_parse_hirc self data (pos + 8) size) as [[self' pos']|e] eqn:Hh;
      [|done].
    apply _parse_hirc_pos in Hh as ->. done.
  - rewrite decide_False by congruence.
    destruct (decide (tag = encode_ascii "DIDX")) as [Hd|Hd].
    + rewrite decide_True by congruence.
      destruct (_parse_didx self data (pos + 8) size) as [[self' pos']|e] eqn:Hh;
        [|done].
      apply _parse_didx_pos in Hh as ->. done.
    + rewrite decide_False by congruence. done.
Qed.
End parse_loop.

(** * C8 *)

(** C8, as the code has it.  The patcher's scan stores BKHD and DIDX chunks
    and goes on; it stops in front of any other tag but DATA, HIRC included,
    and everything from that tag on trails; it stops at the end of the buffer
    (fewer than four bytes left, which are dropped); and it stops at a DATA
    chunk, whose place and size it notes, what lies behind the declared size
    trailing.  The hierarchy pass handles HIRC and DIDX chunks wherever they
    are, skips every other chunk, and in all three cases goes on right behind
    the declared size. *)
Theorem C8_chunk_scans
    (self : WwiseSoundbank.t) (cs : list (string * bytes))
    (unknown short tail : bytes) (size : N)
    (hself : BankParser.t) (data : bytes) (pos budget : nat) :
  Forall stored_chunk cs →
  (4 ≤ length unknown)%nat →
  decode_ascii_ignore (take 4 unknown) ∉ ["BKHD"; "DIDX"; "DATA"] →
  (length short < 4)%nat →
  size < 2 ^ 32 →
  (pos + 8 ≤ length data)%nat →
  let en := WwiseSoundbank.endian self in
  let stored := store_sections cs self in
  (∃ stream',
     WwiseSoundbank._parse_sections self (open_ (chunks_with en cs ++ unknown))
     = Ok (WwiseSoundbank.set_trailing unknown stored, stream')) ∧
  (∃ stream',
     WwiseSoundbank._parse_sections self (open_ (chunks_with en cs ++ short))
     = Ok (WwiseSoundbank.set_trailing [] stored, stream')) ∧
  (∃ stream',
     WwiseSoundbank._parse_sections self
       (open_ (chunks_with en cs ++
                 encode_ascii "DATA" ++ in_order en (le_digits 4 size) ++ tail))
     = Ok (WwiseSoundbank.set_trailing (drop (N.to_nat size) tail)
             (WwiseSoundbank.set_data_chunk
                (length (chunks_with en cs) + 8) size stored), stream')) ∧
  (decode_ascii_ignore (encode_ascii "HIRC") ∉ ["BKHD"; "DIDX"; "DATA"]) ∧
  (let tag := slice data pos (pos + 4) in
   let csize := le_value (slice data (pos + 4) (pos + 8)) in
   let next := (pos + 8 + N.to_nat csize)%nat in
   BankParser.parse_loop (S budget) hself data pos =
     if decide (tag = encode_ascii "HIRC") then
       let! (hself', _) := BankParser._parse_hirc hself data (pos + 8) csize in
       BankParser.parse_loop budget hself' data next
     else if decide (tag = encode_ascii "DIDX") then
       let! (hself', _) := BankParser._parse_didx hself data (pos + 8) csize in
       BankParser.parse_loop budget hself' data next
     else BankParser.parse_loop budget hself data next).
Proof.
  intros Hcs Hu4 Hutag Hshort Hsize Hpos en stored. split_and!.
  - destruct (_parse_sections_unknown self cs unknown Hcs Hu4 Hutag)
      as (stream' & H & _). eauto.
  - destruct (_parse_sections_exhausted self cs short Hcs Hshort)
      as (stream' & H & _). eauto.
  - destruct (_parse_sections_data self cs _ Hcs size tail eq_refl Hsize)
      as (stream' & H & _). eauto.
  - vm_compute. intros H.
    repeat (apply elem_of_cons in H as [H|H]; [discriminate H|]).
    by apply elem_of_nil in H.
  - by apply parse_loop_step.
Qed.

(** C8 as worded fails on a bank with HIRC before DATA: HIRC is one of the
    tags the sentence calls recognized, yet the patcher's scan stops in front
    of it, never reaches the DATA chunk, and has the HIRC chunk and all that
    follows as trailing bytes. *)
Lemma C8_counterexample :
  "HIRC" ∈ spec_recognized_tags ∧
  ∃ self' stream',
    WwiseSoundbank._parse_sections (new_soundbank Little)
      (open_ bank_hirc_before_data) = Ok (self', stream') ∧
    WwiseSoundbank._trailing_data self' =
      chunk "HIRC" (u32 0) ++ chunk "DATA" (B [1; 2]) ∧
    WwiseSoundbank._data_offset self' = None.
Proof.
  split.
  - unfold spec_recognized_tags. do 3 right. left.
  - eexists _, _. split; [by vm_compute|]. by vm_compute.
Qed.

Lemma C8_witness :
  let self := new_soundbank Little in
  let cs := [("BKHD", u32 140); ("DIDX", [])] in
  let unknown := chunk "HIRC" (u32 0) ++ chunk "DATA" (B [1; 2]) in
  let stored := store_sections cs self in
  (∃ stream',
     WwiseSoundbank._parse_sections self
       (open_ (chunks_with Little cs ++ unknown))
     = Ok (WwiseSoundbank.set_trailing unknown stored, stream')) ∧
  (∃ stream',
     WwiseSoundbank._parse_sections self
       (open_ (chunks_with Little cs ++ B [0x44; 0x41]))
     = Ok (WwiseSoundbank.set_trailing [] stored, stream')) ∧
  (∃ stream',
     WwiseSoundbank._parse_sections self
       (open_ (chunks_with Little cs ++
                 encode_ascii "DATA" ++ in_order Little (le_digits 4 2)
                 ++ B [1; 2; 3]))
     = Ok (WwiseSoundbank.set_trailing (drop (N.to_nat 2) (B [1; 2; 3]))
             (WwiseSoundbank.set_data_chunk
                (length (chunks_with Little cs) + 8) 2 stored), stream')) ∧
  (decode_ascii_ignore (encode_ascii "HIRC") ∉ ["BKHD"; "DIDX"; "DATA"]) ∧
  (let data := bank_hirc_before_data in
   let tag := slice data 12 (12 + 4) in
   let csize := le_value (slice data (12 + 4) (12 + 8)) in
   let next := (12 + 8 + N.to_nat csize)%nat in
   BankParser.parse_loop (S 3) BankParser.init data 12 =
     if decide (tag = encode_ascii "HIRC") then
       let! (hself', _) :=
         BankParser._parse_hirc BankParser.init data (12 + 8) csize in
       BankParser.parse_loop 3 hself' data next
     else if decide (tag = encode_ascii "DIDX") then
       let! (hself', _) :=
         BankParser._parse_didx BankParser.init data (12 + 8) csize in
       BankParser.parse_loop 3 hself' data next
     else BankParser.parse_loop 3 BankParser.init data next).
Proof.
  apply (C8_chunk_scans (new_soundbank Little)
           [("BKHD", u32 140); ("DIDX", [])]
           (chunk "HIRC" (u32 0) ++ chunk "DATA" (B [1; 2]))
           (B [0x44; 0x41]) (B [1; 2; 3]) 2
           BankParser.init bank_hirc_before_data 12 3).
  - repeat constructor; vm_compute; done.
  - vm_compute. lia.
  - vm_compute. intros H.
    repeat (apply elem_of_cons in H as [H|H]; [discriminate H|]).
    by apply elem_of_nil in H.
  - vm_compute. lia.
  - done.
  - vm_compute. lia.
Defined.
(** * C6 *)

(** The record loop goes on right behind the declared size of a record,
    whatever its parser did: the record parsers return no position. *)
Lemma _parse_hirc_loop_advance n self self' data pos end_pos obj_type size cur :
  BankParser._read_object_header self data pos = Ok (obj_type, size, cur) →
  BankParser._parse_object self data obj_type cur size = Ok self' →
  (cur + N.to_nat size ≤ end_pos)%nat →
  BankParser._parse_hirc_loop (S n) self data pos end_pos =
    BankParser._parse_hirc_loop n self' data (cur + N.to_nat size) end_pos.
Proof.
  intros Hh Ho Hle. cbn [BankParser._parse_hirc_loop].
  rewrite Hh. cbn [bind]. rewrite Ho. cbn [bind].
  by rewrite decide_False by (unfold gt; lia).
Qed.

(** The Event parser does not look at the declared size. *)
Lemma _parse_event_ignores_size self data pos size size' :
  BankParser._parse_event self data pos size =
  BankParser._parse_event self data pos size'.
Proof. reflexivity. Qed.

(** C6, where the code departs from it.  An Event record whose declared size
    has no room for its action IDs is not cut short at the record end.  When
    the buffer ends with the record the whole parse fails with
    [struct.error]; when more bytes follow, the action IDs are taken from
    the bytes of the next record, while the loop still resumes right behind
    the declared size (the Action record that follows is parsed as such). *)
Theorem C6_event_reads_past_declared_size :
  BankParser.parse BankParser.init bank_short_event = Raise StructError ∧
  ∃ self,
    BankParser.parse BankParser.init bank_short_event_then_action = Ok self ∧
    BankParser.events self =
      [{| Event.id := 7;
          Event.actions := [le_value (B [0x03; 0x0A; 0; 0]);
                            le_value (B [0; 200; 0; 0])];
          Event.audio_file_ids := [] |}] ∧
    BankParser.actions self !! 200 =
      Some {| Action.action_id := 200; Action.target_id := Some 300;
              Action.action_type := Some 1027 |}.
Proof.
  split; [by vm_compute|].
  eexists. split; [by vm_compute|]. split; by vm_compute.
Qed.
(** * C4 *)

(** C4, as the code has it, in two parts.

    On a hierarchy whose containers do not refer to each other in a cycle,
    event resolution returns once the interpreter allows a recursion depth
    that covers the nesting, and it leaves every event with its ID, its
    actions and a listing, each ID once, of a set of audio IDs that are all
    in the audio index.

    On a hierarchy where an ID of some event hands over a container from
    which the expansion runs into a cycle, resolution raises
    [RecursionError] whatever depth the interpreter allows.  The object is
    then left half resolved: the events ahead of some place, which is not
    behind that event, are resolved as above, and the others are
    untouched. *)
Theorem C4_resolution_and_cycles (self : BankParser.t) :
  (acyclic self →
   ∃ depth0, ∀ depth, (depth0 ≤ depth)%nat →
     ∃ self',
       BankParser.link_audio_to_events depth self = Ok self' ∧
       BankParser.link_audio_to_events_in_place depth self = (self', Ok ()) ∧
       linked self self' 0) ∧
  (∀ i ev,
     BankParser.events self !! i = Some ev →
     heads_into_cycle self ev →
     ∀ depth,
       BankParser.link_audio_to_events depth self = Raise RecursionError ∧
       ∃ self' k,
         (k ≤ i)%nat ∧
         BankParser.link_audio_to_events_in_place depth self
           = (self', Raise RecursionError) ∧
         assigned self self' 0 k).
Proof.
  split.
  - intros [rank Hrank]. exists (enough_depth self rank). intros depth Hd.
    destruct (BankParser.link_audio_to_events_in_place depth self)
      as [self' r] eqn:Hrun.
    destruct (link_audio_to_events_in_place_spec _ _ _ _ Hrun)
      as (k & Hk & Hassigned & _ & Hr).
    destruct r as [[]|e].
    + subst k. exists self'. split_and!; [|done|done].
      unfold BankParser.link_audio_to_events.
      rewrite link_rounds_for_each.
      unfold BankParser.link_audio_to_events_in_place in Hrun.
      by rewrite Hrun.
    + destruct Hr as (ev & _ & Hraise).
      destruct (resolve_event_Ok depth self rank ev Hrank Hd) as [ids Hids].
      congruence.
  - intros i ev Hev Hcycle depth.
    pose proof (resolve_event_cycle depth self ev Hcycle) as Hraise.
    destruct (BankParser.link_audio_to_events_in_place depth self)
      as [self' r] eqn:Hrun.
    destruct (link_audio_to_events_in_place_spec _ _ _ _ Hrun)
      as (k & Hk & Hassigned & Hbefore & Hr).
    assert (k ≤ i)%nat as Hki.
    { destruct (decide (k ≤ i)%nat) as [|Hlt]; [done|].
      destruct (Hbefore i ev) as [ids Hids]; [lia|done|congruence]. }
    destruct r as [u|e].
    { apply lookup_lt_Some in Hev. lia. }
    destruct Hr as (ev' & _ & Hraise').
    assert (e = RecursionError) as ->.
    { apply raises_only_resolve_event in Hraise'.
      by apply list_elem_of_singleton in Hraise'. }
    split; [|by exists self', k].
    unfold BankParser.link_audio_to_events.
    rewrite link_rounds_for_each.
    unfold BankParser.link_audio_to_events_in_place in Hrun.
    by rewrite Hrun.
Qed.

(** The acyclic sample: parsed from its bytes, and resolved at depth 2. *)
Example parse_bank_acyclic :
  BankParser.parse BankParser.init bank_acyclic = Ok hier_acyclic.
Proof. by vm_compute. Qed.

Example link_hier_acyclic :
  BankParser.events <$> to_option (BankParser.link_audio_to_events 2 hier_acyclic)
  = Some [{| Event.id := 1; Event.actions := [10];
             Event.audio_file_ids := [77] |}].
Proof. by vm_compute. Qed.

(** A call that raises after its first round: the first event has its
    listing and its entry of the map, the second is as it was. *)
Example link_hier_half_cyclic :
  BankParser.link_audio_to_events_in_place 1000 hier_half_cyclic
  = (hier_half_linked, Raise RecursionError).
Proof. by vm_compute. Qed.

Lemma C4_witness :
  (∃ depth0, ∀ depth, (depth0 ≤ depth)%nat →
     ∃ self',
       BankParser.link_audio_to_events depth hier_acyclic = Ok self' ∧
       BankParser.link_audio_to_events_in_place depth hier_acyclic
         = (self', Ok ()) ∧
       linked hier_acyclic self' 0) ∧
  (∀ depth,
     BankParser.link_audio_to_events depth hier_cyclic = Raise RecursionError ∧
     ∃ self' k,
       (k ≤ 0)%nat ∧
       BankParser.link_audio_to_events_in_place depth hier_cyclic
         = (self', Raise RecursionError) ∧
       assigned hier_cyclic self' 0 k).
Proof.
  split.
  - apply (proj1 (C4_resolution_and_cycles hier_acyclic)).
    exists rank_acyclic. intros cid c child Hc Hchild [Hsnd _].
    cbn [BankParser.containers hier_acyclic] in Hc.
    apply lookup_insert_Some in Hc as [[<- <-]|[_ Hc]].
    + apply list_elem_of_singleton in Hchild as ->. by vm_compute in Hsnd.
    + apply lookup_insert_Some in Hc as [[<- <-]|[_ Hc]]; [|done].
      apply list_elem_of_singleton in Hchild as ->. vm_compute. lia.
  - apply (proj2 (C4_resolution_and_cycles hier_cyclic) 0%nat
             {| Event.id := 1; Event.actions := [10];
                Event.audio_file_ids := [] |}); [reflexivity|].
    assert (calls hier_cyclic 10 20 ∧ calls hier_cyclic 20 10) as [H12 H21].
    { split; (split; [reflexivity|]).
      - exists (parsed_container 10 [20]). split; [reflexivity|].
        apply list_elem_of_singleton. reflexivity.
      - exists (parsed_container 20 [10]). split; [reflexivity|].
        apply list_elem_of_singleton. reflexivity. }
    exists 10, 10, (parsed_container 10 [20]), 20.
    split_and!.
    + apply list_elem_of_singleton. reflexivity.
    + split; [by eexists|reflexivity].
    + reflexivity.
    + apply list_elem_of_singleton. reflexivity.
    + exists 20. split; [constructor|].
      apply (tc_l _ _ 10); [done|]. by apply tc_once.
Defined.

Lemma _link_recursive_cyclic depth audio_set :
  BankParser._link_recursive depth hier_cyclic 10 audio_set = Raise RecursionError ∧
  BankParser._link_recursive depth hier_cyclic 20 audio_set = Raise RecursionError.
Proof.
  revert audio_set. induction depth as [|depth IH]; intros audio_set; [done|].
  cbn [BankParser._link_recursive].
  rewrite !decide_False by (by intros [? ?]).
  change (BankParser.containers hier_cyclic !! 10)
    with (Some (parsed_container 10 [20])).
  change (BankParser.containers hier_cyclic !! 20)
    with (Some (parsed_container 20 [10])).
  cbn match.
  change (BankParser.playlist_children (parsed_container 10 [20])) with [20].
  change (BankParser.playlist_children (parsed_container 20 [10])) with [10].
  cbn [for_each].
  destruct (IH audio_set) as [-> ->]. done.
Qed.

(** C4 as worded fails on a bank with two containers listing each other:
    the bank parses, and whatever recursion depth the interpreter allows,
    resolution ends in [RecursionError]. *)
Lemma C4_counterexample :
  BankParser.parse BankParser.init bank_cyclic = Ok hier_cyclic ∧
  ∀ depth, BankParser.link_audio_to_events depth hier_cyclic
           = Raise RecursionError.
Proof.
  split; [by vm_compute|]. intros depth.
  unfold BankParser.link_audio_to_events.
  change (seq 0 (length (BankParser.events hier_cyclic))) with [0%nat].
  cbn [for_each]. unfold BankParser.link_event.
  change (BankParser.events hier_cyclic !! 0%nat)
    with (Some {| Event.id := 1; Event.actions := [10];
                  Event.audio_file_ids := [] |}).
  cbn [Event.actions for_each]. unfold BankParser._process_event_reference.
  change (BankParser.actions hier_cyclic !! 10) with (@None Action.t).
  cbn match. rewrite decide_True.
  2:{ change (BankParser.containers hier_cyclic !! 10)
        with (Some (parsed_container 10 [20])). eauto. }
  unfold BankParser._link_container_children.
  change (BankParser.containers hier_cyclic !! 10)
    with (Some (parsed_container 10 [20])).
  cbn match.
  change (BankParser.playlist_children (parsed_container 10 [20])) with [20].
  cbn [for_each].
  by destruct (_link_recursive_cyclic depth ∅) as [_ ->].
Qed.
(** * C5 *)

Section save_failure.
Import WwiseSoundbank.

(** What holds of the index of every bank a caller can hold: it fits the size
    field of a DIDX chunk, its IDs fit a u32, and every entry has its
    payload. *)
Lemma reachable_index self :
  reachable self →
  N.of_nat (12 * length (audio_entries self)) < 2 ^ 32 ∧
  Forall (λ e, AudioEntry.id e < 2 ^ 32 ∧ is_Some (AudioEntry.data e))
    (audio_entries self).
Proof.
  induction 1 as [file en self Hl|fs self audio_id p self' _ [IHn IHes] Hr].
  - split; [by apply load_index_fits in Hl as [? _]|].
    apply load_inv in Hl as (_ & _ & Hes & _).
    eapply Forall_impl; [exact Hes|]. by intros e (? & _ & ? & _).
  - apply replace_audio_inv in Hr as (_ & _ & _ & i & entry & Hfind & ->).
    rewrite length_insert. split; [done|].
    apply list_find_Some in Hfind as (Hi & _ & _).
    apply Forall_insert; [done|].
    exact (proj1 (Forall_lookup _ _) IHes i entry Hi).
Qed.

Lemma pack_u32x3_Raise en a b c exn :
  pack_u32x3 en a b c = Raise exn →
  exn = StructError ∧ (2 ^ 32 ≤ a ∨ 2 ^ 32 ≤ b ∨ 2 ^ 32 ≤ c).
Proof.
  unfold pack_u32x3, pack_u32.
  repeat case_decide; cbn [bind]; intros [= <-]; split; try done; lia.
Qed.

(** [_rebuild_loop] raises for a path that is missing or for a field that
    does not fit. *)
Lemma _rebuild_loop_Raise fs en es didx_data current_offset exn :
  Forall (λ e, AudioEntry.id e < 2 ^ 32) es →
  _rebuild_loop fs en es didx_data current_offset = Raise exn →
  (exn = FileNotFoundError ∧
   ∃ e q, e ∈ es ∧ AudioEntry.replacement_path e = Some q ∧ fs !! q = None) ∨
  (exn = StructError ∧
   ∃ k sizes,
     Forall2 (λ e s, AudioEntry.final_size fs e = Ok s) (take k es) sizes ∧
     2 ^ 32 ≤ current_offset + sum_N sizes).
Proof.
  intros Hids. revert didx_data current_offset.
  induction Hids as [|e es Hid _ IH]; intros didx_data current_offset;
    cbn [_rebuild_loop]; [done|].
  destruct (AudioEntry.final_size fs e) as [fsz|exn'] eqn:Hf; cbn [bind].
  - destruct (pack_u32x3 en (AudioEntry.id e) current_offset fsz) as [rec|exn']
      eqn:Hp; cbn [bind].
    + intros [(-> & e' & q & Hin & Hq & Hfs)|(-> & k & sizes & Hs & Hsum)]%IH.
      * left. split; [done|]. exists e', q. by rewrite elem_of_cons; eauto.
      * right. split; [done|]. exists (S k), (fsz :: sizes).
        cbn [take]. split; [by constructor|].
        cbn [sum_N foldr]. fold (sum_N sizes). lia.
    + intros [= <-]. apply pack_u32x3_Raise in Hp as (-> & [?|[?|?]]); [lia| |].
      * right. split; [done|]. exists 0%nat, []. cbn [take].
        split; [constructor|]. cbn. lia.
      * right. split; [done|]. exists 1%nat, [fsz]. cbn [take].
        split; [by repeat constructor|]. cbn. lia.
  - intros [= <-]. left.
    unfold AudioEntry.final_size, stat_size in Hf.
    destruct (AudioEntry.replacement_path e) as [q|] eqn:Hq; [|done].
    destruct (fs !! q) as [[c|n]|] eqn:Hfs; try done.
    injection Hf as <-. split; [done|]. exists e, q.
    by rewrite elem_of_cons; eauto.
Qed.

(** The index [_rebuild_loop] returns has twelve bytes per entry. *)
Lemma _rebuild_loop_length fs en es r :
  _rebuild_loop fs en es [] 0 = Ok r → length r = (12 * length es)%nat.
Proof.
  intros Hr. apply _rebuild_loop_Ok in Hr as (sizes & Hs & _ & ->).
  cbn [app]. rewrite length_index_body. f_equal.
  rewrite <- (length_fmap AudioEntry.id (written_index _ _)).
  rewrite written_index_ids.
  destruct (zip_ids_sizes _ _ _ Hs) as [-> _].
  by rewrite length_fmap.
Qed.

(** Once every size query has succeeded, the payload loop can only fail on
    a path that exists and cannot be opened. *)
Lemma _serialize_loop_unreadable fs es sizes audio_stream entry p :
  Forall (λ e, is_Some (AudioEntry.data e)) es →
  Forall2 (λ e s, AudioEntry.final_size fs e = Ok s) es sizes →
  entry ∈ es →
  AudioEntry.replacement_path entry = Some p →
  (∀ c, read_file fs p ≠ Ok c) →
  _serialize_loop fs es audio_stream = Raise PermissionError.
Proof.
  intros Hdata Hs Hin Hp Hread. revert sizes Hs audio_stream.
  induction Hdata as [|e es [d Hd] _ IH]; intros sizes Hs audio_stream;
    [by apply elem_of_nil in Hin|].
  apply Forall2_cons_inv_l in Hs as (s & sizes' & Hf & Hs & ->).
  cbn [_serialize_loop].
  unfold AudioEntry.final_size, stat_size in Hf. unfold read_file in *.
  destruct (AudioEntry.replacement_path e) as [q|] eqn:Hq.
  - destruct (fs !! q) as [[c|n]|] eqn:Hfs; [|done|done]. cbn [bind].
    apply elem_of_cons in Hin as [->|Hin]; [|by eapply IH].
    rewrite Hq in Hp. injection Hp as ->. rewrite Hfs in Hread.
    by destruct (Hread c).
  - rewrite Hd. cbn [bind].
    apply elem_of_cons in Hin as [->|Hin]; [congruence|by eapply IH].
Qed.
End save_failure.

(** C5, as the code has it.  For a bank that was loaded and had replacements
    queued, when the byte source of a queued replacement cannot be read at
    the time of [save], the call raises and leaves the output file neither
    complete nor empty.  The header chunk is always in it.  When rebuilding
    the index raises, nothing follows the header: the error is the
    [FileNotFoundError] of a queued path that names nothing, or the
    [struct.error] of an index whose sizes run past a u32.  When the index
    is rebuilt, its DIDX chunk follows the header and the error is the one
    [open] raises on a path that exists.  A replacement path that has gone
    missing is always of the first kind. *)
Theorem C5_save_leaves_partial_output
    (fs : FileSystem) (self : WwiseSoundbank.t) (entry : AudioEntry.t) (p : Path) :
  reachable self →
  entry ∈ WwiseSoundbank.audio_entries self →
  AudioEntry.replacement_path entry = Some p →
  (∀ c, read_file fs p ≠ Ok c) →
  ∃ hdr,
    header_chunk self = Ok hdr ∧
    match didx_chunk fs self with
    | Raise exn =>
        WwiseSoundbank.save fs self = (hdr, Raise exn) ∧
        (exn = FileNotFoundError ∧ queued_missing fs self ∨
         exn = StructError ∧ index_overflows fs self)
    | Ok didx =>
        WwiseSoundbank.save fs self = (hdr ++ didx, Raise PermissionError) ∧
        ∃ n, fs !! p = Some (Unreadable n)
    end ∧
    (fs !! p = None → ∃ exn, didx_chunk fs self = Raise exn).
Proof.
  intros Hreach Hin Hp Hread.
  destruct (reachable_index self Hreach) as [Hn Hes].
  assert (∃ hdr, header_chunk self = Ok hdr) as [hdr Hh].
  { unfold header_chunk.
    destruct (WwiseSoundbank.sections self !! "BKHD") as [sec|] eqn:Hsec;
      [|eauto].
    destruct (reachable_sections_framed self Hreach _ _ Hsec) as [_ Hl].
    eexists. apply serialize_Ok. eauto. }
  exists hdr. split; [done|].
  assert (Forall (λ e, AudioEntry.id e < 2 ^ 32)
            (WwiseSoundbank.audio_entries self)) as Hids
    by (eapply Forall_impl; [exact Hes|]; by intros e [? _]).
  assert (Forall (λ e, is_Some (AudioEntry.data e))
            (WwiseSoundbank.audio_entries self)) as Hdata
    by (eapply Forall_impl; [exact Hes|]; by intros e [_ ?]).
  unfold WwiseSoundbank.save. fold (header_chunk self). rewrite Hh.
  fold (didx_chunk fs self). cbn [app].
  unfold didx_chunk, WwiseSoundbank._rebuild_audio_index.
  destruct (WwiseSoundbank._rebuild_loop fs (WwiseSoundbank.endian self)
              (WwiseSoundbank.audio_entries self) [] 0) as [body|exn] eqn:Hloop;
    cbn [bind].
  - pose proof (_rebuild_loop_length _ _ _ _ Hloop) as Hlen.
    destruct (SoundbankSection.serialize _ _) as [didx|exn] eqn:Hser.
    2:{ exfalso. revert Hser.
        unfold SoundbankSection.serialize, pack_u32.
        cbn [SoundbankSection.data]. rewrite Hlen.
        rewrite decide_True by done. done. }
    apply _rebuild_loop_Ok in Hloop as (sizes & Hs & _).
    unfold WwiseSoundbank._serialize_audio_data.
    rewrite (_serialize_loop_unreadable fs _ sizes [] entry p Hdata Hs Hin Hp Hread).
    cbn [bind]. split; [split; [done|]|].
    + apply list_elem_of_lookup in Hin as [i Hi].
      destruct (Forall2_lookup_l _ _ _ i entry Hs Hi) as (s & _ & Hf).
      unfold AudioEntry.final_size, stat_size in Hf. rewrite Hp in Hf.
      unfold read_file in Hread.
      destruct (fs !! p) as [[c|n]|]; [by destruct (Hread c)|eauto|done].
    + intros Hfs. exfalso.
      apply list_elem_of_lookup in Hin as [i Hi].
      destruct (Forall2_lookup_l _ _ _ i entry Hs Hi) as (s & _ & Hf).
      unfold AudioEntry.final_size, stat_size in Hf. by rewrite Hp, Hfs in Hf.
  - split; [|eauto]. split; [done|].
    apply _rebuild_loop_Raise in Hloop as [[-> Hm]|[-> Ho]]; [by left|by right|done].
Qed.

Lemma C5_witness :
  ∃ hdr,
    header_chunk bank_minimal_queued = Ok hdr ∧
    match didx_chunk ∅ bank_minimal_queued with
    | Raise exn =>
        WwiseSoundbank.save ∅ bank_minimal_queued = (hdr, Raise exn) ∧
        (exn = FileNotFoundError ∧ queued_missing ∅ bank_minimal_queued ∨
         exn = StructError ∧ index_overflows ∅ bank_minimal_queued)
    | Ok didx =>
        WwiseSoundbank.save ∅ bank_minimal_queued
          = (hdr ++ didx, Raise PermissionError) ∧
        ∃ n, (∅ : FileSystem) !! "a.wem" = Some (Unreadable n)
    end ∧
    ((∅ : FileSystem) !! "a.wem" = None →
     ∃ exn, didx_chunk ∅ bank_minimal_queued = Raise exn).
Proof.
  apply (C5_save_leaves_partial_output ∅ bank_minimal_queued
           {| AudioEntry.id := 1; AudioEntry.offset := 0; AudioEntry.size := 4;
              AudioEntry.data := Some (B [0xAA; 0xBB; 0xCC; 0xDD]);
              AudioEntry.replacement_path := Some "a.wem" |} "a.wem").
  - apply (reachable_replace fs_two_files bank_minimal_loaded 1 "a.wem").
    + apply (reachable_load bank_minimal Little). by vm_compute.
    + by vm_compute.
  - vm_compute. constructor.
  - reflexivity.
  - intros c. vm_compute. discriminate.
Defined.

(** The third way to fail: a queued path that can be [stat]ed at 4 GiB and
    not opened.  The size does not fit the index, and [save] raises
    [struct.error] from the rebuild, ahead of any read. *)
Example save_size_beyond_u32 :
  WwiseSoundbank.save fs_huge bank_minimal_queued
    = (chunk "BKHD" (u32 140), Raise StructError).
Proof. by vm_compute. Qed.

(** C5 as worded fails once a replacement queued for ID 1 is gone or cannot
    be opened when the bank is saved: the call raises with the header chunk
    already in the output file, and in the second case the DIDX chunk too. *)
Lemma C5_counterexample :
  WwiseSoundbank.replace_audio fs_two_files bank_minimal_loaded 1 "a.wem"
    = Ok bank_minimal_queued ∧
  WwiseSoundbank.save ∅ bank_minimal_queued
    = (chunk "BKHD" (u32 140), Raise FileNotFoundError) ∧
  WwiseSoundbank.save {[ "a.wem" := Unreadable 5 ]} bank_minimal_queued
    = (chunk "BKHD" (u32 140) ++ chunk "DIDX" (u32 1 ++ u32 0 ++ u32 5),
       Raise PermissionError).
Proof. split_and!; by vm_compute. Qed.
(** * C3 *)

(** C3, as the code has it.  A bank that was saved loads again, and in its
    index every offset is the sum of the sizes before it (the first offset
    being 0).  The length of its DATA payload is the sum of the sizes in
    the index provided every payload kept from the input was of its
    declared size. *)
Theorem C3_prefix_sums_and_data_length
    (fs : FileSystem) (self : WwiseSoundbank.t) (out : bytes) :
  reachable self →
  WwiseSoundbank.save fs self = (out, Ok ()) →
  ∃ self' blob,
    WwiseSoundbank.load out (WwiseSoundbank.endian self) = Ok self' ∧
    data_blob out self' = Some blob ∧
    (∀ i e, WwiseSoundbank.audio_entries self' !! i = Some e →
       AudioEntry.offset e = sum_N (take i (index_sizes self'))) ∧
    (payloads_in_bounds self →
       N.of_nat (length blob) = sum_N (index_sizes self')).
Proof.
  intros Hfr%reachable_sections_framed Hsave.
  destruct (load_saved fs self out Hfr Hsave)
    as (sizes & payloads & self' & D & Hs & Hp & Hload & _ & _ & Hdsz & Hdoff
        & Hdrop & Hes).
  exists self', (concat payloads). split_and!; [done| | |].
  - unfold data_blob. rewrite Hdoff, Hdsz, Hdrop, Nat2N.id.
    by rewrite take_app_length.
  - intros i e He. unfold index_sizes. rewrite Hes in He |- *.
    apply list_lookup_fmap_Some in He as (w & -> & Hw).
    apply written_index_offset in Hw. cbn [preloaded AudioEntry.set_data AudioEntry.offset].
    rewrite Hw, preloaded_sizes, fmap_take. lia.
  - intros Hb. unfold index_sizes. rewrite Hes, preloaded_sizes, written_index_sizes.
    destruct (zip_ids_sizes _ _ _ Hs) as [_ Hz]. unfold index_ids. rewrite Hz.
    symmetry. apply sum_N_sizes_payloads. by eapply sizes_match.
Qed.

Lemma reachable_bank_minimal_queued : reachable bank_minimal_queued.
Proof.
  apply (reachable_replace fs_two_files bank_minimal_loaded 1 "a.wem").
  - apply (reachable_load bank_minimal Little). by vm_compute.
  - by vm_compute.
Qed.

Lemma C3_witness :
  ∃ self' blob,
    WwiseSoundbank.load bank_minimal_patched Little = Ok self' ∧
    data_blob bank_minimal_patched self' = Some blob ∧
    (∀ i e, WwiseSoundbank.audio_entries self' !! i = Some e →
       AudioEntry.offset e = sum_N (take i (index_sizes self'))) ∧
    N.of_nat (length blob) = sum_N (index_sizes self').
Proof.
  destruct (C3_prefix_sums_and_data_length fs_two_files bank_minimal_queued
              bank_minimal_patched)
    as (self' & blob & Hload & Hblob & Hoff & Hlen).
  - apply reachable_bank_minimal_queued.
  - by vm_compute.
  - exists self', blob. split_and!; [done|done|done|].
    apply Hlen. repeat constructor. intros [=].
Defined.

(** C3 as worded fails on a bank whose index claims more bytes than the
    file holds: the sizes are written as declared, 2 and 100, in front of a
    DATA payload of five bytes. *)
Lemma C3_counterexample :
  ∃ self out self' blob,
    WwiseSoundbank.load bank_short_payload Little = Ok self ∧
    WwiseSoundbank.save ∅ self = (out, Ok ()) ∧
    WwiseSoundbank.load out Little = Ok self' ∧
    data_blob out self' = Some blob ∧
    index_sizes self' = [2; 100] ∧
    length blob = 5%nat ∧
    N.of_nat (length blob) ≠ sum_N (index_sizes self').
Proof.
  eexists _, _, _, _.
  split; [by vm_compute|]. split; [by vm_compute|].
  split; [by vm_compute|]. split; [by vm_compute|].
  split; [by vm_compute|]. split; [by vm_compute|].
  by vm_compute.
Qed.
(** * C1 *)


(** C1, as the code has it.  A bank that loads, with index sizes whose sum
    fits a u32, can be saved with nothing queued, and what was saved loads
    again with the same IDs and sizes in the same order, the same header
    section and the same trailing bytes.  Its DATA payload is the payloads
    held for the entries, one after the other: it is the DATA payload of the
    input when the index of the input tiles that payload, and otherwise
    leaves out what the index does not span.  Every entry has the payload it
    had when each payload of the input was of its declared size. *)
Theorem C1_round_trip
    (fs : FileSystem) (file : bytes) (en : Endian) (self : WwiseSoundbank.t) :
  WwiseSoundbank.load file en = Ok self →
  sum_N (index_sizes self) < 2 ^ 32 →
  ∃ out self',
    WwiseSoundbank.save fs self = (out, Ok ()) ∧
    WwiseSoundbank.load out en = Ok self' ∧
    index_ids self' = index_ids self ∧
    index_sizes self' = index_sizes self ∧
    WwiseSoundbank.sections self' !! "BKHD"
      = WwiseSoundbank.sections self !! "BKHD" ∧
    WwiseSoundbank._trailing_data self' = WwiseSoundbank._trailing_data self ∧
    data_blob out self' = Some (concat (index_payloads self)) ∧
    (tiled self → data_blob out self' = data_blob file self) ∧
    (payloads_in_bounds self → index_payloads self' = index_payloads self).
Proof.
  intros Hload Hsum.
  pose proof Hload as (Hen & Hfr & Hld & didx & D0 & Hdidx & HD0 & Hes)%load_inv.
  pose proof Hload as [Hn Hle]%load_index_fits.
  pose proof (Forall2_fmap_same _ _ _ (loaded_final_sizes fs _ Hld)) as Hs0.
  pose proof (Forall2_fmap_same _ _ _ (loaded_payloads fs _ Hld)) as Hp0.
  assert (∃ out, WwiseSoundbank.save fs self = (out, Ok ())) as [out Hsave].
  { apply (save_completes fs self (index_sizes self) (index_payloads self) Hfr Hn);
      [|exact Hs0|exact Hp0|exact Hsum|].
    - eapply Forall_impl; [exact Hld|]. by intros e (? & _).
    - pose proof (payloads_within_sizes _ Hle). unfold index_payloads, index_sizes in *.
      lia. }
  destruct (load_saved fs self out Hfr Hsave)
    as (sizes & payloads & self' & D & Hs & Hp & Hload' & Hhdr & Htr & Hdsz & Hdoff
        & Hdrop & Hes').
  rewrite Hen in Hload'.
  assert (sizes = index_sizes self) as ->
    by (eapply Forall2_functional; [exact Hs|by apply loaded_final_sizes]).
  assert (payloads = index_payloads self) as ->
    by (eapply Forall2_functional; [exact Hp|by apply loaded_payloads]).
  destruct (zip_ids_sizes _ _ _ Hs) as [Hz1 Hz2].
  fold (index_ids self) in Hz1, Hz2.
  assert (data_blob out self' = Some (concat (index_payloads self))) as Hblob.
  { unfold data_blob. rewrite Hdoff, Hdsz, Hdrop, Nat2N.id.
    by rewrite take_app_length. }
  exists out, self'. split_and!; try done.
  - unfold index_ids at 1. by rewrite Hes', preloaded_ids, written_index_ids.
  - unfold index_sizes at 1. by rewrite Hes', preloaded_sizes, written_index_sizes.
  - intros (Hoff & [D1 HD1] & Hsz). rewrite Hblob.
    unfold data_blob. rewrite HD1, Hsz. f_equal.
    destruct (WwiseSoundbank.audio_entries self) as [|e0 es0] eqn:Hnil.
    { unfold index_payloads, index_sizes. by rewrite Hnil. }
    rewrite <- Hnil in *. rewrite HD0 in HD1 by (by rewrite Hnil).
    injection HD1 as <-.
    unfold index_payloads, index_sizes.
    pose proof (tiles_concat file D0 (WwiseSoundbank.audio_entries self) 0) as Ht.
    change (N.to_nat 0) with 0%nat in Ht. rewrite Nat.add_0_r in Ht.
    rewrite <- Ht.
    2:{ intros i e He. rewrite (Hoff i e He). unfold index_sizes.
        rewrite fmap_take. lia. }
    f_equal. rewrite Hes, <- !list_fmap_compose. by apply list_fmap_ext.
  - intros Hb. pose proof (sizes_match _ _ _ _ Hs Hp Hb) as Hm.
    assert (AudioEntry.data <$> WwiseSoundbank.audio_entries self'
            = Some <$> index_payloads self) as Hdata'.
    { rewrite Hes'.
      apply (preloaded_tiled _ _ _ _ (WwiseSoundbank._trailing_data self)).
      - pose proof Hm as Hm'. rewrite <- Hz2 in Hm'.
        by apply Forall2_fmap_l in Hm'.
      - by rewrite Nat.add_0_r. }
    unfold index_payloads at 1.
    rewrite (list_fmap_compose AudioEntry.data (default [])), Hdata'.
    rewrite <- list_fmap_compose. by rewrite list_fmap_id.
Qed.

Lemma C1_witness :
  ∃ out self',
    WwiseSoundbank.save ∅ bank_minimal_loaded = (out, Ok ()) ∧
    WwiseSoundbank.load out Little = Ok self' ∧
    index_ids self' = index_ids bank_minimal_loaded ∧
    index_sizes self' = index_sizes bank_minimal_loaded ∧
    WwiseSoundbank.sections self' !! "BKHD"
      = WwiseSoundbank.sections bank_minimal_loaded !! "BKHD" ∧
    WwiseSoundbank._trailing_data self'
      = WwiseSoundbank._trailing_data bank_minimal_loaded ∧
    data_blob out self' = Some (concat (index_payloads bank_minimal_loaded)) ∧
    data_blob out self' = data_blob bank_minimal bank_minimal_loaded ∧
    index_payloads self' = index_payloads bank_minimal_loaded.
Proof.
  destruct (C1_round_trip ∅ bank_minimal Little bank_minimal_loaded)
    as (out & self' & H1 & H2 & H3 & H4 & H5 & H6 & H7 & H8 & H9).
  - by vm_compute.
  - by vm_compute.
  - exists out, self'.
    split_and!; [exact H1|exact H2|exact H3|exact H4|exact H5|exact H6|exact H7
                | |].
    + apply H8. split_and!.
      * intros [|[|i]] e; [|done..]. intros [= <-]. by vm_compute.
      * by eexists.
      * by vm_compute.
    + apply H9. unfold payloads_in_bounds, bank_minimal_loaded.
      cbn [WwiseSoundbank.audio_entries].
      apply Forall_cons. split; [|constructor].
      intros _. eexists. split; [reflexivity|]. by vm_compute.
Defined.

(** C1 as worded fails on a bank with padding between its payloads: every
    entry lies in the file, the bank is saved and loads again, yet the DATA
    payload has lost the two bytes the index does not span. *)
Lemma C1_counterexample :
  ∃ self out self',
    WwiseSoundbank.load bank_padded Little = Ok self ∧
    WwiseSoundbank.save ∅ self = (out, Ok ()) ∧
    WwiseSoundbank.load out Little = Ok self' ∧
    data_blob bank_padded self = Some (B [0xA0; 0xA1; 0; 0; 0xB0; 0xB1]) ∧
    data_blob out self' = Some (B [0xA0; 0xA1; 0xB0; 0xB1]) ∧
    data_blob out self' ≠ data_blob bank_padded self.
Proof.
  eexists _, _, _.
  split; [by vm_compute|]. split; [by vm_compute|].
  split; [by vm_compute|]. split; [by vm_compute|].
  split; [by vm_compute|]. by vm_compute.
Qed.
(** * C2 *)

Section replacement_law_proof.
Import WwiseSoundbank.

Lemma sizes_match_written fs es sizes payloads :
  Forall2 (λ e s, AudioEntry.final_size fs e = Ok s) es sizes →
  Forall2 (λ e p, entry_payload fs e = Ok p) es payloads →
  Forall (λ e, ∃ p, entry_payload fs e = Ok p ∧
                    AudioEntry.final_size fs e = Ok (N.of_nat (length p))) es →
  Forall2 (λ s p, s = N.of_nat (length p)) sizes payloads.
Proof.
  intros Hs. revert payloads.
  induction Hs as [|e s es sizes Hf _ IH]; intros payloads Hp Hg.
  { apply Forall2_nil_inv_l in Hp as ->. constructor. }
  apply Forall2_cons_inv_l in Hp as (p & ps & Hp & Hps & ->).
  apply Forall_cons in Hg as [(p' & Hp' & Hf') Hgs].
  constructor; [congruence|by apply IH].
Qed.

Lemma read_file_Ok fs p c : read_file fs p = Ok c → fs !! p = Some (Regular c).
Proof.
  unfold read_file. destruct (fs !! p) as [[c'|n]|]; [|done..]. congruence.
Qed.

(** C2, as the code has it.  Take a bank that loads, queue a plan on it, and
    let every payload that is kept be of its declared size, every path the
    plan ends up with be a readable file, and the new payloads have a total
    that fits a u32.  Then the bank can be saved, what was saved loads again
    with the same IDs, and for every ID of the index the entry found under
    it holds the bytes of the last file queued for that ID when the plan has
    one, the original payload found under that ID otherwise, with a size
    field equal to the length of those bytes. *)
Theorem C2_replacement_law
    (fs : FileSystem) (file : bytes) (en : Endian)
    (self0 : WwiseSoundbank.t) (R : list (N * Path)) (self : WwiseSoundbank.t) :
  load file en = Ok self0 →
  queue_all fs R self0 = Ok self →
  payloads_in_bounds self →
  (∀ audio_id p, last_queued R audio_id = Some p →
                 ∃ c, fs !! p = Some (Regular c)) →
  N.of_nat (length (concat (final_payloads fs self))) < 2 ^ 32 →
  ∃ out self',
    save fs self = (out, Ok ()) ∧
    load out en = Ok self' ∧
    index_ids self' = index_ids self0 ∧
    ∀ audio_id, audio_id ∈ index_ids self0 →
      ∃ e0 e' chosen,
        find_audio_entry self0 audio_id = Some e0 ∧
        find_audio_entry self' audio_id = Some e' ∧
        match last_queued R audio_id with
        | Some p => fs !! p = Some (Regular chosen)
        | None => AudioEntry.data e0 = Some chosen
        end ∧
        AudioEntry.data e' = Some chosen ∧
        AudioEntry.size e' = N.of_nat (length chosen).
Proof.
  intros Hload Hq Hb Hfiles Htot.
  pose proof Hload as (Hen & Hfr0 & Hld0 & didx & D0 & Hdidx & _ & Hes0)%load_inv.
  pose proof Hq as (Hen' & Hsec & Htr & Hids & Hall)%queue_all_inv.
  assert (length (audio_entries self) = length (audio_entries self0)) as Hlen.
  { rewrite <- (length_fmap AudioEntry.id (audio_entries self)).
    rewrite <- (length_fmap AudioEntry.id (audio_entries self0)).
    unfold index_ids in Hids. by rewrite Hids. }
  (* every entry of the queued bank has its size and its bytes *)
  assert (Forall (λ e, AudioEntry.id e < 2 ^ 32 ∧
                       ∃ p, entry_payload fs e = Ok p ∧
                            AudioEntry.final_size fs e = Ok (N.of_nat (length p)))
            (audio_entries self)) as Hgood.
  { apply Forall_lookup. intros i e He.
    destruct (lookup_lt_is_Some_2 (audio_entries self0) i) as [e0 He0].
    { rewrite <- Hlen. by eapply lookup_lt_Some. }
    destruct (Hall i e0 He0) as (e' & He' & Hid & Hsz & Hd & Hrp).
    assert (e' = e) as -> by congruence.
    destruct (proj1 (Forall_lookup _ _) Hld0 i e0 He0) as (Hid0 & _ & _ & Hrp0).
    split; [congruence|].
    pose proof (proj1 (Forall_lookup _ _) Hb i e He) as Hbe.
    unfold entry_payload, AudioEntry.final_size. rewrite Hrp, Hrp0 in *.
    destruct (if decide (first_index self0 (AudioEntry.id e0) = Some i)
              then last_queued R (AudioEntry.id e0) else None) as [p|] eqn:Hlq.
    - case_decide; [|done]. destruct (Hfiles _ _ Hlq) as [c Hc].
      exists c. unfold read_file, stat_size. by rewrite Hc.
    - destruct Hbe as (d & Hd' & Hdl); [done|].
      exists d. rewrite Hd'. split; [done|]. congruence. }
  destruct (save_Ok_intro fs self) as [out Hsave]; [| |done|done|].
  { unfold sections_framed. by rewrite Hsec. }
  { rewrite Hlen, Hes0, length_fmap, length_didx_entries.
    destruct (Hfr0 _ _ Hdidx) as [_ Hl].
    pose proof (Nat.div_mod_eq (length (SoundbankSection.data didx)) 12). lia. }
  assert (sections_framed self) as Hfr
    by (unfold sections_framed; by rewrite Hsec).
  destruct (load_saved fs self out Hfr Hsave)
    as (sizes & payloads & self' & D & Hs & Hp & Hload' & _ & _ & _ & _ & Hdrop
        & Hes').
  rewrite Hen', Hen in Hload'.
  assert (Forall2 (λ s p, s = N.of_nat (length p)) sizes payloads) as Hm.
  { eapply sizes_match_written; [done..|].
    eapply Forall_impl; [exact Hgood|]. by intros e [_ ?]. }
  destruct (zip_ids_sizes _ _ _ Hs) as [Hz1 Hz2].
  fold (index_ids self) in Hz1, Hz2.
  assert (index_ids self' = index_ids self0) as Hids'.
  { unfold index_ids at 1. rewrite Hes', preloaded_ids, written_index_ids. congruence. }
  assert (index_sizes self' = sizes) as Hsizes'.
  { unfold index_sizes. by rewrite Hes', preloaded_sizes, written_index_sizes. }
  assert (AudioEntry.data <$> audio_entries self' = Some <$> payloads) as Hdata'.
  { rewrite Hes'. apply (preloaded_tiled _ _ _ _ (_trailing_data self)).
    - pose proof Hm as Hm'. rewrite <- Hz2 in Hm'. by apply Forall2_fmap_l in Hm'.
    - by rewrite Nat.add_0_r. }
  exists out, self'. split_and!; [done..|].
  intros audio_id Hin.
  (* the entry found under the ID, before and after *)
  destruct (find_audio_entry_at self0 audio_id) as [[i e0]|] eqn:Hf0.
  2:{ by apply find_audio_entry_at_None in Hf0. }
  pose proof Hf0 as (He0 & Hid0 & _)%list_find_Some.
  assert (first_index self0 audio_id = Some i) as Hfirst
    by (apply first_index_Some; eauto).
  assert (first_index self' audio_id = Some i) as (e' & Hf')%first_index_Some
    by (by rewrite (first_index_ids self' self0)).
  pose proof Hf' as (He' & _ & _)%list_find_Some.
  destruct (Hall i e0 He0) as (e & He & Hid & Hsz & Hd & Hrp).
  rewrite Hid0, decide_True in Hrp by done.
  destruct (Forall2_lookup_l _ _ _ _ _ Hp He) as (chosen & Hpi & Hpay).
  destruct (Forall2_lookup_r _ _ _ _ _ Hm Hpi) as (s & Hsi & ->).
  destruct (proj1 (Forall_lookup _ _) Hld0 i e0 He0) as (_ & _ & _ & Hrp0).
  exists e0, e', chosen. split_and!.
  - unfold find_audio_entry. by rewrite Hf0.
  - unfold find_audio_entry. by rewrite Hf'.
  - unfold entry_payload in Hpay. rewrite Hrp in Hpay.
    destruct (last_queued R audio_id) as [p|].
    + by apply read_file_Ok.
    + rewrite Hrp0, Hd in Hpay. destruct (AudioEntry.data e0); congruence.
  - assert ((AudioEntry.data <$> audio_entries self') !! i = Some (Some chosen)) as Hl
      by (by rewrite Hdata', list_lookup_fmap, Hpi).
    rewrite list_lookup_fmap, He' in Hl. by injection Hl.
  - assert (index_sizes self' !! i = Some (N.of_nat (length chosen))) as Hl
      by (by rewrite Hsizes').
    unfold index_sizes in Hl. rewrite list_lookup_fmap, He' in Hl. by injection Hl.
Qed.
End replacement_law_proof.

Lemma C2_witness :
  ∃ out self',
    WwiseSoundbank.save fs_z (bank_three_with (Some "z.wem")) = (out, Ok ()) ∧
    WwiseSoundbank.load out Little = Ok self' ∧
    index_ids self' = index_ids (bank_three_with None) ∧
    ∀ audio_id, audio_id ∈ index_ids (bank_three_with None) →
      ∃ e0 e' chosen,
        WwiseSoundbank.find_audio_entry (bank_three_with None) audio_id = Some e0 ∧
        WwiseSoundbank.find_audio_entry self' audio_id = Some e' ∧
        match last_queued plan_y_z audio_id with
        | Some p => fs_z !! p = Some (Regular chosen)
        | None => AudioEntry.data e0 = Some chosen
        end ∧
        AudioEntry.data e' = Some chosen ∧
        AudioEntry.size e' = N.of_nat (length chosen).
Proof.
  apply (C2_replacement_law fs_z bank_three Little (bank_three_with None)
           plan_y_z (bank_three_with (Some "z.wem"))).
  - by vm_compute.
  - by vm_compute.
  - unfold payloads_in_bounds, bank_three_with. cbn [WwiseSoundbank.audio_entries].
    repeat (apply Forall_cons; split;
            [intros _; eexists; split; [reflexivity|by vm_compute]|]).
    constructor.
  - intros audio_id p. unfold plan_y_z. cbn [last_queued].
    repeat case_decide; intros [= <-]; eexists; by vm_compute.
  - by vm_compute.
Defined.

(** The three-entry sample, saved with Z0 queued for its middle entry: the
    index and the DATA payload of the output. *)
Example save_bank_three_queued :
  (WwiseSoundbank.save fs_z (bank_three_with (Some "z.wem"))).1 =
    chunk "BKHD" (u32 140) ++
    chunk "DIDX" (u32 1 ++ u32 0 ++ u32 2 ++ u32 2 ++ u32 2 ++ u32 1
                  ++ u32 3 ++ u32 3 ++ u32 1) ++
    chunk "DATA" (B [0xA0; 0xA1; 0xF0; 0xC0]).
Proof. by vm_compute. Qed.

(** C2 as worded fails on a bank whose second entry claims 100 bytes where
    the file has three: with a replacement queued for ID 1 only, the entry
    written for ID 2 has the size field 100 in front of a payload of three
    bytes. *)
Lemma C2_counterexample :
  ∃ self0 self out self' e0 e',
    WwiseSoundbank.load bank_short_payload Little = Ok self0 ∧
    queue_all fs_two_files [(1, "a.wem")] self0 = Ok self ∧
    WwiseSoundbank.save fs_two_files self = (out, Ok ()) ∧
    WwiseSoundbank.load out Little = Ok self' ∧
    last_queued [(1, "a.wem")] 2 = None ∧
    WwiseSoundbank.find_audio_entry self0 2 = Some e0 ∧
    AudioEntry.data e0 = Some (B [0xB0; 0xB1; 0xB2]) ∧
    WwiseSoundbank.find_audio_entry self' 2 = Some e' ∧
    AudioEntry.data e' = Some (B [0xB0; 0xB1; 0xB2]) ∧
    AudioEntry.size e' = 100 ∧
    AudioEntry.size e' ≠ N.of_nat (length (B [0xB0; 0xB1; 0xB2])).
Proof.
  eexists _, _, _, _, _, _.
  split; [by vm_compute|]. split; [by vm_compute|].
  split; [by vm_compute|]. split; [by vm_compute|].
  split; [by vm_compute|]. split; [by vm_compute|].
  split; [by vm_compute|]. split; [by vm_compute|].
  split; [by vm_compute|]. split; [by vm_compute|].
  by vm_compute.
Qed.
(** * Further properties of the patcher *)

(** ** Framing of a section *)

(** X1.  [SoundbankSection.serialize] of a section under one of the tags of
    a bank: with a payload below 2^32 bytes it returns the four tag bytes,
    a size field that unpacks, under the same byte order, to the length of
    the payload, and the payload itself, eight bytes more than the payload
    in all; with a longer payload it raises [struct.error]. *)
Theorem X1_serialize_framing (sec : SoundbankSection.t) (en : Endian) :
  SoundbankSection.magic sec ∈ ["BKHD"; "DIDX"; "DATA"] →
  let payload := SoundbankSection.data sec in
  if decide (N.of_nat (length payload) < 2 ^ 32) then
    ∃ bs,
      SoundbankSection.serialize sec en = Ok bs ∧
      length bs = (8 + length payload)%nat ∧
      decode_ascii_ignore (slice bs 0 4) = SoundbankSection.magic sec ∧
      unpack_u32 en (slice bs 4 8) = Ok (N.of_nat (length payload)) ∧
      drop 8 bs = payload
  else SoundbankSection.serialize sec en = Raise StructError.
Proof.
  intros Htag payload. case_decide as Hn.
  - exists (chunk_with en (SoundbankSection.magic sec) payload).
    destruct (encode_stored_tag _ Htag) as [Hlen Hdec].
    assert (length (in_order en (le_digits 4 (N.of_nat (length payload)))) = 4%nat)
      as Hsz by (by rewrite length_in_order, length_le_digits).
    split; [by apply serialize_Ok|]. unfold chunk_with, slice.
    split; [rewrite !length_app; lia|].
    split.
    { rewrite drop_0. cbn [Nat.sub]. rewrite take_app_length'; done. }
    split.
    { rewrite drop_app_length' by done. cbn [Nat.sub].
      rewrite take_app_length' by done. by apply unpack_size_field. }
    rewrite app_assoc. rewrite drop_app_length'; [done|].
    rewrite length_app. lia.
  - unfold SoundbankSection.serialize, pack_u32. fold payload.
    by rewrite decide_False.
Qed.

Lemma X1_witness :
  ∃ bs,
    SoundbankSection.serialize
      {| SoundbankSection.magic := "DIDX";
         SoundbankSection.data := u32 1 ++ u32 0 ++ u32 4 |} Big = Ok bs ∧
    length bs = 20%nat ∧
    decode_ascii_ignore (slice bs 0 4) = "DIDX" ∧
    unpack_u32 Big (slice bs 4 8) = Ok 12 ∧
    drop 8 bs = u32 1 ++ u32 0 ++ u32 4.
Proof.
  apply (X1_serialize_framing
           {| SoundbankSection.magic := "DIDX";
              SoundbankSection.data := u32 1 ++ u32 0 ++ u32 4 |} Big).
  vm_compute. set_solver.
Defined.
(** ** Loading: what it raises *)

Section load_errors.
Import WwiseSoundbank.

Lemma sections_store_sections_None cs self k :
  k ∉ cs.*1 → sections (store_sections cs self) !! k = sections self !! k.
Proof.
  revert self. induction cs as [|[tag payload] cs IH]; intros self Hk; [done|].
  cbn [fmap list_fmap fst] in Hk. apply not_elem_of_cons in Hk as [Hne Hk].
  unfold store_sections in *. cbn [foldl]. rewrite IH by done.
  unfold set_section; cbn [sections fst snd]. by rewrite lookup_insert_ne.
Qed.

Lemma _data_offset_store_sections cs self :
  _data_offset (store_sections cs self) = _data_offset self.
Proof.
  revert self. induction cs as [|c cs IH]; intros self; [done|].
  unfold store_sections in *. cbn [foldl]. by rewrite IH.
Qed.

(** What the scan leaves for each way it can end. *)
Lemma _parse_sections_ends en cs rest :
  Forall stored_chunk cs →
  scan_ends en rest →
  ∃ self' stream',
    _parse_sections (new_soundbank en) (open_ (chunks_with en cs ++ rest))
      = Ok (self', stream') ∧
    buf stream' = chunks_with en cs ++ rest ∧
    sections self' = sections (store_sections cs (new_soundbank en)) ∧
    audio_entries self' = [] ∧
    endian self' = en ∧
    (is_Some (_data_offset self') ↔
     ∃ size tail,
       size < 2 ^ 32 ∧
       rest = encode_ascii "DATA" ++ in_order en (le_digits 4 size) ++ tail).
Proof.
  intros Hcs [Hshort|[[Hlen Htag]|(size & tail & Hsize & Hrest)]].
  - destruct (_parse_sections_exhausted (new_soundbank en) cs rest Hcs Hshort)
      as (stream' & Hp & Hb).
    eexists _, stream'. split; [exact Hp|]. split; [exact Hb|].
    cbn [set_trailing sections audio_entries endian _data_offset].
    rewrite audio_entries_store_sections, endian_store_sections.
    split_and!; [done..|].
    rewrite _data_offset_store_sections. cbn [new_soundbank _data_offset].
    split; [by intros [? [=]]|].
    intros (size & tail & _ & ->). rewrite !length_app in Hshort.
    cbn in Hshort. lia.
  - destruct (_parse_sections_unknown (new_soundbank en) cs rest Hcs Hlen Htag)
      as (stream' & Hp & Hb).
    eexists _, stream'. split; [exact Hp|]. split; [exact Hb|].
    cbn [set_trailing sections audio_entries endian _data_offset].
    rewrite audio_entries_store_sections, endian_store_sections.
    split_and!; [done..|].
    rewrite _data_offset_store_sections. cbn [new_soundbank _data_offset].
    split; [by intros [? [=]]|].
    intros (size & tail & _ & ->). exfalso. apply Htag.
    rewrite take_app_length' by done. vm_compute. repeat constructor.
  - destruct (_parse_sections_data (new_soundbank en) cs rest Hcs size tail
                Hrest Hsize) as (stream' & Hp & Hb).
    eexists _, stream'. split; [exact Hp|]. split; [exact Hb|].
    cbn [set_trailing set_data_chunk sections audio_entries endian _data_offset].
    rewrite audio_entries_store_sections, endian_store_sections.
    split_and!; [done..|]. split; [eauto 10|eauto].
Qed.

Lemma load_unfold file en :
  load file en =
    (let! (self, stream) := _parse_sections (new_soundbank en) (open_ file) in
     let! self := _extract_audio_catalog self in
     let! (self, stream) := _preload_audio_data self stream in
     Ok self).
Proof. done. Qed.

(** X2.  Constructing a [WwiseSoundbank] ends on every file, and raises
    nothing but [struct.error] (a size field cut short), [ValueError] (no
    DIDX chunk) and [AttributeError] (an index without a DATA chunk). *)
Theorem X2_load_raises_only (file : bytes) (en : Endian) :
  raises_only [StructError; ValueError; AttributeError] (load file en).
Proof.
  rewrite load_unfold. apply raises_only_bind.
  { eapply raises_only_weaken; [apply raises_only__parse_sections|].
    intros e He%list_elem_of_singleton. subst. repeat constructor. }
  intros [self stream]. apply raises_only_bind.
  { eapply raises_only_weaken; [apply raises_only__extract_audio_catalog|].
    intros e He%list_elem_of_singleton. subst. repeat constructor. }
  intros self'. apply raises_only_bind.
  { eapply raises_only_weaken; [apply raises_only__preload_audio_data|].
    intros e He%list_elem_of_singleton. subst. repeat constructor. }
  intros [self'' stream']. apply raises_only_Ok.
Qed.

(** X3.  A file whose chunks up to the place where the scan stops hold no
    DIDX chunk is refused with [ValueError], whatever follows that place:
    the empty file, a file that starts with another tag, a bank whose
    DIDX chunk comes behind its DATA chunk. *)
Theorem X3_load_without_index
    (en : Endian) (cs : list (string * bytes)) (rest : bytes) :
  Forall stored_chunk cs →
  "DIDX" ∉ cs.*1 →
  scan_ends en rest →
  load (chunks_with en cs ++ rest) en = Raise ValueError.
Proof.
  intros Hcs Hno Hrest.
  destruct (_parse_sections_ends en cs rest Hcs Hrest)
    as (self' & stream' & Hp & _ & Hsec & _).
  rewrite load_unfold, Hp. cbn [bind]. unfold _extract_audio_catalog.
  by rewrite Hsec, sections_store_sections_None.
Qed.

Lemma X3_witness :
  load (chunks_with Little [("BKHD", u32 140)] ++
          chunk "DATA" (B [1; 2]) ++ chunk "DIDX" (u32 1 ++ u32 0 ++ u32 2))
    Little = Raise ValueError.
Proof.
  apply X3_load_without_index.
  - repeat constructor.
  - cbn. by intros [=]%list_elem_of_singleton.
  - right; right. exists 2, (B [1; 2] ++ chunk "DIDX" (u32 1 ++ u32 0 ++ u32 2)).
    split; [lia|done].
Defined.

(** X4.  [__init__] never sets [_data_offset]: when the scan stops on
    anything but a DATA chunk, a bank whose DIDX chunk holds a whole record
    is refused with [AttributeError], and a bank whose DIDX chunk holds
    none loads with an empty index. *)
Theorem X4_load_index_without_data
    (en : Endian) (cs : list (string * bytes)) (rest : bytes)
    (didx : SoundbankSection.t) :
  Forall stored_chunk cs →
  scan_ends en rest →
  take 4 rest ≠ encode_ascii "DATA" →
  sections (store_sections cs (new_soundbank en)) !! "DIDX" = Some didx →
  if decide (length (SoundbankSection.data didx) < 12)%nat then
    ∃ self, load (chunks_with en cs ++ rest) en = Ok self ∧
            audio_entries self = [] ∧ _data_offset self = None
  else load (chunks_with en cs ++ rest) en = Raise AttributeError.
Proof.
  intros Hcs Hrest Htag Hdidx.
  destruct (_parse_sections_ends en cs rest Hcs Hrest)
    as (self' & stream' & Hp & _ & Hsec & Hes & Hen & Hoff).
  assert (_data_offset self' = None) as Hnone.
  { destruct (_data_offset self') as [off|] eqn:Ho; [|done].
    destruct (proj1 Hoff) as (size & tail & _ & ->); [by eauto|].
    exfalso. apply Htag. by rewrite take_app_length'. }
  rewrite load_unfold, Hp. cbn [bind].
  rewrite <- Hsec in Hdidx.
  rewrite (_extract_audio_catalog_spec _ _ Hdidx), Hes. cbn [bind app].
  unfold _preload_audio_data. cbn [set_audio_entries audio_entries _data_offset].
  rewrite Hnone. unfold didx_entries.
  case_decide as Hl.
  - rewrite Nat.div_small by done. cbn [seq fmap list_fmap _preload_entries bind].
    eexists. split; [done|]. done.
  - destruct (length (SoundbankSection.data didx) / 12)%nat eqn:Hq.
    { apply Nat.div_small_iff in Hq; [lia|done]. }
    done.
Qed.

Lemma X4_witness :
  load (chunks_with Little [("BKHD", u32 140); ("DIDX", u32 1 ++ u32 0 ++ u32 2)]
          ++ chunk "HIRC" (u32 0)) Little = Raise AttributeError.
Proof.
  apply (X4_load_index_without_data Little
           [("BKHD", u32 140); ("DIDX", u32 1 ++ u32 0 ++ u32 2)]
           (chunk "HIRC" (u32 0))
           {| SoundbankSection.magic := "DIDX";
              SoundbankSection.data := u32 1 ++ u32 0 ++ u32 2 |}).
  - repeat constructor.
  - right; left. split; [cbn; lia|]. vm_compute.
    intros H. repeat (apply elem_of_cons in H as [[=]|H]). by apply elem_of_nil in H.
  - by intros [=].
  - done.
Defined.
End load_errors.
(** ** Loading: what the entries hold *)

Section load_entries.
Import WwiseSoundbank.

(** What loading leaves in the index, entry by entry. *)
Lemma load_entries_inv (file : bytes) (en : Endian) (self : t) :
  load file en = Ok self →
  ∃ didx,
    sections self !! "DIDX" = Some didx ∧
    length (audio_entries self) = (length (SoundbankSection.data didx) / 12)%nat ∧
    ∀ i e, audio_entries self !! i = Some e →
      ∃ data_offset,
        _data_offset self = Some data_offset ∧
        unpack_u32x3 en (slice (SoundbankSection.data didx) (i * 12) (i * 12 + 12))
          = Ok (AudioEntry.id e, AudioEntry.offset e, AudioEntry.size e) ∧
        AudioEntry.replacement_path e = None ∧
        let start := (data_offset + N.to_nat (AudioEntry.offset e))%nat in
        AudioEntry.data e =
          Some (slice file start (start + N.to_nat (AudioEntry.size e))) ∧
        length (slice file start (start + N.to_nat (AudioEntry.size e))) =
          (N.to_nat (AudioEntry.size e) `min` (length file - start))%nat.
Proof.
  intros (Hen & _ & _ & didx & D & Hdidx & HD & Hes)%load_inv.
  exists didx. split; [done|].
  split; [by rewrite Hes, length_fmap, length_didx_entries|].
  intros i e Hi. exists D.
  split. { apply HD. intros Hnil. by rewrite Hnil in Hi. }
  rewrite Hes, list_lookup_fmap in Hi. unfold didx_entries in Hi.
  rewrite list_lookup_fmap in Hi.
  destruct (seq 0 _ !! i) as [j|] eqn:Hj; [|done].
  apply lookup_seq in Hj as [-> Hlt]. cbn [fmap option_fmap option_map] in Hi.
  injection Hi as <-. cbn [Nat.add].
  assert (i * 12 + 12 ≤ length (SoundbankSection.data didx))%nat as Hle.
  { pose proof (Nat.Div0.mul_div_le (length (SoundbankSection.data didx)) 12).
    nia. }
  split.
  { rewrite unpack_u32x3_Ok; [done|]. rewrite length_slice by done. lia. }
  split; [done|]. cbn zeta.
  unfold preloaded, slice; cbn [AudioEntry.set_data AudioEntry.data
    AudioEntry.offset AudioEntry.size].
  match goal with |- context [(?a + ?n - ?a)%nat] =>
    replace (a + n - a)%nat with n by lia end.
  split; [done|]. rewrite length_take, length_drop. done.
Qed.



End load_entries.
(** ** The catalog *)

Section catalog.
Import WwiseSoundbank.

Lemma catalog_fold es (m : gmap N N) audio_id :
  foldl (λ m entry, <[AudioEntry.id entry := AudioEntry.size entry]> m) m es
    !! audio_id =
  match last (entries_with audio_id es) with
  | Some e => Some (AudioEntry.size e)
  | None => m !! audio_id
  end.
Proof.
  induction es as [|e es IH] using rev_ind; [done|].
  rewrite foldl_app. cbn [foldl]. unfold entries_with in *.
  rewrite filter_app, filter_cons, filter_nil.
  case_decide as Hid.
  - rewrite last_snoc, Hid. by rewrite lookup_insert_eq.
  - rewrite app_nil_r, lookup_insert_ne by done. apply IH.
Qed.

Lemma find_first_entry es audio_id :
  snd <$> list_find (λ e, AudioEntry.id e = audio_id) es
  = head (entries_with audio_id es).
Proof.
  unfold entries_with. induction es as [|e es IH]; [done|].
  cbn [list_find]. rewrite filter_cons. case_decide; [done|].
  rewrite <- IH. by destruct (list_find _ es) as [[]|].
Qed.

Lemma entries_with_nil es audio_id :
  audio_id ∉ AudioEntry.id <$> es → entries_with audio_id es = [].
Proof.
  unfold entries_with. induction es as [|e es IH]; [done|].
  cbn [fmap list_fmap]. intros [Hne Hnot]%not_elem_of_cons.
  rewrite filter_cons_False by done. by apply IH.
Qed.

Lemma entries_with_NoDup es audio_id :
  NoDup (AudioEntry.id <$> es) →
  last (entries_with audio_id es) = head (entries_with audio_id es).
Proof.
  induction es as [|e es IH]; [done|].
  cbn [fmap list_fmap]. intros [Hnot Hnd]%NoDup_cons.
  pose proof (entries_with_nil es _ Hnot) as Hnil. unfold entries_with in *.
  rewrite filter_cons. case_decide as Hid; [|by apply IH].
  subst audio_id. by rewrite Hnil.
Qed.

Lemma entries_with_elem_of es audio_id :
  entries_with audio_id es ≠ [] ↔ audio_id ∈ AudioEntry.id <$> es.
Proof.
  split.
  - intros Hne. destruct (decide (audio_id ∈ AudioEntry.id <$> es)); [done|].
    by destruct Hne; apply entries_with_nil.
  - intros (e & -> & He)%list_elem_of_fmap Hnil.
    by apply (filter_nil_not_elem_of _ _ e) in Hnil.
Qed.

(** X6.  [get_audio_catalog] has a key for exactly the IDs of the index,
    and under a key the size of the last entry with that ID.  That is the
    entry [find_audio_entry] returns when no ID is listed twice;
    [find_audio_entry] itself returns the first. *)
Theorem X6_get_audio_catalog (self : t) (audio_id : N) :
  (is_Some (get_audio_catalog self !! audio_id) ↔ audio_id ∈ index_ids self) ∧
  get_audio_catalog self !! audio_id =
    AudioEntry.size <$> last (entries_with audio_id (audio_entries self)) ∧
  find_audio_entry self audio_id =
    head (entries_with audio_id (audio_entries self)) ∧
  (NoDup (index_ids self) →
   get_audio_catalog self !! audio_id =
     AudioEntry.size <$> find_audio_entry self audio_id).
Proof.
  assert (get_audio_catalog self !! audio_id =
    AudioEntry.size <$> last (entries_with audio_id (audio_entries self))) as Hc.
  { unfold get_audio_catalog. rewrite catalog_fold.
    by destruct (last _). }
  assert (find_audio_entry self audio_id =
            head (entries_with audio_id (audio_entries self))) as Hf
    by apply find_first_entry.
  split_and!; [|done|done|].
  - unfold index_ids. rewrite Hc, <- entries_with_elem_of, fmap_is_Some.
    apply last_is_Some.
  - intros Hnd. by rewrite Hc, Hf, entries_with_NoDup.
Qed.
End catalog.
(** ** Exporting one payload *)

Section export_audio.
Import WwiseSoundbank.

Lemma list_find_id_data es es' audio_id :
  id_and_data <$> es = id_and_data <$> es' →
  (AudioEntry.data ∘ snd) <$> list_find (λ e, AudioEntry.id e = audio_id) es =
  (AudioEntry.data ∘ snd) <$> list_find (λ e, AudioEntry.id e = audio_id) es'.
Proof.
  revert es'. induction es as [|e es IH]; intros [|e' es']; try done.
  cbn [fmap list_fmap]. intros [= Hid Hdata Hrest]. cbn [list_find].
  rewrite <- Hid. case_decide; [by cbn; rewrite Hdata|].
  specialize (IH es' Hrest).
  destruct (list_find _ es) as [[]|], (list_find _ es') as [[]|]; cbn in *;
    congruence.
Qed.

Lemma export_audio_id_data self self' audio_id :
  id_and_data <$> audio_entries self = id_and_data <$> audio_entries self' →
  export_audio self audio_id = export_audio self' audio_id.
Proof.
  intros H%(list_find_id_data _ _ audio_id).
  unfold export_audio, find_audio_entry, find_audio_entry_at.
  destruct (list_find _ (audio_entries self)) as [[i e]|],
           (list_find _ (audio_entries self')) as [[i' e']|];
    cbn in *; try done.
  injection H as ->. done.
Qed.

(** X7.  [export_audio] on a bank that was loaded: an ID that is not in the
    index raises [KeyError] before the output file is opened; an ID that is
    in it writes the payload of the first entry with that ID, as the bank
    file held it; and a replacement queued for any ID changes nothing of
    what is exported, the bytes on file being used by [save] alone. *)
Theorem X7_export_audio
    (file : bytes) (en : Endian) (self : t) (audio_id : N) :
  load file en = Ok self →
  (export_audio self audio_id = (None, Raise KeyError)
     ↔ audio_id ∉ index_ids self) ∧
  (∀ e, find_audio_entry self audio_id = Some e →
     ∃ data_offset,
       _data_offset self = Some data_offset ∧
       let start := (data_offset + N.to_nat (AudioEntry.offset e))%nat in
       export_audio self audio_id =
         (Some (slice file start (start + N.to_nat (AudioEntry.size e))), Ok ())) ∧
  (∀ fs other p self',
     replace_audio fs self other p = Ok self' →
     export_audio self' audio_id = export_audio self audio_id).
Proof.
  intros Hload. split_and!.
  - rewrite <- find_audio_entry_at_None. unfold export_audio, find_audio_entry.
    destruct (find_audio_entry_at self audio_id) as [[i e]|]; cbn; [|done].
    by destruct (AudioEntry.data e).
  - intros e He.
    destruct (load_entries_inv _ _ _ Hload) as (didx & _ & _ & Hall).
    unfold find_audio_entry, find_audio_entry_at in He.
    destruct (list_find _ _) as [[i e']|] eqn:Hfind; [|done].
    injection He as ->.
    pose proof Hfind as (Hi & _)%list_find_Some.
    destruct (Hall i e Hi) as (D & HD & _ & _ & Hdata & _).
    exists D. split; [done|]. cbn zeta in *.
    unfold export_audio, find_audio_entry, find_audio_entry_at.
    rewrite Hfind. cbn. by rewrite Hdata.
  - intros fs other p self' (_ & _ & _ & i & entry & Hat & Hes)%replace_audio_inv.
    apply export_audio_id_data. rewrite Hes, list_fmap_insert.
    apply list_insert_id. rewrite list_lookup_fmap.
    apply list_find_Some in Hat as (-> & _). done.
Qed.
End export_audio.

Lemma X7_witness :
  (WwiseSoundbank.export_audio bank_minimal_loaded 1 = (None, Raise KeyError)
     ↔ 1 ∉ index_ids bank_minimal_loaded) ∧
  (∀ e, WwiseSoundbank.find_audio_entry bank_minimal_loaded 1 = Some e →
     ∃ data_offset,
       WwiseSoundbank._data_offset bank_minimal_loaded = Some data_offset ∧
       let start := (data_offset + N.to_nat (AudioEntry.offset e))%nat in
       WwiseSoundbank.export_audio bank_minimal_loaded 1 =
         (Some (slice bank_minimal start
                  (start + N.to_nat (AudioEntry.size e))), Ok ())) ∧
  (∀ fs other p self',
     WwiseSoundbank.replace_audio fs bank_minimal_loaded other p = Ok self' →
     WwiseSoundbank.export_audio self' 1 =
       WwiseSoundbank.export_audio bank_minimal_loaded 1).
Proof. apply (X7_export_audio bank_minimal Little). by vm_compute. Defined.
(** ** Exporting every payload *)

Section export_all_audio.
Import WwiseSoundbank.

Lemma length_string_app (s t : string) :
  String.length (s +:+ t) = (String.length s + String.length t)%nat.
Proof.
  induction s as [|a s IH]; [done|].
  change (String a s +:+ t) with (String a (s +:+ t)).
  cbn [String.length]. by rewrite IH.
Qed.

Lemma string_app_inj_r (s1 s2 t : string) : s1 +:+ t = s2 +:+ t → s1 = s2.
Proof.
  revert s2. induction s1 as [|a s1 IH]; intros [|b s2] Heq; [done|..].
  - apply (f_equal String.length) in Heq.
    change ("" +:+ t) with t in Heq.
    rewrite length_string_app in Heq. cbn [String.length] in Heq. lia.
  - apply (f_equal String.length) in Heq.
    change ("" +:+ t) with t in Heq.
    rewrite length_string_app in Heq. cbn [String.length] in Heq. lia.
  - change (String a (s1 +:+ t) = String b (s2 +:+ t)) in Heq.
    injection Heq as -> Heq. f_equal. by apply IH.
Qed.

#[local] Instance wem_name_inj : Inj (=) (=) wem_name.
Proof.
  intros a b Heq. unfold wem_name in Heq.
  by apply string_app_inj_r, (inj pretty) in Heq.
Qed.

Lemma _export_all_loop_spec es dir :
  Forall (λ e, is_Some (AudioEntry.data e)) es →
  ∃ dir',
    _export_all_loop es dir = (dir', Ok ()) ∧
    ∀ name,
      dir' !! name =
        match last (filter (λ e, wem_name (AudioEntry.id e) = name) es) with
        | Some e => AudioEntry.data e
        | None => dir !! name
        end.
Proof.
  intros Hes. revert dir. induction Hes as [|e es [d Hd] _ IH]; intros dir.
  { exists dir. done. }
  cbn [_export_all_loop]. rewrite Hd.
  destruct (IH (<[pretty (AudioEntry.id e) +:+ ".wem" := d]> dir))
    as (dir' & -> & Hdir').
  exists dir'. split; [done|]. intros name. rewrite Hdir', filter_cons.
  fold (wem_name (AudioEntry.id e)).
  case_decide as Hname.
  - rewrite last_cons. destruct (last _); [done|].
    by rewrite Hname, lookup_insert_eq.
  - destruct (last _); [done|]. by rewrite lookup_insert_ne.
Qed.

(** X8.  [export_all_audio] on a bank that was loaded returns, having
    written for every ID of the index a file [<id>.wem] that holds the
    payload of the last entry with that ID, and having left every other
    file of the directory as it was.  When no ID is listed twice the file
    of an ID holds what [export_audio] writes for it. *)
Theorem X8_export_all_audio
    (file : bytes) (en : Endian) (self : t) (dir : gmap string bytes) :
  load file en = Ok self →
  ∃ dir',
    export_all_audio self dir = (dir', Ok ()) ∧
    (∀ audio_id, audio_id ∈ index_ids self →
       ∃ e, last (entries_with audio_id (audio_entries self)) = Some e ∧
            is_Some (AudioEntry.data e) ∧
            dir' !! wem_name audio_id = AudioEntry.data e) ∧
    (∀ name, (∀ audio_id, audio_id ∈ index_ids self → name ≠ wem_name audio_id) →
       dir' !! name = dir !! name) ∧
    (NoDup (index_ids self) →
     ∀ audio_id, audio_id ∈ index_ids self →
       (export_audio self audio_id).1 = dir' !! wem_name audio_id).
Proof.
  intros (_ & _ & Hld & _)%load_inv.
  assert (Forall (λ e, is_Some (AudioEntry.data e)) (audio_entries self)) as Hdata.
  { eapply Forall_impl; [exact Hld|]. by intros e (_ & _ & ? & _). }
  destruct (_export_all_loop_spec _ dir Hdata) as (dir' & Hloop & Hdir').
  assert (∀ audio_id,
    filter (λ e, wem_name (AudioEntry.id e) = wem_name audio_id)
      (audio_entries self) = entries_with audio_id (audio_entries self)) as Hfil.
  { intros audio_id. apply list_filter_iff. intros e.
    split; [apply (inj wem_name)|by intros ->]. }
  assert (∀ audio_id, audio_id ∈ index_ids self →
    ∃ e, last (entries_with audio_id (audio_entries self)) = Some e ∧
         is_Some (AudioEntry.data e) ∧
         dir' !! wem_name audio_id = AudioEntry.data e) as Hin.
  { intros audio_id Hid%entries_with_elem_of%last_is_Some.
    destruct Hid as [e He]. exists e. split; [done|].
    rewrite Hdir', Hfil, He. split; [|done].
    apply last_Some_elem_of in He.
    apply list_elem_of_filter in He as [_ He].
    by apply (proj1 (Forall_forall _ _) Hdata). }
  exists dir'. split_and!; [done|done| |].
  - intros name Hname. rewrite Hdir'.
    destruct (last _) as [e|] eqn:He; [|done].
    apply last_Some_elem_of, list_elem_of_filter in He as [<- He].
    destruct (Hname (AudioEntry.id e)); [|done].
    by apply list_elem_of_fmap_2.
  - intros Hnd audio_id (e & He & [d Hd] & ->)%Hin.
    rewrite (entries_with_NoDup _ _ Hnd), <- find_first_entry in He.
    unfold export_audio, find_audio_entry, find_audio_entry_at.
    rewrite He, Hd. done.
Qed.

Lemma X8_witness :
  ∃ dir',
    export_all_audio (bank_three_with None) ∅ = (dir', Ok ()) ∧
    (∀ audio_id, audio_id ∈ index_ids (bank_three_with None) →
       ∃ e, last (entries_with audio_id (audio_entries (bank_three_with None)))
              = Some e ∧
            is_Some (AudioEntry.data e) ∧
            dir' !! wem_name audio_id = AudioEntry.data e) ∧
    (∀ name, (∀ audio_id, audio_id ∈ index_ids (bank_three_with None) →
                name ≠ wem_name audio_id) →
       dir' !! name = (∅ : gmap string bytes) !! name) ∧
    (NoDup (index_ids (bank_three_with None)) →
     ∀ audio_id, audio_id ∈ index_ids (bank_three_with None) →
       (export_audio (bank_three_with None) audio_id).1
         = dir' !! wem_name audio_id).
Proof. apply (X8_export_all_audio bank_three Little). by vm_compute. Defined.
End export_all_audio.
(** ** Statistics *)

Section statistics.
Import WwiseSoundbank.

Lemma sum_final_sizes_acc fs es sizes acc :
  Forall2 (λ e s, AudioEntry.final_size fs e = Ok s) es sizes →
  for_each es
    (λ entry total, let! fsz := AudioEntry.final_size fs entry in
                    Ok (total + fsz))
    acc = Ok (acc + sum_N sizes).
Proof.
  intros Hs. revert acc. induction Hs as [|e s es sizes He _ IH]; intros acc.
  { cbn. f_equal. lia. }
  cbn [for_each]. rewrite He. cbn [bind]. rewrite IH. f_equal.
  unfold sum_N. cbn [foldr]. lia.
Qed.

Lemma sum_final_sizes_Ok fs es sizes :
  Forall2 (λ e s, AudioEntry.final_size fs e = Ok s) es sizes →
  sum_final_sizes fs es = Ok (sum_N sizes).
Proof.
  intros Hs. unfold sum_final_sizes. by rewrite (sum_final_sizes_acc _ _ sizes).
Qed.

Lemma foldl_sizes (es : list AudioEntry.t) acc :
  foldl (λ total entry, total + AudioEntry.size entry) acc es =
  acc + sum_N (AudioEntry.size <$> es).
Proof.
  revert acc. induction es as [|e es IH]; intros acc;
    unfold sum_N; cbn [foldl fmap list_fmap foldr]; [lia|].
  rewrite IH. unfold sum_N. lia.
Qed.

(** X9.  The statistics of a bank as it was loaded, whatever files there
    are: one audio file for each entry of the index, no replacement
    queued, the sizes of the index added up as both the original and the
    new size, and no change of size. *)
Theorem X9_statistics_of_loaded_bank
    (fs : FileSystem) (file : bytes) (en : Endian) (self : t) :
  load file en = Ok self →
  get_statistics fs self =
    Ok {| Statistics.total_audio_files := length (audio_entries self);
          Statistics.replacements_queued := 0;
          Statistics.original_data_size := sum_N (index_sizes self);
          Statistics.new_data_size := sum_N (index_sizes self);
          Statistics.size_change := 0 |}.
Proof.
  intros (_ & _ & Hld & _)%load_inv. unfold get_statistics.
  pose proof (Forall2_fmap_same _ _ _ (loaded_final_sizes fs _ Hld)) as Hs.
  rewrite (sum_final_sizes_Ok _ _ _ Hs). cbn [bind].
  rewrite foldl_sizes, N.add_0_l. fold (index_sizes self).
  assert (filter (λ entry, is_Some (AudioEntry.replacement_path entry))
            (audio_entries self) = []) as ->.
  { clear Hs. induction Hld as [|e es (_ & _ & _ & He) _ IH]; [done|].
    rewrite filter_cons_False; [exact IH|]. rewrite He. by intros [? [=]]. }
  cbn [length]. do 2 f_equal. lia.
Qed.

Lemma X9_witness :
  get_statistics fs_two_files bank_minimal_loaded =
    Ok {| Statistics.total_audio_files := length (audio_entries bank_minimal_loaded);
          Statistics.replacements_queued := 0;
          Statistics.original_data_size := sum_N (index_sizes bank_minimal_loaded);
          Statistics.new_data_size := sum_N (index_sizes bank_minimal_loaded);
          Statistics.size_change := 0 |}.
Proof.
  apply (X9_statistics_of_loaded_bank fs_two_files bank_minimal Little).
  by vm_compute.
Defined.

(** X10.  The statistics foretell what [save] writes: whenever a bank a
    caller can hold is saved, [get_statistics] on it returns, with as many
    audio files as the saved bank has index entries and with a new size
    that is the sum of the sizes in the saved index; the original size is
    the sum of the sizes held before, and the change is their difference. *)
Theorem X10_statistics_foretell_save
    (fs : FileSystem) (self : t) (out : bytes) :
  reachable self →
  save fs self = (out, Ok ()) →
  ∃ st self',
    get_statistics fs self = Ok st ∧
    load out (endian self) = Ok self' ∧
    Statistics.total_audio_files st = length (audio_entries self') ∧
    Statistics.new_data_size st = sum_N (index_sizes self') ∧
    Statistics.original_data_size st = sum_N (index_sizes self) ∧
    Statistics.size_change st =
      (Z.of_N (sum_N (index_sizes self')) - Z.of_N (sum_N (index_sizes self)))%Z.
Proof.
  intros Hfr%reachable_sections_framed Hsave.
  destruct (load_saved fs self out Hfr Hsave)
    as (sizes & payloads & self' & D & Hs & _ & Hload & _ & _ & _ & _ & _ & Hes).
  unfold get_statistics. rewrite (sum_final_sizes_Ok _ _ _ Hs). cbn [bind].
  eexists _, self'. split; [done|]. split; [done|].
  cbn [Statistics.total_audio_files Statistics.new_data_size
       Statistics.original_data_size Statistics.size_change
       Statistics.replacements_queued].
  destruct (zip_ids_sizes _ _ _ Hs) as [Hz1 Hz2].
  assert (index_sizes self' = sizes) as Hsz.
  { unfold index_sizes, index_ids in *.
    by rewrite Hes, preloaded_sizes, written_index_sizes. }
  assert (length (audio_entries self') = length (audio_entries self)) as Hlen.
  { rewrite <- (length_fmap AudioEntry.id (audio_entries self')).
    rewrite Hes, preloaded_ids, written_index_ids. unfold index_ids.
    by rewrite Hz1, length_fmap. }
  rewrite foldl_sizes, N.add_0_l, Hsz, Hlen. done.
Qed.
Lemma X10_witness :
  ∃ st self',
    get_statistics fs_two_files bank_minimal_queued = Ok st ∧
    load bank_minimal_patched (endian bank_minimal_queued) = Ok self' ∧
    Statistics.total_audio_files st = length (audio_entries self') ∧
    Statistics.new_data_size st = sum_N (index_sizes self') ∧
    Statistics.original_data_size st = sum_N (index_sizes bank_minimal_queued) ∧
    Statistics.size_change st =
      (Z.of_N (sum_N (index_sizes self'))
       - Z.of_N (sum_N (index_sizes bank_minimal_queued)))%Z.
Proof.
  apply (X10_statistics_foretell_save fs_two_files bank_minimal_queued
           bank_minimal_patched).
  - exact reachable_bank_minimal_queued.
  - by vm_compute.
Defined.
End statistics.
(** ** Saving what was saved *)

Section resave.
Import WwiseSoundbank.

Lemma Forall2_Ok_unique {A B} (F : A → result B) es l1 l2 :
  Forall2 (λ e s, F e = Ok s) es l1 →
  Forall2 (λ e s, F e = Ok s) es l2 →
  l1 = l2.
Proof.
  intros H1. revert l2. induction H1 as [|e s es l1 He _ IH]; intros l2 H2.
  { by apply Forall2_nil_inv_l in H2. }
  apply Forall2_cons_inv_l in H2 as (s' & l2' & He' & H2 & ->).
  f_equal; [congruence|by apply IH].
Qed.

Lemma plain_final_sizes fs (es : list AudioEntry.t) :
  Forall (λ e, AudioEntry.replacement_path e = None) es →
  Forall2 (λ e s, AudioEntry.final_size fs e = Ok s) es (AudioEntry.size <$> es).
Proof.
  induction 1 as [|e es He _ IH]; constructor; [|done].
  unfold AudioEntry.final_size. by rewrite He.
Qed.

Lemma plain_payloads fs (es : list AudioEntry.t) payloads :
  Forall (λ e, AudioEntry.replacement_path e = None) es →
  AudioEntry.data <$> es = Some <$> payloads →
  Forall2 (λ e p, entry_payload fs e = Ok p) es payloads.
Proof.
  intros Hes. revert payloads.
  induction Hes as [|e es He _ IH]; intros [|p payloads]; try done.
  cbn [fmap list_fmap]. intros [= Hd Hrest]. constructor; [|by apply IH].
  unfold entry_payload. by rewrite He, Hd.
Qed.

Lemma preloaded_plain file D (es : list AudioEntry.t) :
  Forall (λ e, AudioEntry.replacement_path e = None) es →
  Forall (λ e, AudioEntry.replacement_path e = None) (preloaded file D <$> es).
Proof. intros Hes. apply Forall_fmap. eapply Forall_impl; [exact Hes|done]. Qed.

(** X11.  A bank that [save] wrote is a fixed point of loading and saving.
    When a bank a caller can hold, none of whose kept payloads was cut
    short by the end of its file, is saved, the output loads again, and
    saving what was loaded writes the same bytes once more, whatever files
    there are by then. *)
Theorem X11_saved_bank_is_a_fixed_point
    (fs fs' : FileSystem) (self : t) (out : bytes) :
  reachable self →
  payloads_in_bounds self →
  save fs self = (out, Ok ()) →
  ∃ self', load out (endian self) = Ok self' ∧ save fs' self' = (out, Ok ()).
Proof.
  intros Hfr%reachable_sections_framed Hb Hsave.
  destruct (load_saved fs self out Hfr Hsave)
    as (sizes & payloads & self' & D & Hs & Hp & Hload & Hhdr & Htr & _ & _
        & Hdrop & Hes).
  apply save_Ok in Hsave
    as (hdr & sizes2 & payloads2 & Hh & Hs2 & Hp2 & Hpack & Hil & Hpl & Hout).
  cbn zeta in *.
  assert (sizes2 = sizes) as -> by (by eapply Forall2_Ok_unique).
  assert (payloads2 = payloads) as -> by (by eapply Forall2_Ok_unique).
  pose proof Hload as (Hen & _)%load_inv.
  destruct (zip_ids_sizes _ _ _ Hs) as [Hz1 Hz2].
  fold (index_ids self) in Hz1, Hz2.
  assert (Forall (λ e, AudioEntry.replacement_path e = None)
            (audio_entries self')) as Hplain.
  { rewrite Hes. apply preloaded_plain.
    eapply Forall_impl; [apply written_index_plain|]. by intros e [_ ?]. }
  assert (index_ids self' = index_ids self) as Hids.
  { unfold index_ids at 1. by rewrite Hes, preloaded_ids, written_index_ids. }
  assert (index_sizes self' = sizes) as Hsz.
  { unfold index_sizes. by rewrite Hes, preloaded_sizes, written_index_sizes. }
  exists self'. split; [done|]. apply save_Ok.
  exists hdr, sizes, payloads. cbn zeta. rewrite Hids, Hen, Htr.
  split_and!; try done.
  - unfold header_chunk in *. by rewrite Hhdr, Hen.
  - rewrite <- Hsz. by apply plain_final_sizes.
  - apply plain_payloads; [done|]. rewrite Hes.
    apply (preloaded_tiled _ _ _ _ (_trailing_data self)).
    + pose proof (sizes_match _ _ _ _ Hs Hp Hb) as Hm.
      rewrite <- Hz2 in Hm. by apply Forall2_fmap_l in Hm.
    + by rewrite Nat.add_0_r.
Qed.

Lemma X11_witness :
  ∃ self',
    load bank_minimal_patched (endian bank_minimal_queued) = Ok self' ∧
    save ∅ self' = (bank_minimal_patched, Ok ()).
Proof.
  apply (X11_saved_bank_is_a_fixed_point fs_two_files ∅ bank_minimal_queued).
  - exact reachable_bank_minimal_queued.
  - repeat constructor. by intros [=].
  - by vm_compute.
Defined.
End resave.
(** ** Patching from a configuration *)

Section patch_soundbank.
Import WwiseSoundbank.

Lemma queued_exist_replace fs self audio_id p self' :
  queued_exist fs self →
  replace_audio fs self audio_id p = Ok self' →
  queued_exist fs self' ∧ index_ids self' = index_ids self.
Proof.
  intros Hq Hr. pose proof Hr as (_ & _ & _ & i & entry & Hat & Hes)%replace_audio_inv.
  apply list_find_Some in Hat as (Hi & _).
  split.
  - unfold queued_exist. rewrite Hes. apply Forall_insert; [done|].
    cbn [AudioEntry.set_replacement_path AudioEntry.replacement_path].
    intros q [= <-]. unfold replace_audio in Hr.
    destruct (find_audio_entry_at self audio_id) as [[]|]; [|done].
    by destruct (exists_ fs p).
  - unfold index_ids at 1. rewrite Hes. by apply index_ids_replaced.
Qed.

Lemma _patch_loop_spec fs R self n :
  queued_exist fs self →
  ∃ self',
    queue_all fs (applicable fs (index_ids self) R) self = Ok self' ∧
    _patch_loop fs R self n =
      (self', (n + length (applicable fs (index_ids self) R))%nat) ∧
    queued_exist fs self' ∧ index_ids self' = index_ids self.
Proof.
  revert self n. induction R as [|[audio_id p] R IH]; intros self n Hq.
  { exists self. cbn. rewrite Nat.add_0_r. done. }
  unfold applicable in *. cbn [_patch_loop]. rewrite filter_cons. cbn [fst snd].
  destruct (exists_ fs p) eqn:Hex.
  - destruct (find_audio_entry_at self audio_id) as [[i entry]|] eqn:Hat.
    + assert (audio_id ∈ index_ids self) as Hin.
      { destruct (decide (audio_id ∈ index_ids self)) as [|Hn]; [done|].
        apply find_audio_entry_at_None in Hn. congruence. }
      rewrite decide_True by done.
      pose proof (replace_audio_Ok fs self audio_id p i entry Hat Hex) as Hr.
      rewrite Hr. cbn [queue_all bind]. rewrite Hr. cbn [bind].
      destruct (queued_exist_replace _ _ _ _ _ Hq Hr) as [Hq' Hids'].
      destruct (IH _ (S n) Hq') as (self' & Hqa & Hloop & Hq'' & Hids'').
      rewrite Hids' in *. exists self'. rewrite Hqa, Hloop. cbn [length].
      split_and!; [done| |done|done]. f_equal. lia.
    + assert (audio_id ∉ index_ids self) as Hn
        by (by apply find_audio_entry_at_None).
      rewrite decide_False by tauto.
      unfold replace_audio. rewrite Hat. by apply IH.
  - rewrite decide_False by (by intros [_ [=]]). by apply IH.
Qed.

Lemma get_statistics_queued_exist fs self :
  queued_exist fs self → ∃ st, get_statistics fs self = Ok st.
Proof.
  intros Hq. unfold get_statistics.
  assert (∃ sizes, Forall2 (λ e s, AudioEntry.final_size fs e = Ok s)
                     (audio_entries self) sizes) as [sizes Hs].
  { induction Hq as [|e es He _ [sizes IH]]; [by exists []|].
    unfold AudioEntry.final_size at 1.
    destruct (AudioEntry.replacement_path e) as [p|] eqn:Hp.
    - specialize (He p eq_refl). unfold exists_ in He.
      apply bool_decide_eq_true in He as [f Hf].
      exists (match f with Regular c => N.of_nat (length c) | Unreadable n => n end
              :: sizes).
      constructor; [|done]. unfold AudioEntry.final_size, stat_size.
      rewrite Hp, Hf. by destruct f.
    - exists (AudioEntry.size e :: sizes). constructor; [|done].
      unfold AudioEntry.final_size. by rewrite Hp. }
  rewrite (sum_final_sizes_Ok _ _ _ Hs). cbn [bind]. eauto.
Qed.

(** X12.  [patch_soundbank], once the configuration is read.  When a file
    of the configuration is missing and the answer is not [y], it returns
    without reading the bank or opening the output.  When it goes on and
    the bank loads, it queues the items whose ID is in the index and whose
    file is there, in their order, skips the others without raising, counts
    the queued ones, and leaves in the output file what [save] writes for
    the bank so queued, ending as [save] ends.  When it goes on and the
    bank cannot be read or loaded, it raises that error with the output
    not opened. *)
Theorem X12_patch_soundbank
    (fs : FileSystem) (bnk_file : Path) (replacements : list (N * Path))
    (response : string) (big_endian : bool) :
  let en := if big_endian then Big else Little in
  (¬ goes_on fs replacements response →
     patch_soundbank fs bnk_file replacements response big_endian
       = (None, Ok ())) ∧
  (goes_on fs replacements response →
   (∀ file self0,
      read_file fs bnk_file = Ok file → load file en = Ok self0 →
      ∃ self,
        queue_all fs (applicable fs (index_ids self0) replacements) self0
          = Ok self ∧
        _patch_loop fs replacements self0 0 =
          (self, length (applicable fs (index_ids self0) replacements)) ∧
        patch_soundbank fs bnk_file replacements response big_endian
          = (Some (save fs self).1, (save fs self).2)) ∧
   (∀ e, (let! file := read_file fs bnk_file in load file en) = Raise e →
      patch_soundbank fs bnk_file replacements response big_endian
        = (None, Raise e))).
Proof.
  intros en. unfold goes_on, patch_soundbank. split.
  - intros Hno. rewrite decide_True; [done|].
    destruct (decide (missing_files fs replacements = [])); [tauto|].
    destruct (decide (response = "y")); tauto.
  - intros Hgo. rewrite decide_False by tauto. fold en. split.
    + intros file self0 -> Hload. cbn [bind]. rewrite Hload. cbn [bind].
      assert (queued_exist fs self0) as Hq0.
      { apply load_inv in Hload as (_ & _ & Hld & _).
        eapply Forall_impl; [exact Hld|]. intros e (_ & _ & _ & ->). done. }
      destruct (_patch_loop_spec fs replacements self0 0 Hq0)
        as (self & Hqa & Hloop & Hq & _).
      exists self. rewrite Hloop. split; [done|]. split; [done|].
      destruct (get_statistics_queued_exist _ _ Hq) as [st ->]. cbn [bind].
      by destruct (save fs self).
    + intros e He. destruct (read_file fs bnk_file) as [file|]; cbn [bind] in *.
      * by rewrite He.
      * by injection He as ->.
Qed.
Lemma X12_witness :
  ∃ self,
    queue_all fs_patch
      (applicable fs_patch (index_ids (bank_three_with None)) plan_patch)
      (bank_three_with None) = Ok self ∧
    _patch_loop fs_patch plan_patch (bank_three_with None) 0 =
      (self,
       length (applicable fs_patch (index_ids (bank_three_with None)) plan_patch)) ∧
    patch_soundbank fs_patch "bank.bnk" plan_patch "y" false
      = (Some (save fs_patch self).1, (save fs_patch self).2).
Proof.
  apply (proj1 (proj2 (X12_patch_soundbank fs_patch "bank.bnk" plan_patch "y"
                         false) (or_intror eq_refl)) bank_three).
  - by vm_compute.
  - by vm_compute.
Defined.

(** The run of the witness: one of the three items is queued, and the
    output holds the file of that item in place of the second payload. *)
Example patch_bank_three :
  applicable fs_patch (index_ids (bank_three_with None)) plan_patch
    = [(2, "y.wem")] ∧
  patch_soundbank fs_patch "bank.bnk" plan_patch "y" false =
    (Some (chunk "BKHD" (u32 140) ++
           chunk "DIDX" (u32 1 ++ u32 0 ++ u32 2 ++ u32 2 ++ u32 2 ++ u32 2
                         ++ u32 3 ++ u32 4 ++ u32 1) ++
           chunk "DATA" (B [0xA0; 0xA1; 0xE0; 0xE1; 0xC0])), Ok ()) ∧
  patch_soundbank fs_patch "bank.bnk" plan_patch "n" false = (None, Ok ()).
Proof. split_and!; by vm_compute. Qed.
End patch_soundbank.
(** * Further properties of the event parser *)

(** ** Variable-length integers *)

Section varint.
Import BankParser.

Lemma high_bit (b : byte) : N.land (Byte.to_N b) 0x80 = 0 ↔ Byte.to_N b < 128.
Proof. destruct b; vm_compute; split; (done || by intros [=]). Qed.

Lemma land_shifted_low (value low : N) :
  low < 2 ^ 7 → N.land (value * 2 ^ 7) low = 0.
Proof.
  intros Hlt. apply N.bits_inj. intros n. rewrite N.land_spec, N.bits_0.
  destruct (decide (n < 7)) as [Hn|Hn].
  - by rewrite N.mul_pow2_bits_low.
  - rewrite (N.bits_above_log2 low n), andb_false_r; [done|].
    destruct (decide (low = 0)) as [->|]; [cbn; lia|].
    assert (N.log2 low < 7); [|lia].
    apply N.log2_lt_pow2; [lia|done].
Qed.

Lemma varint_step (value : N) (b : byte) :
  N.lor (N.shiftl value 7) (N.land (Byte.to_N b) 0x7F)
  = 128 * value + Byte.to_N b mod 128.
Proof.
  change 0x7F with (N.ones 7). rewrite N.land_ones, N.shiftl_mul_pow2.
  assert (Byte.to_N b mod 2 ^ 7 < 2 ^ 7) as Hlt by (by apply N.mod_lt).
  pose proof (land_shifted_low value _ Hlt) as Hland.
  rewrite <- N.lxor_lor, <- N.add_nocarry_lxor by done.
  change (2 ^ 7) with 128. lia.
Qed.

Lemma _read_varint_loop_spec rest value bytes_read :
  match _read_varint_loop rest value bytes_read with
  | Ok (v, k) =>
      ∃ hi lo tail,
        rest = hi ++ lo :: tail ∧ Forall continues hi ∧ ¬ continues lo ∧
        k = (bytes_read + S (length hi))%nat ∧
        v = foldl (λ v b, 128 * v + Byte.to_N b mod 128) value (hi ++ [lo])
  | Raise e => e = IndexError ∧ Forall continues rest
  end.
Proof.
  revert value bytes_read. induction rest as [|b rest IH]; intros value k;
    cbn [_read_varint_loop]; [done|].
  rewrite varint_step. case_decide as Hb.
  - apply high_bit in Hb. exists [], b, rest. unfold continues.
    split_and!; [done|constructor|lia|cbn; lia|done].
  - rewrite high_bit in Hb.
    specialize (IH (128 * value + Byte.to_N b mod 128) (S k)).
    destruct (_read_varint_loop _ _ _) as [[v k']|e].
    + destruct IH as (hi & lo & tail & -> & Hhi & Hlo & -> & ->).
      exists (b :: hi), lo, tail. unfold continues at 1.
      split_and!; [done|constructor; [lia|done]|done|cbn; lia|done].
    + destruct IH as [-> Hall]. split; [done|]. constructor; [|done].
      unfold continues. lia.
Qed.

Lemma varint_value_bound bs : varint_value bs < 128 ^ N.of_nat (length bs).
Proof.
  unfold varint_value. induction bs as [|b bs IH] using rev_ind; [done|].
  rewrite foldl_app, length_app, Nat2N.inj_add, N.pow_add_r. cbn [foldl length].
  change (128 ^ N.of_nat 1) with 128.
  pose proof (N.mod_lt (Byte.to_N b) 128). nia.
Qed.

(** What [_read_varint] returns, for every buffer and position. *)
Lemma _read_varint_spec data pos :
  match _read_varint data pos with
  | Ok (value, bytes_read) =>
      ∃ hi lo,
        take bytes_read (drop pos data) = hi ++ [lo] ∧
        Forall continues hi ∧ ¬ continues lo ∧
        value = varint_value (hi ++ [lo]) ∧
        value < 128 ^ N.of_nat bytes_read
  | Raise e => e = IndexError ∧ Forall continues (drop pos data)
  end.
Proof.
  unfold _read_varint.
  pose proof (_read_varint_loop_spec (drop pos data) 0 0) as H.
  destruct (_read_varint_loop _ _ _) as [[v k]|e]; [|done].
  destruct H as (hi & lo & tail & -> & Hhi & Hlo & -> & ->).
  exists hi, lo. cbn [Nat.add].
  assert (take (S (length hi)) (hi ++ lo :: tail) = hi ++ [lo]) as ->.
  { rewrite (cons_middle lo), app_assoc. apply take_app_length'.
    rewrite length_app. cbn. lia. }
  split_and!; [done..|].
  replace (S (length hi)) with (length (hi ++ [lo]))
    by (rewrite length_app; cbn; lia).
  apply varint_value_bound.
Qed.

(** X13.  [_read_varint] reads bytes from the position on up to the first
    one whose high bit is clear, and no further: it returns how many it
    read and the number their low seven bits spell, the first byte the
    most significant, which is below 128 to the power of that count.
    When every byte from the position to the end of the buffer has its
    high bit set, and so when the position is at the end, it raises
    [IndexError]; it raises nothing else. *)
Theorem X13_read_varint (data : bytes) (pos : nat) :
  match _read_varint data pos with
  | Ok (value, bytes_read) =>
      ∃ hi lo,
        take bytes_read (drop pos data) = hi ++ [lo] ∧
        Forall continues hi ∧ ¬ continues lo ∧
        value = varint_value (hi ++ [lo]) ∧
        value < 128 ^ N.of_nat bytes_read
  | Raise e => e = IndexError ∧ Forall continues (drop pos data)
  end.
Proof. apply _read_varint_spec. Qed.

(** Two bytes, 0x81 0x05, spell 1 * 128 + 5. *)
Example read_varint_two_bytes :
  _read_varint (B [0xFF; 0x81; 0x05; 0x07]) 1 = Ok (133, 2%nat) ∧
  _read_varint (B [0xFF; 0x81]) 0 = Raise IndexError.
Proof. by vm_compute. Qed.
End varint.
(** ** What parsing raises *)

Section parser_raises.
Import BankParser.
Context {allowed : list Exn}.
Hypothesis Hstruct : StructError ∈ allowed.
Hypothesis Hindex : IndexError ∈ allowed.

Lemma raises_only__read_varint data pos :
  raises_only allowed (_read_varint data pos).
Proof.
  intros e He. pose proof (_read_varint_spec data pos) as H.
  rewrite He in H. by destruct H as [-> _].
Qed.

#[local] Hint Resolve raises_only__read_varint : raises.

Lemma raises_only__parse_event self data pos size :
  raises_only allowed (_parse_event self data pos size).
Proof.
  unfold _parse_event. raises_only.
  apply raises_only_collect. intros. raises_only.
Qed.

Lemma raises_only__parse_action self data pos size :
  raises_only allowed (_parse_action self data pos size).
Proof. unfold _parse_action. raises_only. Qed.

Lemma raises_only__parse_sound self data pos size :
  raises_only allowed (_parse_sound self data pos size).
Proof. unfold _parse_sound. raises_only. Qed.

Lemma raises_only__parse_children_loop n data pos end_pos children :
  raises_only allowed (_parse_children_loop n data pos end_pos children).
Proof.
  revert pos children. induction n as [|n IH]; intros;
    cbn [_parse_children_loop]; raises_only.
Qed.

Lemma raises_only__parse_playlist_loop n self data pos end_pos items :
  raises_only allowed (_parse_playlist_loop n self data pos end_pos items).
Proof.
  revert pos items. induction n as [|n IH]; intros;
    cbn [_parse_playlist_loop]; raises_only.
Qed.

#[local] Hint Resolve raises_only__parse_event raises_only__parse_action
  raises_only__parse_sound raises_only__parse_children_loop
  raises_only__parse_playlist_loop : raises.

Lemma raises_only__parse_container self data pos size :
  raises_only allowed (_parse_container self data pos size).
Proof.
  unfold _parse_container, _parse_loop_counts, _parse_transition_times,
    _parse_avoid_repeat_count, _parse_modes_and_flags, _parse_children,
    _parse_playlist.
  raises_only.
Qed.

#[local] Hint Resolve raises_only__parse_container : raises.

Lemma raises_only__parse_didx_loop n self data pos end_pos :
  raises_only allowed (_parse_didx_loop n self data pos end_pos).
Proof.
  revert self pos. induction n as [|n IH]; intros self pos;
    cbn [_parse_didx_loop]; raises_only.
Qed.

Lemma raises_only__parse_hirc_loop n self data pos end_pos :
  raises_only allowed (_parse_hirc_loop n self data pos end_pos).
Proof.
  revert self pos. induction n as [|n IH]; intros self pos;
    cbn [_parse_hirc_loop]; [raises_only|].
  apply raises_only_bind.
  - unfold _read_object_header. raises_only.
  - intros [[ty sz] cur]. apply raises_only_bind.
    + unfold _parse_object. raises_only.
    + intros self'. case_decide; [raises_only|apply IH].
Qed.

#[local] Hint Resolve raises_only__parse_didx_loop
  raises_only__parse_hirc_loop : raises.

Lemma raises_only__parse_didx self data pos size :
  raises_only allowed (_parse_didx self data pos size).
Proof. unfold _parse_didx. raises_only. Qed.

Lemma raises_only__parse_hirc self data pos size :
  raises_only allowed (_parse_hirc self data pos size).
Proof. unfold _parse_hirc. raises_only. Qed.

#[local] Hint Resolve raises_only__parse_didx raises_only__parse_hirc : raises.

Lemma raises_only_parse_loop budget self data pos :
  raises_only (LoopBudget :: allowed) (parse_loop budget self data pos).
Proof.
  revert self pos. induction budget as [|budget IH]; intros self pos;
    cbn [parse_loop].
  - case_decide; [|apply raises_only_Ok].
    apply raises_only_Raise. constructor.
  - case_decide; [|apply raises_only_Ok].
    apply raises_only_bind.
    { eapply raises_only_weaken; [|by apply list_subseteq_cons].
      unfold _read_chunk_header. raises_only. }
    intros [[chunk_id chunk_size] pos']. case_decide.
    { apply raises_only_bind; [|intros []; apply IH].
      eapply raises_only_weaken; [|by apply list_subseteq_cons].
      raises_only. }
    case_decide; [|apply IH].
    apply raises_only_bind; [|intros []; apply IH].
    eapply raises_only_weaken; [|by apply list_subseteq_cons].
    raises_only.
Qed.
End parser_raises.

Section parse_outcome.
Import BankParser.

Lemma version__parse_object self data ty cur sz self' :
  _parse_object self data ty cur sz = Ok self' → version self' = version self.
Proof.
  unfold _parse_object. repeat case_decide.
  - destruct (_parse_event _ _ _ _); [|done]. by intros [= <-].
  - destruct (_parse_action _ _ _ _) as [[a|]|]; [| |done]; by intros [= <-].
  - destruct (_parse_sound _ _ _ _) as [[a|]|]; [| |done]; by intros [= <-].
  - destruct (_parse_container _ _ _ _) as [[a|]|]; [| |done]; by intros [= <-].
  - by intros [= <-].
Qed.

Lemma version__parse_hirc self data pos size self' pos' :
  _parse_hirc self data pos size = Ok (self', pos') →
  version self' = version self.
Proof.
  unfold _parse_hirc. destruct (unpack_from_u32 data pos) as [n|]; [|done].
  cbn [bind].
  destruct (_parse_hirc_loop _ _ _ _ _) as [s|] eqn:Hloop; [|done].
  intros [= <- _]. revert Hloop.
  generalize (N.to_nat n) (pos + 4)%nat. intros k. revert self.
  induction k as [|k IH]; intros self p; cbn [_parse_hirc_loop].
  { by intros [= <-]. }
  destruct (_read_object_header self data p) as [[[ty sz] cur]|]; [|done].
  cbn [bind].
  destruct (_parse_object self data ty cur sz) as [s1|] eqn:Hobj; [|done].
  cbn [bind]. apply version__parse_object in Hobj.
  case_decide; [intros [= <-]; done|].
  intros ->%IH. done.
Qed.

Lemma version__parse_didx self data pos size self' pos' :
  _parse_didx self data pos size = Ok (self', pos') →
  version self' = version self.
Proof.
  unfold _parse_didx.
  destruct (_parse_didx_loop _ _ _ _ _) as [s|] eqn:Hloop; [|done].
  intros [= <- _]. revert Hloop.
  generalize (pos + N.to_nat size)%nat. intros end_pos.
  generalize (N.to_nat (size / 12)) pos. intros k. revert self.
  induction k as [|k IH]; intros self p; cbn [_parse_didx_loop].
  { by intros [= <-]. }
  case_decide; [by intros [= <-]|].
  destruct (unpack_from_u32 data p); [|done]. cbn [bind].
  intros ->%IH. done.
Qed.

Lemma version_parse_loop budget self data pos self' :
  parse_loop budget self data pos = Ok self' → version self' = version self.
Proof.
  revert self pos. induction budget as [|budget IH]; intros self pos;
    cbn [parse_loop]; (case_decide; [|by intros [= <-]]); [done|].
  destruct (_read_chunk_header data pos) as [[[chunk_id sz] p]|]; [|done].
  cbn [bind]. repeat case_decide.
  - destruct (_parse_hirc self data p sz) as [[s1 p1]|] eqn:Hh; [|done].
    cbn [bind]. apply version__parse_hirc in Hh. by intros ->%IH.
  - destruct (_parse_didx self data p sz) as [[s1 p1]|] eqn:Hh; [|done].
    cbn [bind]. apply version__parse_didx in Hh. by intros ->%IH.
  - apply IH.
Qed.

(** X14.  [parse] ends on every file, and raises nothing but [ValueError],
    [struct.error] and [IndexError].  It raises [ValueError] exactly when
    the four bytes at the start of the file, or behind the twelve bytes of
    an AKBK wrapper, are not [BKHD]; when it returns, the version it holds
    is the number in the four bytes that follow the size field of that
    header. *)
Theorem X14_parse_outcome (self : t) (data : bytes) :
  let start := header_start data in
  raises_only [ValueError; StructError; IndexError] (parse self data) ∧
  (parse self data = Raise ValueError
     ↔ slice data start (start + 4) ≠ encode_ascii "BKHD") ∧
  (∀ self', parse self data = Ok self' →
     version self' = le_value (slice data (start + 8) (start + 12))).
Proof.
  intros start.
  assert (∀ s pos, raises_only [StructError; IndexError]
                     (parse_loop (length data) s data pos)) as Hloop.
  { intros s pos. apply raises_only_within_budget.
    - apply raises_only_parse_loop; repeat constructor.
    - apply within_budget_parse_loop. lia. }
  unfold parse, _parse_bkhd, header_start in *. cbn [Nat.add] in *.
  fold start. split_and!.
  - apply raises_only_bind; [case_decide; raises_only|intros [s p]].
    eapply raises_only_weaken; [apply Hloop|]. by apply list_subseteq_cons.
  - case_decide as Htag; [done|]. split; [|intros Hne; exfalso; by apply Hne].
    destruct (unpack_from_u32 data (start + 4)) as [chunk_size|] eqn:H1;
      [|unfold unpack_from_u32 in H1; case_decide; [done|];
        injection H1 as <-; cbn [bind]; by intros [=]].
    destruct (unpack_from_u32 data (start + 8)) as [v|] eqn:H2;
      [|unfold unpack_from_u32 in H2; case_decide; [done|];
        injection H2 as <-; cbn [bind]; by intros [=]].
    cbn [bind]. intros He%Hloop.
    apply elem_of_cons in He as [[=]|He].
    apply elem_of_cons in He as [[=]|He]. by apply elem_of_nil in He.
  - intros self'. case_decide as Htag; [done|].
    destruct (unpack_from_u32 data (start + 4)) as [chunk_size|]; [|done].
    unfold unpack_from_u32. case_decide; [|done]. cbn [bind].
    intros ->%version_parse_loop. cbn [version set_version].
    by replace (start + 8 + 4)%nat with (start + 12)%nat by lia.
Qed.
End parse_outcome.
(** ** Action records *)

Section parse_action.
Import BankParser.

(** X15.  An Action record gives no Action when fewer than four bytes of
    the buffer remain at its start.  Otherwise its first four bytes are
    the ID; the action type is read, as the two bytes behind the ID, if and
    only if the declared size is at least 6; and the target is read, as the
    four bytes behind the type, if and only if the declared size is at
    least 10.  The fields are tested against the declared size alone, so
    the buffer has to hold what the size promises. *)
Theorem X15_parse_action_thresholds
    (self : t) (data : bytes) (pos : nat) (size : N) :
  ((length data < pos + 4)%nat → _parse_action self data pos size = Ok None) ∧
  ((pos + 4 ≤ length data)%nat →
   (6 ≤ size → (pos + 6 ≤ length data)%nat) →
   (10 ≤ size → (pos + 10 ≤ length data)%nat) →
   _parse_action self data pos size =
     Ok (Some {| Action.action_id := le_value (slice data pos (pos + 4));
                 Action.action_type :=
                   if decide (6 ≤ size)
                   then Some (le_value (slice data (pos + 4) (pos + 6)))
                   else None;
                 Action.target_id :=
                   if decide (10 ≤ size)
                   then Some (le_value (slice data (pos + 6) (pos + 10)))
                   else None |})).
Proof.
  unfold _parse_action. split.
  - intros Hshort. by rewrite decide_True by (unfold gt; lia).
  - intros Hid Hty Htg. rewrite decide_False by (unfold gt; lia).
    unfold unpack_from_u32 at 1. rewrite decide_True by done. cbn [bind].
    destruct (decide (6 ≤ size)) as [H6|H6].
    + rewrite (decide_True (P := (pos + 4 + 2 ≤ pos + N.to_nat size)%nat)) by lia.
      unfold unpack_from_u16. rewrite decide_True by (specialize (Hty H6); lia).
      cbn [bind].
      replace (pos + 4 + 2)%nat with (pos + 6)%nat by lia.
      destruct (decide (10 ≤ size)) as [H10|H10].
      * rewrite decide_True by lia. unfold unpack_from_u32.
        rewrite decide_True by (specialize (Htg H10); lia). cbn [bind].
        by replace (pos + 6 + 4)%nat with (pos + 10)%nat by lia.
      * by rewrite decide_False by lia.
    + rewrite (decide_False (P := (pos + 4 + 2 ≤ pos + N.to_nat size)%nat)) by lia.
      cbn [bind]. rewrite decide_False by lia. cbn [bind].
      by rewrite decide_False by lia.
Qed.

Lemma X15_witness :
  let data := u32 200 ++ u16 1027 ++ u32 300 in
  _parse_action init data 0 10 =
    Ok (Some {| Action.action_id := le_value (slice data 0 (0 + 4));
                Action.action_type :=
                  if decide (6 ≤ 10)
                  then Some (le_value (slice data (0 + 4) (0 + 6)))
                  else None;
                Action.target_id :=
                  if decide (10 ≤ 10)
                  then Some (le_value (slice data (0 + 6) (0 + 10)))
                  else None |}).
Proof.
  apply (proj2 (X15_parse_action_thresholds init
                  (u32 200 ++ u16 1027 ++ u32 300) 0 10)); cbn; lia.
Defined.

(** An Action record of eight bytes has a type and no target. *)
Example parse_action_of_size_8 :
  _parse_action init (u32 200 ++ u16 1027 ++ u32 300) 0 8 =
    Ok (Some {| Action.action_id := 200; Action.action_type := Some 1027;
                Action.target_id := None |}).
Proof. by vm_compute. Qed.
End parse_action.
(** ** Records that lie in the buffer *)

Lemma returns_Ok {A} (a : A) : returns (Ok a).
Proof. by exists a. Qed.

Lemma returns_bind {A B} (r : result A) (k : A → result B) :
  returns r → (∀ a, returns (k a)) → returns (bind r k).
Proof. intros [a ->] Hk. apply Hk. Qed.

Lemma returns_unpack_from_u32 data pos :
  (pos + 4 ≤ length data)%nat → returns (unpack_from_u32 data pos).
Proof. intros. unfold unpack_from_u32. rewrite decide_True by done. apply returns_Ok. Qed.

Lemma returns_unpack_from_u16 data pos :
  (pos + 2 ≤ length data)%nat → returns (unpack_from_u16 data pos).
Proof. intros. unfold unpack_from_u16. rewrite decide_True by done. apply returns_Ok. Qed.

Lemma returns_unpack_from_i16 data pos :
  (pos + 2 ≤ length data)%nat → returns (unpack_from_i16 data pos).
Proof.
  intros. unfold unpack_from_i16.
  apply returns_bind; [by apply returns_unpack_from_u16|intros; apply returns_Ok].
Qed.

Lemma returns_unpack_from_i32 data pos :
  (pos + 4 ≤ length data)%nat → returns (unpack_from_i32 data pos).
Proof.
  intros. unfold unpack_from_i32.
  apply returns_bind; [by apply returns_unpack_from_u32|intros; apply returns_Ok].
Qed.

Lemma returns_byte_at data pos :
  (pos < length data)%nat → returns (byte_at data pos).
Proof.
  intros [b Hb]%lookup_lt_is_Some. unfold byte_at. rewrite Hb. apply returns_Ok.
Qed.

Create HintDb returns discriminated.

(** Walks a body whose reads are guarded by tests on the positions. *)
Ltac returns_step :=
  first
    [ apply returns_Ok
    | apply returns_unpack_from_u32; unfold gt in *; lia
    | apply returns_unpack_from_u16; unfold gt in *; lia
    | apply returns_unpack_from_i16; unfold gt in *; lia
    | apply returns_unpack_from_i32; unfold gt in *; lia
    | apply returns_byte_at; unfold gt in *; lia
    | solve [auto with returns]
    | apply returns_bind; [|intros ?]
    | case_decide
    | match goal with
      | p : (_ * _)%type |- _ => destruct p
      end; cbn beta iota ].

Ltac returns := repeat returns_step.

Section records_in_buffer.
Import BankParser.
Variables (data : bytes) (end_pos : nat).
Hypothesis Hend : (end_pos ≤ length data)%nat.

Lemma returns__parse_children_loop n pos children :
  returns (_parse_children_loop n data pos end_pos children).
Proof.
  revert pos children. induction n as [|n IH]; intros;
    cbn [_parse_children_loop]; returns.
Qed.

Lemma returns__parse_playlist_loop n self pos items :
  returns (_parse_playlist_loop n self data pos end_pos items).
Proof.
  revert pos items. induction n as [|n IH]; intros;
    cbn [_parse_playlist_loop]; returns.
Qed.

#[local] Hint Resolve returns__parse_children_loop
  returns__parse_playlist_loop : returns.

Lemma returns__parse_children pos : returns (_parse_children data pos end_pos).
Proof. unfold _parse_children. returns. Qed.

Lemma returns__parse_playlist self pos :
  returns (_parse_playlist self data pos end_pos).
Proof. unfold _parse_playlist. returns. Qed.

Lemma returns__parse_loop_counts self pos :
  returns (_parse_loop_counts self data pos end_pos).
Proof. unfold _parse_loop_counts. returns. Qed.

Lemma returns__parse_transition_times self pos :
  returns (_parse_transition_times self data pos end_pos).
Proof. unfold _parse_transition_times. returns. Qed.

Lemma returns__parse_avoid_repeat_count pos :
  returns (_parse_avoid_repeat_count data pos end_pos).
Proof. unfold _parse_avoid_repeat_count. returns. Qed.

Lemma returns__parse_modes_and_flags self pos :
  returns (_parse_modes_and_flags self data pos end_pos).
Proof. unfold _parse_modes_and_flags. returns. Qed.
End records_in_buffer.

Section records_in_buffer_thm.
Import BankParser.

#[local] Hint Resolve returns__parse_children returns__parse_playlist
  returns__parse_loop_counts returns__parse_transition_times
  returns__parse_avoid_repeat_count returns__parse_modes_and_flags : returns.

(** X16.  A record that lies in the buffer, as its declared size has it,
    never makes [_parse_action], [_parse_sound] or [_parse_container]
    raise: every field they read is tested against the end of the record
    first. *)
Theorem X16_records_in_buffer_parse
    (self : t) (data : bytes) (pos : nat) (size : N) :
  (pos + N.to_nat size ≤ length data)%nat →
  returns (_parse_action self data pos size) ∧
  returns (_parse_sound self data pos size) ∧
  returns (_parse_container self data pos size).
Proof.
  intros Hend. split_and!.
  - unfold _parse_action. returns.
  - unfold _parse_sound. returns.
  - unfold _parse_container, _parse_node_base_params. returns.
Qed.
Lemma X16_witness :
  let data := container_payload 10 [20; 30] in
  returns (_parse_action init data 0 36) ∧
  returns (_parse_sound init data 0 36) ∧
  returns (_parse_container init data 0 36).
Proof.
  apply (X16_records_in_buffer_parse init (container_payload 10 [20; 30]) 0 36).
  cbn. lia.
Defined.
End records_in_buffer_thm.
(** ** Event records *)

Section parse_event.
Import BankParser.

Lemma unpack_from_u32_at data pos v rest :
  drop pos data = u32 v ++ rest → v < 2 ^ 32 →
  unpack_from_u32 data pos = Ok v ∧ drop (pos + 4) data = rest.
Proof.
  intros Hd Hv.
  assert (length (u32 v) = 4%nat) as Hl by apply length_le_digits.
  split.
  - unfold unpack_from_u32, slice.
    rewrite decide_True.
    + replace (pos + 4 - pos)%nat with 4%nat by lia.
      rewrite Hd, take_app_length' by done. f_equal.
      by apply (le_value_digits 4).
    + apply (f_equal length) in Hd.
      rewrite length_drop, length_app, Hl in Hd. lia.
  - rewrite <- drop_drop, Hd. by rewrite drop_app_length'.
Qed.

Lemma collect_u32 data cur acts tail :
  drop cur data = concat (u32 <$> acts) ++ tail →
  Forall (λ a, a < 2 ^ 32) acts →
  collect (length acts) (λ i, unpack_from_u32 data (cur + i * 4)) = Ok acts.
Proof.
  revert tail. induction acts as [|a acts IH] using rev_ind; intros tail Hd Hall;
    [done|].
  apply Forall_app in Hall as [Hall [Ha _]%Forall_cons].
  rewrite fmap_app, concat_app in Hd. cbn [fmap list_fmap concat] in Hd.
  rewrite app_nil_r, <- app_assoc in Hd.
  rewrite length_app. cbn [length]. rewrite Nat.add_1_r. cbn [collect].
  rewrite (IH _ Hd Hall). cbn [bind].
  assert (length (concat (u32 <$> acts)) = (length acts * 4)%nat) as Hlen.
  { clear. induction acts as [|a acts IH]; [done|].
    cbn [fmap list_fmap concat length]. rewrite length_app, IH.
    unfold u32. rewrite length_le_digits. lia. }
  assert (drop (cur + length acts * 4) data = u32 a ++ tail) as Hd'.
  { rewrite <- drop_drop, Hd, <- Hlen. by rewrite drop_app_length. }
  destruct (unpack_from_u32_at _ _ _ _ Hd' Ha) as [-> _]. done.
Qed.

Lemma _read_varint_loop_at hi lo rest value bytes_read :
  Forall continues hi → ¬ continues lo →
  _read_varint_loop (hi ++ lo :: rest) value bytes_read =
    Ok (foldl (λ v b, 128 * v + Byte.to_N b mod 128) value (hi ++ [lo]),
        (bytes_read + S (length hi))%nat).
Proof.
  intros Hhi Hlo. revert value bytes_read.
  induction Hhi as [|b hi Hb _ IH]; intros value k;
    cbn [app _read_varint_loop]; rewrite varint_step.
  - rewrite decide_True by (apply high_bit; unfold continues in Hlo; lia).
    cbn. do 2 f_equal. lia.
  - rewrite decide_False by (rewrite high_bit; unfold continues in Hb; lia).
    rewrite IH. cbn [foldl length]. do 2 f_equal. lia.
Qed.

(** X17.  An Event record that is laid out in full: the ID, the number of
    actions, then that many action IDs of four bytes each.  The number is
    four bytes in a bank of version 122 or below and a varint above.
    [_parse_event] returns the Event with that ID and those actions, in
    order, and with no audio linked yet. *)
Theorem X17_parse_event_laid_out
    (self : t) (data : bytes) (pos : nat) (size : N)
    (event_id : N) (count_field : bytes) (acts : list N) (tail : bytes) :
  drop pos data = u32 event_id ++ count_field ++ concat (u32 <$> acts) ++ tail →
  event_id < 2 ^ 32 →
  Forall (λ a, a < 2 ^ 32) acts →
  (if decide (version self ≤ 122)
   then N.of_nat (length acts) < 2 ^ 32 ∧
        count_field = u32 (N.of_nat (length acts))
   else ∃ hi lo, count_field = hi ++ [lo] ∧ Forall continues hi ∧
                 ¬ continues lo ∧
                 varint_value count_field = N.of_nat (length acts)) →
  _parse_event self data pos size =
    Ok {| Event.id := event_id; Event.actions := acts;
          Event.audio_file_ids := [] |}.
Proof.
  intros Hd Hid Hacts Hcount. unfold _parse_event.
  destruct (unpack_from_u32_at _ _ _ _ Hd Hid) as [-> Hd1]. cbn [bind].
  case_decide as Hv.
  - destruct Hcount as [Hn ->].
    destruct (unpack_from_u32_at _ _ _ _ Hd1 Hn) as [-> Hd2]. cbn [bind].
    rewrite Nat2N.id, (collect_u32 _ _ _ _ Hd2 Hacts). done.
  - destruct Hcount as (hi & lo & -> & Hhi & Hlo & Hval).
    unfold _read_varint. rewrite Hd1, <- !app_assoc. cbn [app].
    rewrite (_read_varint_loop_at hi lo _ 0 0 Hhi Hlo). cbn [bind Nat.add].
    fold (varint_value (hi ++ [lo])). rewrite Hval, Nat2N.id.
    erewrite collect_u32; [done| |done].
    rewrite <- drop_drop, Hd1.
    replace (S (length hi)) with (length (hi ++ [lo]))
      by (rewrite length_app; cbn; lia).
    by rewrite drop_app_length.
Qed.

Lemma X17_witness :
  _parse_event (set_version 140 init)
    (B [0xEE] ++ u32 7 ++ B [2] ++ u32 200 ++ u32 201 ++ B [0xEE]) 1 13 =
    Ok {| Event.id := 7; Event.actions := [200; 201];
          Event.audio_file_ids := [] |}.
Proof.
  apply (X17_parse_event_laid_out _ _ _ _ 7 (B [2]) [200; 201] (B [0xEE])).
  - done.
  - done.
  - repeat constructor.
  - cbn. exists [], (byte_of_N 2). split_and!; [done|constructor|by vm_compute|done].
Defined.
End parse_event.
(** ** The children of a container *)

Section parse_children.
Import BankParser.

Lemma _parse_children_loop_at data p end_pos children tail acc :
  drop p data = concat (u32 <$> children) ++ tail →
  Forall (λ c, c < 2 ^ 32) children →
  _parse_children_loop (length children) data p end_pos acc =
    Ok (acc ++ take ((end_pos - p) / 4) children).
Proof.
  intros Hd Hall. revert p acc Hd.
  induction Hall as [|c children Hc _ IH]; intros p acc Hd;
    cbn [length _parse_children_loop].
  { by rewrite take_nil, app_nil_r. }
  cbn [fmap list_fmap concat] in Hd. rewrite <- app_assoc in Hd.
  case_decide as Hfit.
  - rewrite Nat.div_small by (unfold gt in Hfit; lia).
    by rewrite take_0, app_nil_r.
  - destruct (unpack_from_u32_at _ _ _ _ Hd Hc) as [-> Hd']. cbn [bind].
    rewrite (IH _ _ Hd'), <- app_assoc. cbn [app]. do 2 f_equal.
    replace (end_pos - p)%nat with (end_pos - (p + 4) + 1 * 4)%nat
      by (unfold gt in Hfit; lia).
    rewrite Nat.div_add by done. by rewrite Nat.add_1_r.
Qed.

(** X18.  The children of a Container that is laid out in full, a count
    and that many child IDs of four bytes each: [_parse_children] returns
    the IDs that end at or before the end of the record, in order, so all
    of them when the record has room for them and none when it has no room
    for the count. *)
Theorem X18_parse_children_laid_out
    (data : bytes) (pos end_pos : nat) (children : list N) (tail : bytes) :
  drop pos data =
    u32 (N.of_nat (length children)) ++ concat (u32 <$> children) ++ tail →
  N.of_nat (length children) < 2 ^ 32 →
  Forall (λ c, c < 2 ^ 32) children →
  _parse_children data pos end_pos =
    Ok (take ((end_pos - (pos + 4)) / 4) children).
Proof.
  intros Hd Hn Hall. unfold _parse_children. case_decide as Hfit.
  - replace (end_pos - (pos + 4))%nat with 0%nat by (unfold gt in Hfit; lia).
    done.
  - destruct (unpack_from_u32_at _ _ _ _ Hd Hn) as [-> Hd']. cbn [bind].
    rewrite Nat2N.id. by rewrite (_parse_children_loop_at _ _ _ _ _ _ Hd' Hall).
Qed.

Lemma X18_witness :
  _parse_children (u32 3 ++ u32 20 ++ u32 30 ++ u32 40) 0 13 = Ok [20; 30].
Proof.
  apply (X18_parse_children_laid_out _ 0 13 [20; 30; 40] []).
  - done.
  - done.
  - repeat constructor.
Defined.
End parse_children.
(** ** The loop of [link_audio_to_events] *)

Section link_loop.
Import BankParser.

Lemma link_events_spec depth s0 n start s s' :
  same_graph s0 s →
  length (events s) = (start + n)%nat →
  for_each (seq start n) (link_event depth) s = Ok s' →
  same_graph s0 s' ∧ version s' = version s ∧
  length (events s') = length (events s) ∧
  (∀ j, (j < start)%nat → events s' !! j = events s !! j) ∧
  (∀ j ev, (start ≤ j)%nat → events s !! j = Some ev →
     ∃ ids,
       resolve_event depth s0 ev = Ok ids ∧
       events s' !! j = Some (Event.set_audio_file_ids (elements ids) ev)) ∧
  (∀ k, event_audio_map s' !! k =
        match last (filter (λ ev, str (Event.id ev) = k)
                      (drop start (events s'))) with
        | Some ev => Some (Event.audio_file_ids ev)
        | None => event_audio_map s !! k
        end).
Proof.
  revert start s. induction n as [|n IH]; intros start s Hg Hlen.
  { cbn [seq for_each]. intros [= <-]. split_and!; try done.
    - intros j ev Hj Hev. apply lookup_lt_Some in Hev. lia.
    - intros k. rewrite drop_ge by lia. done. }
  cbn [seq for_each].
  destruct (events s !! start) as [ev|] eqn:Hev.
  2:{ apply lookup_ge_None in Hev. lia. }
  rewrite (link_event_unfold _ _ _ _ Hev), (resolve_event_same _ s0 s) by done.
  destruct (resolve_event depth s0 ev) as [ids|] eqn:Hids; [|done].
  cbn [bind]. set (s1 := set_event_audio _ _ _). intros Hrest.
  assert (same_graph s0 s1) as Hg1 by exact Hg.
  destruct (IH (S start) s1 Hg1) as (Hg' & Hv & Hlen' & Hbefore & Hafter & Hmap);
    [|exact Hrest|].
  { unfold s1; cbn. rewrite length_insert. lia. }
  assert (events s' !! start
          = Some (Event.set_audio_file_ids (elements ids) ev)) as Hstart.
  { rewrite Hbefore by lia. unfold s1; cbn.
    apply list_lookup_insert_eq. by eapply lookup_lt_Some. }
  split_and!; try done.
  - rewrite Hlen'. unfold s1; cbn. by rewrite length_insert.
  - intros j Hj. rewrite Hbefore by lia. unfold s1; cbn.
    by rewrite list_lookup_insert_ne by lia.
  - intros j ev' Hj Hev'. destruct (decide (j = start)) as [->|Hne].
    + assert (ev' = ev) as -> by congruence. eauto.
    + apply (Hafter j ev'); [lia|]. unfold s1; cbn.
      by rewrite list_lookup_insert_ne by lia.
  - intros k. rewrite Hmap, (drop_S _ _ _ Hstart), filter_cons. unfold s1; cbn.
    case_decide as Hk.
    + rewrite last_cons. destruct (last _); [done|].
      cbn in Hk. by rewrite <- Hk, lookup_insert_eq.
    + destruct (last _); [done|]. cbn in Hk. by rewrite lookup_insert_ne.
Qed.

Lemma link_events_runs depth s0 n start s :
  same_graph s0 s →
  length (events s) = (start + n)%nat →
  (∀ j ev, (start ≤ j)%nat → events s !! j = Some ev →
           returns (resolve_event depth s0 ev)) →
  returns (for_each (seq start n) (link_event depth) s).
Proof.
  revert start s. induction n as [|n IH]; intros start s Hg Hlen Hall.
  { apply returns_Ok. }
  cbn [seq for_each].
  destruct (events s !! start) as [ev|] eqn:Hev.
  2:{ apply lookup_ge_None in Hev. lia. }
  rewrite (link_event_unfold _ _ _ _ Hev), (resolve_event_same _ s0 s) by done.
  destruct (Hall start ev) as [ids ->]; [lia|done|]. cbn [bind].
  apply IH; [exact Hg| |].
  - cbn. rewrite length_insert. lia.
  - intros j ev' Hj. cbn. rewrite list_lookup_insert_ne by lia.
    apply Hall. lia.
Qed.
End link_loop.

Section link_theorems.
Import BankParser.

(** X19.  [link_audio_to_events] raises nothing but [RecursionError]: the
    lookup [self.containers[container_id]] never raises [KeyError], every
    caller having tested the ID first. *)
Theorem X19_link_raises_only (depth : nat) (self : t) :
  raises_only [RecursionError] (link_audio_to_events depth self).
Proof.
  unfold link_audio_to_events. apply raises_only_for_each. intros i s.
  unfold link_event. destruct (events s !! i) as [ev|]; [|raises_only].
  apply raises_only_bind; [|intros; raises_only].
  apply raises_only_for_each. intros.
  apply raises_only__process_event_reference.
Qed.

(** X20.  When [link_audio_to_events] returns, the objects and the audio
    index are as before, and every event has kept its ID and its actions
    and lists, each once, exactly the audio IDs its actions refer to: the
    sources, present in the audio index, of the sounds that are reached
    from an ID of the event, directly or through a play action (type 1027),
    by going from a container to its playlist, or to its children when the
    playlist is empty.  The public map holds under the ID of an event, as
    [str] prints it, the list of the last event with that ID. *)
Theorem X20_link_resolves (depth : nat) (self self' : t) :
  link_audio_to_events depth self = Ok self' →
  same_graph self self' ∧
  length (events self') = length (events self) ∧
  (∀ j ev, events self !! j = Some ev →
     ∃ ev',
       events self' !! j = Some ev' ∧
       Event.id ev' = Event.id ev ∧
       Event.actions ev' = Event.actions ev ∧
       NoDup (Event.audio_file_ids ev') ∧
       ∀ src, src ∈ Event.audio_file_ids ev' ↔
              ∃ target, target ∈ Event.actions ev ∧ refers self target src) ∧
  (∀ ev', ev' ∈ events self' →
     ∃ last_ev,
       last (filter (λ ev, Event.id ev = Event.id ev') (events self'))
         = Some last_ev ∧
       event_audio_map self' !! str (Event.id ev')
         = Some (Event.audio_file_ids last_ev)).
Proof.
  intros Hlink.
  destruct (link_events_spec depth self (length (events self)) 0 self self')
    as (Hg & _ & Hlen & _ & Hev & Hmap); [done|done|exact Hlink|].
  split_and!; [done|done| |].
  - intros j ev Hj. destruct (Hev j ev) as (ids & Hids & Hj'); [lia|done|].
    eexists. split; [exact Hj'|]. cbn. split_and!; [done|done| |].
    + apply NoDup_elements.
    + intros src. rewrite elem_of_elements.
      by apply (resolve_event_spec depth).
  - intros ev' Hin. specialize (Hmap (str (Event.id ev'))).
    rewrite drop_0 in Hmap.
    rewrite (list_filter_iff _ (λ ev, Event.id ev = Event.id ev')) in Hmap.
    2:{ intros ev. split; [apply (inj str)|by intros ->]. }
    destruct (last _) as [last_ev|] eqn:Hlast; [eauto|].
    apply last_None in Hlast.
    by apply (filter_nil_not_elem_of _ _ ev') in Hlast.
Qed.
Example link_hier_acyclic_linked :
  link_audio_to_events 2 hier_acyclic = Ok hier_acyclic_linked.
Proof. by vm_compute. Qed.

Lemma X20_witness :
  same_graph hier_acyclic hier_acyclic_linked ∧
  length (events hier_acyclic_linked) = length (events hier_acyclic) ∧
  (∀ j ev, events hier_acyclic !! j = Some ev →
     ∃ ev',
       events hier_acyclic_linked !! j = Some ev' ∧
       Event.id ev' = Event.id ev ∧
       Event.actions ev' = Event.actions ev ∧
       NoDup (Event.audio_file_ids ev') ∧
       ∀ src, src ∈ Event.audio_file_ids ev' ↔
              ∃ target, target ∈ Event.actions ev ∧
                        refers hier_acyclic target src) ∧
  (∀ ev', ev' ∈ events hier_acyclic_linked →
     ∃ last_ev,
       last (filter (λ ev, Event.id ev = Event.id ev')
               (events hier_acyclic_linked)) = Some last_ev ∧
       event_audio_map hier_acyclic_linked !! str (Event.id ev')
         = Some (Event.audio_file_ids last_ev)).
Proof. apply (X20_link_resolves 2). by vm_compute. Defined.

(** X21.  Linking what was linked changes nothing: when
    [link_audio_to_events] has returned, calling it again returns and
    leaves every event and the public map as the first call left them. *)
Theorem X21_link_again (depth : nat) (self self' : t) :
  link_audio_to_events depth self = Ok self' →
  link_audio_to_events depth self' = Ok self'.
Proof.
  intros Hlink.
  destruct (link_events_spec depth self (length (events self)) 0 self self')
    as (Hg & _ & Hlen & _ & Hev & Hmap); [done|done|exact Hlink|].
  assert (∀ j ev1, events self' !! j = Some ev1 →
            ∃ ev ids, events self !! j = Some ev ∧
                      resolve_event depth self ev = Ok ids ∧
                      ev1 = Event.set_audio_file_ids (elements ids) ev) as Hback.
  { intros j ev1 Hj.
    destruct (lookup_lt_is_Some_2 (events self) j) as [ev Hjev].
    { rewrite <- Hlen. by eapply lookup_lt_Some. }
    destruct (Hev j ev) as (ids & Hids & Hj'); [lia|done|].
    exists ev, ids. split_and!; [done|done|congruence]. }
  unfold link_audio_to_events.
  destruct (link_events_runs depth self (length (events self')) 0 self' Hg eq_refl)
    as [s2 Hs2].
  { intros j ev1 _ (ev & ids & _ & Hids & ->)%Hback. exists ids.
    by rewrite <- Hids. }
  rewrite Hs2. f_equal.
  destruct (link_events_spec depth self (length (events self')) 0 self' s2)
    as (Hg2 & Hv2 & Hlen2 & _ & Hev2 & Hmap2); [done|done|exact Hs2|].
  assert (events s2 = events self') as Hevents.
  { apply list_eq. intros j.
    destruct (events self' !! j) as [ev1|] eqn:Hj.
    - destruct (Hev2 j ev1) as (ids2 & Hids2 & ->); [lia|done|].
      apply Hback in Hj as (ev & ids & _ & Hids & ->).
      assert (ids2 = ids) as -> by (unfold resolve_event in *; cbn in *; congruence).
      done.
    - apply lookup_ge_None. rewrite Hlen2. by apply lookup_ge_None. }
  assert (event_audio_map s2 = event_audio_map self') as Hmaps.
  { apply map_eq. intros k. rewrite Hmap2, Hevents.
    destruct (last _) as [ev|] eqn:Hlast; [|done].
    by rewrite Hmap, Hlast. }
  destruct Hg as (Hc & Hs & Ha & Haf), Hg2 as (Hc2 & Hs2' & Ha2 & Haf2).
  destruct s2, self'; cbn in *. congruence.
Qed.

Lemma X21_witness :
  link_audio_to_events 2 hier_acyclic_linked = Ok hier_acyclic_linked.
Proof. apply (X21_link_again 2 hier_acyclic). by vm_compute. Defined.
End link_theorems.
(** * The event parser on a bank the patcher wrote *)

Section parser_on_saved_bank.
Import BankParser.

Lemma slice_at data pos x rest :
  (pos ≤ length data)%nat →
  drop pos data = x ++ rest →
  slice data pos (pos + length x) = x ∧
  (pos + length x ≤ length data)%nat ∧
  drop (pos + length x) data = rest.
Proof.
  intros Hpos Hd. unfold slice.
  replace (pos + length x - pos)%nat with (length x) by lia.
  rewrite Hd, take_app_length. split; [done|]. split.
  - apply (f_equal length) in Hd. rewrite length_drop, length_app in Hd. lia.
  - by rewrite <- drop_drop, Hd, drop_app_length.
Qed.

Lemma _parse_didx_at hself data pos didx_data rest :
  (pos ≤ length data)%nat →
  drop pos data = didx_data ++ rest →
  _parse_didx hself data pos (N.of_nat (length didx_data)) =
    Ok (add_audio_files (AudioEntry.id <$> didx_entries Little didx_data) hself,
        (pos + length didx_data)%nat).
Proof.
  intros Hpos (Hslice & Hlen & _)%slice_at; [|done].
  pose proof (Nat.div_mod_eq (length didx_data) 12) as Hdm.
  pose proof (Nat.mod_upper_bound (length didx_data) 12) as Hm.
  unfold _parse_didx. rewrite Nat2N.id.
  change 12 with (N.of_nat 12). rewrite <- Nat2N.inj_div, Nat2N.id.
  rewrite _parse_didx_loop_spec by (done || lia). cbn [bind].
  do 3 f_equal.
  unfold didx_entries. rewrite <- list_fmap_compose.
  apply list_fmap_ext. intros k i Hi.
  apply lookup_seq in Hi as [-> Hi]. cbn [Nat.add compose].
  rewrite didx_entry_id_slice. cbn [in_order].
  rewrite <- Hslice at 1. rewrite slice_slice by lia.
  do 2 f_equal. lia.
Qed.

(** The header of a chunk that lies at [pos]. *)
Lemma chunk_at data pos tag payload rest :
  drop pos data = chunk tag payload ++ rest →
  length (encode_ascii tag) = 4%nat →
  N.of_nat (length payload) < 2 ^ 32 →
  (pos + 8 ≤ length data)%nat ∧
  slice data pos (pos + 4) = encode_ascii tag ∧
  le_value (slice data (pos + 4) (pos + 8)) = N.of_nat (length payload) ∧
  drop (pos + 8) data = payload ++ rest.
Proof.
  intros Hd Htag Hn. unfold chunk, chunk_with in Hd. cbn [in_order] in Hd.
  rewrite <- !app_assoc in Hd.
  assert (pos ≤ length data)%nat as Hpos.
  { apply (f_equal length) in Hd. rewrite length_drop, length_app, Htag in Hd.
    lia. }
  destruct (slice_at _ _ _ _ Hpos Hd) as (Hs1 & Hl1 & Hd1). rewrite Htag in *.
  destruct (slice_at _ _ _ _ Hl1 Hd1) as (Hs2 & Hl2 & Hd2).
  rewrite length_le_digits in *.
  replace (pos + 4 + 4)%nat with (pos + 8)%nat in * by lia.
  split_and!; [lia|done| |done].
  rewrite Hs2. by apply (le_value_digits 4).
Qed.

Lemma parse_loop_short_tail budget self data pos :
  (length data < pos + 8)%nat →
  parse_loop (S budget) self data pos = Ok self.
Proof.
  intros Hshort. cbn [parse_loop]. case_decide; [|done].
  unfold _read_chunk_header. rewrite decide_True by (unfold gt; lia).
  cbn [bind]. rewrite !decide_False by done.
  change (N.to_nat 0) with 0%nat.
  destruct budget; cbn [parse_loop]; by rewrite decide_False by lia.
Qed.

Lemma add_audio_files_frame ids hself :
  events (add_audio_files ids hself) = events hself ∧
  actions (add_audio_files ids hself) = actions hself ∧
  sounds (add_audio_files ids hself) = sounds hself ∧
  containers (add_audio_files ids hself) = containers hself ∧
  version (add_audio_files ids hself) = version hself.
Proof.
  revert hself. induction ids as [|i ids IH]; intros hself; [done|].
  unfold add_audio_files in *. cbn [foldl].
  destruct (IH (add_audio_file i hself)) as (-> & -> & -> & -> & ->). done.
Qed.

(** X22.  The event parser reads what the patcher wrote.  A little-endian
    bank a caller can hold, with a header section and fewer than eight
    trailing bytes, is saved; [BankParser.parse] on the output returns, its
    audio index being exactly the IDs of the index of the bank, with no
    event, action, sound or container: it steps over the DATA chunk by the
    size written in front of it. *)
Theorem X22_parser_reads_saved_bank
    (fs : FileSystem) (self : WwiseSoundbank.t) (out : bytes) :
  reachable self →
  WwiseSoundbank.endian self = Little →
  is_Some (WwiseSoundbank.sections self !! "BKHD") →
  (length (WwiseSoundbank._trailing_data self) < 8)%nat →
  WwiseSoundbank.save fs self = (out, Ok ()) →
  ∃ hself,
    parse init out = Ok hself ∧
    audio_files hself = list_to_set (index_ids self) ∧
    events hself = [] ∧ actions hself = ∅ ∧
    sounds hself = ∅ ∧ containers hself = ∅.
Proof.
  intros Hfr%reachable_sections_framed Hen [sec Hsec] Htr Hsave.
  apply save_Ok in Hsave
    as (hdr & sizes & payloads & Hh & Hs & _ & Hpack & Hil & Hpl & Hout).
  cbn zeta in *. rewrite Hen in *.
  unfold header_chunk in Hh. rewrite Hsec, Hen in Hh.
  apply serialize_Ok in Hh as [Hd ->].
  destruct (Hfr _ _ Hsec) as [Hm _]. rewrite Hm in *.
  set (written := written_index (zip (index_ids self) sizes) 0) in *.
  set (body := index_body Little written) in *.
  set (d := SoundbankSection.data sec) in *.
  set (blob := concat payloads) in *.
  fold (chunk "BKHD" d) (chunk "DIDX" body) (chunk "DATA" blob) in Hout.
  assert (drop 0 out = chunk "BKHD" d ++ chunk "DIDX" body ++ chunk "DATA" blob
                         ++ WwiseSoundbank._trailing_data self) as Hd0
    by (by rewrite drop_0).
  destruct (chunk_at _ _ _ _ _ Hd0 eq_refl Hd) as (Hl0 & Htag0 & Hsz0 & Hd0').
  change (0 + 4)%nat with 4%nat in *. change (0 + 8)%nat with 8%nat in *.
  assert (drop (8 + length d) out =
            chunk "DIDX" body ++ chunk "DATA" blob
              ++ WwiseSoundbank._trailing_data self) as Hd1.
  { rewrite <- drop_drop. by rewrite Hd0', drop_app_length. }
  destruct (chunk_at _ _ _ _ _ Hd1 eq_refl Hil) as (Hl1 & Htag1 & Hsz1 & Hd1').
  assert (drop (8 + length d + 8 + length body) out =
            chunk "DATA" blob ++ WwiseSoundbank._trailing_data self) as Hd2.
  { rewrite <- drop_drop, Hd1'. by rewrite drop_app_length. }
  destruct (chunk_at _ _ _ _ _ Hd2 eq_refl Hpl) as (Hl2 & Htag2 & Hsz2 & Hd2').
  assert (length out - (8 + length d + 8 + length body + 8 + length blob)
          = length (WwiseSoundbank._trailing_data self))%nat as Hend.
  { apply (f_equal length) in Hd2'.
    rewrite length_drop, length_app in Hd2'. lia. }
  (* the header *)
  unfold parse, _parse_bkhd.
  change (0 + 4)%nat with 4%nat. rewrite Htag0.
  rewrite (decide_False (P := _ = encode_ascii "AKBK")) by done. cbn zeta.
  change (0 + 4)%nat with 4%nat. change (0 + 8)%nat with 8%nat. rewrite Htag0.
  rewrite decide_False by (by intros []).
  unfold unpack_from_u32 at 1. rewrite decide_True by lia.
  change (4 + 4)%nat with 8%nat. rewrite Hsz0. cbn [bind].
  unfold unpack_from_u32 at 1. rewrite decide_True by lia. cbn [bind].
  rewrite Nat2N.id.
  set (hself0 := set_version _ init).
  (* the DIDX chunk, the DATA chunk and what trails *)
  assert (∃ budget, length out = S (S (S budget))) as [budget Hlen]
    by (exists (length out - 3)%nat; lia).
  rewrite Hlen.
  rewrite parse_loop_step by lia. cbn zeta.
  rewrite Htag1, Hsz1.
  rewrite (decide_False (P := _ = encode_ascii "HIRC")) by done.
  rewrite decide_True by done.
  rewrite (_parse_didx_at hself0 out (8 + length d + 8) body _ ltac:(lia) Hd1').
  cbn [bind].
  rewrite Nat2N.id.
  rewrite parse_loop_step by lia. cbn zeta.
  rewrite Htag2, Hsz2.
  rewrite (decide_False (P := _ = encode_ascii "HIRC")) by done.
  rewrite (decide_False (P := _ = encode_ascii "DIDX")) by done.
  rewrite Nat2N.id.
  rewrite parse_loop_short_tail by lia.
  eexists. split; [done|].
  rewrite audio_files_add_audio_files.
  destruct (add_audio_files_frame
              (AudioEntry.id <$> didx_entries Little body) hself0)
    as (-> & -> & -> & -> & _).
  split_and!; try done.
  unfold body. rewrite didx_entries_index_body.
  - unfold written. rewrite written_index_ids.
    destruct (zip_ids_sizes _ _ _ Hs) as [Hz _]. fold (index_ids self) in Hz.
    rewrite Hz. change (audio_files hself0) with (∅ : gset N).
    apply (right_id_L ∅ (∪)).
  - apply Forall_forall. intros e He. split.
    + by apply (proj1 (Forall_forall _ _) Hpack).
    + by apply (proj1 (Forall_forall _ _)
                  (written_index_plain (zip (index_ids self) sizes) 0)).
Qed.

Lemma X22_witness :
  ∃ hself,
    parse init bank_minimal_patched = Ok hself ∧
    audio_files hself = list_to_set (index_ids bank_minimal_queued) ∧
    events hself = [] ∧ actions hself = ∅ ∧
    sounds hself = ∅ ∧ containers hself = ∅.
Proof.
  apply (X22_parser_reads_saved_bank fs_two_files bank_minimal_queued).
  - exact reachable_bank_minimal_queued.
  - done.
  - by eexists.
  - cbn. lia.
  - by vm_compute.
Defined.
End parser_on_saved_bank.
(** * Queuing in either order *)

Section replace_order.
Import WwiseSoundbank.

(** An entry rewritten under one ID is not in the way of a search for
    another. *)
Lemma find_audio_entry_at_other self a b i entry entry' :
  find_audio_entry_at self a = Some (i, entry) →
  AudioEntry.id entry' = a → a ≠ b →
  find_audio_entry_at
    (set_audio_entries (<[i := entry']> (audio_entries self)) self) b
  = find_audio_entry_at self b.
Proof.
  unfold find_audio_entry_at. cbn [audio_entries set_audio_entries].
  intros (Hi & Hid & _)%list_find_Some Hid' Hab.
  destruct (list_find _ (audio_entries self)) as [[j e]|] eqn:Hb.
  - apply list_find_Some in Hb as (Hj & Hjid & Hfirst).
    assert (j ≠ i) as Hne by (intros ->; congruence).
    apply list_find_Some. split_and!; [by rewrite list_lookup_insert_ne|done|].
    intros k y Hk Hlt. destruct (decide (k = i)) as [->|Hki].
    + rewrite list_lookup_insert_eq in Hk by (by eapply lookup_lt_Some).
      injection Hk as <-. congruence.
    + rewrite list_lookup_insert_ne in Hk by done. eauto.
  - apply list_find_None. apply list_find_None in Hb.
    apply Forall_insert; [done|]. congruence.
Qed.

(** X23.  Replacements for two different IDs can be queued in either
    order: when [replace_audio] for one ID and then for the other returns,
    so does queuing them the other way round, and the bank is the same. *)
Theorem X23_replace_audio_commutes
    (fs : FileSystem) (self s1 s12 : t) (a b : N) (p q : Path) :
  a ≠ b →
  replace_audio fs self a p = Ok s1 →
  replace_audio fs s1 b q = Ok s12 →
  ∃ s2, replace_audio fs self b q = Ok s2 ∧
        replace_audio fs s2 a p = Ok s12.
Proof.
  intros Hab Ha Hb. unfold replace_audio in Ha, Hb |- *.
  destruct (find_audio_entry_at self a) as [[i ea]|] eqn:Hfa; [|done].
  destruct (exists_ fs p) eqn:Hp; [|done]. injection Ha as <-.
  pose proof Hfa as (Hi & Hia & _)%list_find_Some.
  rewrite (find_audio_entry_at_other self a b i ea) in Hb by done.
  destruct (find_audio_entry_at self b) as [[j eb]|] eqn:Hfb; [|done].
  destruct (exists_ fs q) eqn:Hq; [|done]. injection Hb as <-.
  pose proof Hfb as (Hj & Hjb & _)%list_find_Some.
  eexists. split; [done|].
  rewrite (find_audio_entry_at_other self b a j eb) by done.
  rewrite Hfa.
  assert (i ≠ j) as Hij by (intros ->; congruence).
  unfold set_audio_entries. cbn. by rewrite list_insert_insert_ne.
Qed.

Lemma X23_witness :
  ∃ s2,
    replace_audio fs_z (bank_three_with None) 3 "z.wem" = Ok s2 ∧
    replace_audio fs_z s2 2 "y.wem" =
      replace_audio fs_z (bank_three_with (Some "y.wem")) 3 "z.wem".
Proof.
  apply (X23_replace_audio_commutes fs_z (bank_three_with None)
           (bank_three_with (Some "y.wem")) _ 2 3 "y.wem" "z.wem").
  - done.
  - by vm_compute.
  - by vm_compute.
Defined.
End replace_order.
(** * The layout of a container record *)

Section container_layout.
Import BankParser.

Lemma unpack_from_u32_in data p :
  (p + 4 ≤ length data)%nat →
  unpack_from_u32 data p = Ok (le_value (slice data p (p + 4))).
Proof. intros. unfold unpack_from_u32. by rewrite decide_True. Qed.

Lemma unpack_from_u16_in data p :
  (p + 2 ≤ length data)%nat →
  unpack_from_u16 data p = Ok (le_value (slice data p (p + 2))).
Proof. intros. unfold unpack_from_u16. by rewrite decide_True. Qed.

Lemma byte_at_in data p :
  (p < length data)%nat →
  byte_at data p = Ok (le_value (slice data p (p + 1))).
Proof.
  intros [b Hb]%lookup_lt_is_Some. unfold byte_at, slice. rewrite Hb.
  replace (p + 1 - p)%nat with 1%nat by lia.
  rewrite (drop_S _ _ _ Hb). change (take 1 (b :: ?[l])) with [b].
  cbn [le_value]. f_equal. lia.
Qed.

Variables (self : t) (data : bytes) (end_pos : nat).
Hypothesis Hend : (end_pos ≤ length data)%nat.

Lemma _parse_loop_counts_modern p :
  72 < version self → (p + 6 ≤ end_pos)%nat →
  _parse_loop_counts self data p end_pos =
    Ok ((p + 6)%nat, Some (to_signed 16 (le_value (slice data p (p + 2))))).
Proof.
  intros Hv Hp. unfold _parse_loop_counts, unpack_from_i16.
  rewrite decide_False by (unfold gt; lia).
  rewrite unpack_from_u16_in by lia. cbn [bind].
  rewrite decide_False by lia. rewrite decide_False by (unfold gt; lia).
  by replace (p + 2 + 4)%nat with (p + 6)%nat by lia.
Qed.

Lemma _parse_transition_times_modern p :
  38 < version self → (p + 12 ≤ end_pos)%nat →
  _parse_transition_times self data p end_pos =
    Ok ((p + 12)%nat,
        Some (Container.FloatBits (le_value (slice data p (p + 4)))),
        Some (Container.FloatBits (le_value (slice data (p + 4) (p + 8))),
              Container.FloatBits (le_value (slice data (p + 8) (p + 12))))).
Proof.
  intros Hv Hp. unfold _parse_transition_times.
  rewrite decide_False by lia. rewrite decide_False by (unfold gt; lia).
  rewrite !unpack_from_u32_in by lia. cbn [bind].
  replace (p + 4 + 4)%nat with (p + 8)%nat by lia.
  replace (p + 8 + 4)%nat with (p + 12)%nat by lia. done.
Qed.

Lemma _parse_avoid_repeat_count_in p :
  (p + 2 ≤ end_pos)%nat →
  _parse_avoid_repeat_count data p end_pos =
    Ok ((p + 2)%nat, Some (le_value (slice data p (p + 2)))).
Proof.
  intros Hp. unfold _parse_avoid_repeat_count.
  rewrite decide_False by (unfold gt; lia).
  by rewrite unpack_from_u16_in by lia.
Qed.

Lemma _parse_modes_and_flags_modern p :
  89 < version self → (p + 4 ≤ end_pos)%nat →
  _parse_modes_and_flags self data p end_pos =
    let bitvector := le_value (slice data (p + 3) (p + 4)) in
    let bit k := N.land (N.shiftr bitvector k) 1 in
    Ok ((p + 4)%nat,
        (Some (le_value (slice data (p + 2) (p + 3))),
         Some {| Container._bIsUsingWeight := bit 0;
                 Container.bResetPlayListAtEachPlay := bit 1;
                 Container.bIsRestartBackward := bit 2;
                 Container.bIsContinuous := bit 3;
                 Container.bIsGlobal := bit 4 |})).
Proof.
  intros Hv Hp. unfold _parse_modes_and_flags.
  rewrite decide_False by (unfold gt; lia).
  rewrite !byte_at_in by lia. cbn [bind].
  rewrite decide_False by lia. rewrite decide_False by (unfold gt; lia).
  cbn [bind].
  replace (p + 1 + 1)%nat with (p + 2)%nat by lia.
  replace (p + 2 + 1)%nat with (p + 3)%nat by lia.
  replace (p + 3 + 1)%nat with (p + 4)%nat by lia. done.
Qed.
End container_layout.

Section container_layout_thm.
Import BankParser.

(** X24.  A Container record of a bank above version 89 that lies in the
    buffer and declares at least 28 bytes: the ID is the u32 at offset 0,
    the loop count the signed 16-bit number at offset 4, the transition
    time and its two modifiers the floats at offsets 10, 14 and 18, the
    repeat count the u16 at offset 22, the mode the byte at offset 26 and
    the five flags the low five bits of the byte at offset 27.  The
    children are looked for at offset 28, or [size - 84] bytes further on
    when the record declares more than 84 bytes, and the playlist
    [8 + 4 * len(children)] bytes behind the place the children were looked
    for. *)
Theorem X24_parse_container_layout
    (self : t) (data : bytes) (pos : nat) (size : N) :
  89 < version self →
  28 ≤ size →
  (pos + N.to_nat size ≤ length data)%nat →
  let end_pos := (pos + N.to_nat size)%nat in
  let skipped := if decide (84 < size) then N.to_nat (size - 84) else 0%nat in
  let start := (pos + 28 + skipped)%nat in
  let bit k := N.land (N.shiftr (field data pos 27 28) k) 1 in
  ∃ children playlist,
    _parse_children data start end_pos = Ok children ∧
    _parse_playlist self data (start + (8 + 4 * length children)) end_pos
      = Ok playlist ∧
    _parse_container self data pos size =
      Ok (Some {| Container.id := field data pos 0 4;
                  Container.children := children;
                  Container.playlist := playlist;
                  Container.loop_count :=
                    Some (to_signed 16 (field data pos 4 6));
                  Container.transition_time :=
                    Some (Container.FloatBits (field data pos 10 14));
                  Container.transition_mods :=
                    Some (Container.FloatBits (field data pos 14 18),
                          Container.FloatBits (field data pos 18 22));
                  Container.avoid_repeat_count := Some (field data pos 22 24);
                  Container.mode := Some (field data pos 26 27);
                  Container.flags :=
                    Some {| Container._bIsUsingWeight := bit 0;
                            Container.bResetPlayListAtEachPlay := bit 1;
                            Container.bIsRestartBackward := bit 2;
                            Container.bIsContinuous := bit 3;
                            Container.bIsGlobal := bit 4 |} |}).
Proof.
  intros Hv Hsize Hbuf end_pos skipped start bit.
  destruct (returns__parse_children data end_pos Hbuf start) as [children Hc].
  destruct (returns__parse_playlist data end_pos Hbuf self
              (start + (8 + 4 * length children))) as [playlist Hp].
  exists children, playlist. split; [done|]. split; [done|].
  unfold _parse_container, _parse_node_base_params. fold end_pos.
  rewrite decide_False by (unfold gt; lia).
  rewrite unpack_from_u32_in by lia. cbn [bind].
  rewrite (_parse_loop_counts_modern self data end_pos Hbuf) by (lia || (unfold end_pos; lia)).
  cbn [bind].
  rewrite (_parse_transition_times_modern self data end_pos Hbuf)
    by (lia || (unfold end_pos; lia)).
  cbn [bind].
  rewrite (_parse_avoid_repeat_count_in data end_pos Hbuf) by (unfold end_pos; lia).
  cbn [bind].
  rewrite (_parse_modes_and_flags_modern self data end_pos Hbuf)
    by (lia || (unfold end_pos; lia)).
  cbn [bind fst snd].
  assert ((if decide (84 < size)
           then (pos + 4 + 6 + 12 + 2 + 4 + N.to_nat (size - 84))%nat
           else (pos + 4 + 6 + 12 + 2 + 4)%nat) = start) as ->.
  { unfold start, skipped. case_decide; lia. }
  rewrite Hc. cbn [bind]. rewrite Hp. cbn [bind].
  unfold bit, field. rewrite Nat.add_0_r.
  repeat match goal with
  | |- context [(pos + 4 + ?k)%nat] =>
      progress replace (pos + 4 + k)%nat with (pos + (4 + k))%nat by lia
  | |- context [(pos + (?a + ?b) + ?k)%nat] =>
      progress replace (pos + (a + b) + k)%nat with (pos + (a + b + k))%nat by lia
  end.
  cbn [Nat.add]. done.
Qed.

Lemma X24_witness :
  let self := set_version 140 init in
  let data := container_payload 10 [20; 30] in
  let bit k := N.land (N.shiftr (field data 0 27 28) k) 1 in
  ∃ children playlist,
    _parse_children data 28 36 = Ok children ∧
    _parse_playlist self data (28 + (8 + 4 * length children)) 36
      = Ok playlist ∧
    _parse_container self data 0 36 =
      Ok (Some {| Container.id := field data 0 0 4;
                  Container.children := children;
                  Container.playlist := playlist;
                  Container.loop_count :=
                    Some (to_signed 16 (field data 0 4 6));
                  Container.transition_time :=
                    Some (Container.FloatBits (field data 0 10 14));
                  Container.transition_mods :=
                    Some (Container.FloatBits (field data 0 14 18),
                          Container.FloatBits (field data 0 18 22));
                  Container.avoid_repeat_count := Some (field data 0 22 24);
                  Container.mode := Some (field data 0 26 27);
                  Container.flags :=
                    Some {| Container._bIsUsingWeight := bit 0;
                            Container.bResetPlayListAtEachPlay := bit 1;
                            Container.bIsRestartBackward := bit 2;
                            Container.bIsContinuous := bit 3;
                            Container.bIsGlobal := bit 4 |} |}).
Proof.
  apply (X24_parse_container_layout (set_version 140 init)
           (container_payload 10 [20; 30]) 0 36).
  - done.
  - done.
  - cbn. lia.
Defined.

(** A record of 88 bytes: the children are looked for four bytes further
    on than they lie, so the first child ID is taken for their number. *)
Example parse_container_of_88_bytes :
  let children := N.of_nat <$> seq 1 14 in
  length (container_payload 10 children) = 88%nat ∧
  Container.children <$>
    default None (to_option (_parse_container (set_version 140 init)
                               (container_payload 10 children) 0 88))
  = Some [2].
Proof. split; by vm_compute. Qed.
End container_layout_thm.
